(** * PlexInvest Québec: the BRRRR calculation core

    A shallow embedding of the calculation services of the backend

      - [app/services/mortgage.py]      Canadian mortgage mathematics,
      - [app/services/transfer_tax.py]  transfer duties ("taxe de bienvenue"),
      - [app/services/brrrr_engine.py]  CMHC premium, BRRRR phases, HELOC
                                        capacity and quick metrics,

    together with the value records of [app/models/financial.py].

    Python's [decimal.Decimal] is modelled by its finite values, a signed
    coefficient and an exponent, with the arithmetic of the default context
    (28 significant digits, ties to even) written out.  Exceptions are the
    [Raise] results of a small error monad.  Binary floating point, which
    [mortgage.py] uses for the annuity formula, is an interface the model is
    parameterised by: every statement holds for all of its implementations. *)

From Stdlib Require Import ZArith List String Ascii Bool Lia.
Import ListNotations.
Local Open Scope Z_scope.

(** ** Exceptions and the error monad *)

Inductive exn : Type :=
| ValueError (msg : string)   (* raise ValueError(...) *)
| InvalidOperation            (* decimal.InvalidOperation *)
| DivisionByZero              (* decimal.DivisionByZero *)
| FloatError.                 (* an exception of the float code, see [PyFloat] *)

Inductive result (A : Type) : Type :=
| Ok (a : A)
| Raise (e : exn).
Arguments Ok {A} a.
Arguments Raise {A} e.

Definition bind {A B : Type} (m : result A) (k : A -> result B) : result B :=
  match m with
  | Ok a => k a
  | Raise e => Raise e
  end.

(** A computation that can only stop on an arithmetic exception: the
    decimal context's InvalidOperation or an error of the float code. *)
Definition arithmetic_only {A : Type} (m : result A) : Prop :=
  forall e, m = Raise e -> e = InvalidOperation \/ e = FloatError.

Declare Scope py_scope.
Delimit Scope py_scope with py.
Notation "x <- m ;; k" := (bind m (fun x => k))
  (at level 61, m at next level, right associativity) : py_scope.
Notation "' pat <- m ;; k" := (bind m (fun x => match x with pat => k end))
  (at level 61, pat pattern, m at next level, right associativity) : py_scope.
Local Open Scope py_scope.

(** ** [decimal.Decimal]

    A finite decimal is [coef * 10 ^ expo].  NaN and the infinities are not
    values of the model (the request schemas refuse them), and neither is the
    sign of a zero.  The exponent limits [Emax] and [Emin] of the context
    (plus and minus 999999) are not modelled: in Python a result beyond
    [Emax] raises decimal.Overflow, and one below [Emin] is rounded to a
    subnormal number or to zero.  Where a statement lists the exceptions a
    function can raise, it is made for operands of moderate size
    ([moderate], below), which keep every intermediate result far from both
    limits. *)

Record Decimal : Type := mkDecimal { coef : Z; expo : Z }.

(** [Decimal("58900")], [Decimal("0.005")]: the digits and the exponent of
    the literal. *)
Definition dec (c e : Z) : Decimal := mkDecimal c e.
Definition Decimal_of_int (n : Z) : Decimal := mkDecimal n 0.

(** The context: [getcontext().prec] and [getcontext().rounding]. *)
Definition prec : Z := 28.

Inductive rounding : Type := ROUND_HALF_EVEN | ROUND_HALF_UP.

Definition context_rounding : rounding := ROUND_HALF_EVEN.

(** [len(str(abs(c)))], the number of decimal digits; 1 for zero. *)
Fixpoint ndigits_fuel (fuel : nat) (n : Z) : Z :=
  match fuel with
  | O => 1
  | S f => if n <? 10 then 1 else 1 + ndigits_fuel f (n / 10)
  end.

Definition ndigits (c : Z) : Z :=
  ndigits_fuel (Z.to_nat (Z.log2 (Z.abs c))) (Z.abs c).

(** [c / d] rounded to an integer, [0 < d]; the rounding works on the
    magnitude and keeps the sign, as the rounding functions of [decimal]
    do. *)
Definition round_up (mode : rounding) (q r d : Z) : bool :=
  match mode with
  | ROUND_HALF_UP => d <=? 2 * r
  | ROUND_HALF_EVEN => (d <? 2 * r) || ((d =? 2 * r) && Z.odd q)
  end.

Definition round_magnitude (mode : rounding) (n d : Z) : Z :=
  let q := n / d in
  let r := n mod d in
  if round_up mode q r d then q + 1 else q.

Definition round_div (mode : rounding) (c d : Z) : Z :=
  Z.sgn c * round_magnitude mode (Z.abs c) d.

(** [Decimal._rescale(exp, rounding)]: the same value at exponent [e],
    padded with zeros or rounded. *)
Definition rescale (mode : rounding) (a : Decimal) (e : Z) : Decimal :=
  if e <=? expo a
  then mkDecimal (coef a * 10 ^ (expo a - e)) e
  else mkDecimal (round_div mode (coef a) (10 ^ (e - expo a))) e.

(** [Decimal._fix(context)]: a coefficient of more than [prec] digits is
    rounded to [prec] digits; a carry to [10 ^ prec] drops its last zero.
    The exponent is not checked against [Emax] and [Emin]. *)
Definition fix_context (a : Decimal) : Decimal :=
  let d := ndigits (coef a) in
  if d <=? prec then a
  else
    let k := d - prec in
    let c := round_div context_rounding (coef a) (10 ^ k) in
    if Z.abs c =? 10 ^ prec
    then mkDecimal (c / 10) (expo a + k + 1)
    else mkDecimal c (expo a + k).

(** What [_fix] does to a value, on an integer: [n] rounded to [prec]
    significant digits. *)
Definition round_sig (n : Z) : Z :=
  let d := ndigits n in
  if d <=? prec then n
  else round_div context_rounding n (10 ^ (d - prec)) * 10 ^ (d - prec).

(** The results of the arithmetic have at most [prec] digits. *)
Definition normal (a : Decimal) : Prop := ndigits (coef a) <= prec.

(** The coefficient of [a] once written at exponent [e], [e <= expo a]. *)
Definition scaled (a : Decimal) (e : Z) : Z := coef a * 10 ^ (expo a - e).

Definition dneg (a : Decimal) : Decimal := mkDecimal (- coef a) (expo a).

(** [a + b], [a - b], [a * b]: the exact result, then [_fix]. *)
Definition dadd (a b : Decimal) : Decimal :=
  let e := Z.min (expo a) (expo b) in
  fix_context (mkDecimal (scaled a e + scaled b e) e).

Definition dsub (a b : Decimal) : Decimal := dadd a (dneg b).

Definition dmul (a b : Decimal) : Decimal :=
  fix_context (mkDecimal (coef a * coef b) (expo a + expo b)).

(** [a / b] ([Decimal.__truediv__]): [prec + 1] digits of the quotient and
    a sticky last digit, then [_fix]; an exact quotient is brought as close
    to the ideal exponent as its trailing zeros allow. *)
Fixpoint strip_zeros (fuel : nat) (c e : Z) : Z * Z :=
  match fuel with
  | O => (c, e)
  | S f => if c mod 10 =? 0 then strip_zeros f (c / 10) (e + 1) else (c, e)
  end.

Definition ddiv (a b : Decimal) : result Decimal :=
  if coef b =? 0 then
    if coef a =? 0 then Raise InvalidOperation else Raise DivisionByZero
  else if coef a =? 0 then Ok (fix_context (mkDecimal 0 (expo a - expo b)))
  else
    let sign := Z.sgn (coef a) * Z.sgn (coef b) in
    let shift := ndigits (coef b) - ndigits (coef a) + prec + 1 in
    let e := expo a - expo b - shift in
    let n := if 0 <=? shift then Z.abs (coef a) * 10 ^ shift else Z.abs (coef a) in
    let d := if 0 <=? shift then Z.abs (coef b) else Z.abs (coef b) * 10 ^ (- shift) in
    let q := n / d in
    let r := n mod d in
    let '(c, e') :=
      if r =? 0 then strip_zeros (Z.to_nat shift) q e
      else (if q mod 5 =? 0 then q + 1 else q, e) in
    Ok (fix_context (mkDecimal (sign * c) e')).

(** Comparisons are by value. *)
Definition dcompare (a b : Decimal) : comparison :=
  let e := Z.min (expo a) (expo b) in
  scaled a e ?= scaled b e.

Definition dle (a b : Decimal) : bool :=
  match dcompare a b with Gt => false | _ => true end.
Definition dlt (a b : Decimal) : bool :=
  match dcompare a b with Lt => true | _ => false end.
Definition deq (a b : Decimal) : bool :=
  match dcompare a b with Eq => true | _ => false end.
Definition dge (a b : Decimal) : bool := dle b a.
Definition dgt (a b : Decimal) : bool := dlt b a.

(** The builtins [min(a, b)] and [max(a, b)]: the first argument unless the
    second is strictly smaller (greater). *)
Definition dmin (a b : Decimal) : Decimal := if dlt b a then b else a.
Definition dmax (a b : Decimal) : Decimal := if dgt b a then b else a.

(** [bool(d)]: a Decimal is true when it is not zero. *)
Definition dtruthy (a : Decimal) : bool := negb (coef a =? 0).

(** [a.quantize(Decimal("0.01"), rounding)], here at any exponent [e]:
    InvalidOperation when the result needs more than [prec] digits. *)
Definition quantize_exp (mode : rounding) (a : Decimal) (e : Z) : result Decimal :=
  if coef a =? 0 then Ok (mkDecimal 0 e)
  else if prec <? ndigits (coef a) + expo a - e then Raise InvalidOperation
  else
    let ans := rescale mode a e in
    if prec <? ndigits (coef ans) then Raise InvalidOperation else Ok ans.

Definition PRECISION : Decimal := dec 1 (-2).

Definition quantize (a q : Decimal) (mode : rounding) : result Decimal :=
  quantize_exp mode a (expo q).

(** [a.quantize(q)] with no rounding argument takes the context's. *)
Definition quantize_default (a q : Decimal) : result Decimal :=
  quantize a q context_rounding.

(** [q] is [x] quantized to cents: two decimal places, within half a cent
    of [x] (compared at any common exponent [m]); which way a tie went is
    not said. *)
Definition nearest_cent (q x : Decimal) : Prop :=
  expo q = -2 /\
  forall m, m <= -2 -> m <= expo x ->
    2 * Z.abs (scaled q m - scaled x m) <= 10 ^ (-2 - m).

(** [q] is [x.quantize(Decimal("0.01"), ROUND_HALF_UP)]. *)
Definition half_up_cent (q x : Decimal) : Prop :=
  q = rescale ROUND_HALF_UP x (-2).

(** An [int] operand of a Decimal operation is converted first. *)
Definition D0 : Decimal := Decimal_of_int 0.

(** ** Python [float]

    [mortgage.py] leaves Decimal for binary floating point in the annuity
    formula.  The model takes the operations it uses as an interface.
    An operation that raises in Python returns [None]: [x / 0.0] raises
    ZeroDivisionError, an overflowing [**] OverflowError, [int(x)] of a NaN
    ValueError and of an infinity OverflowError.  So does a [**] whose
    result is complex, which the [Decimal(str(x))] that follows refuses,
    and the conversion to Decimal of a float that is not finite: on
    operands of moderate size ([moderate], below) the one such conversion
    the services reach is that of an infinite payment, which the quantize
    that follows refuses.  Each of these ends in an exception before the
    calling function returns.  [None] is the exception [FloatError] of the
    model.  It stands for whichever exception the float code ends in, the
    ZeroDivisionError of a float division included, and it is not
    [DivisionByZero], which is the decimal.DivisionByZero of a Decimal
    division. *)

Class PyFloat : Type := {
  float : Type;
  float_of_Decimal : Decimal -> float;        (* float(d) *)
  float_of_int : Z -> float;                  (* an int operand *)
  fadd : float -> float -> float;
  fsub : float -> float -> float;
  fmul : float -> float -> float;
  fdiv : float -> float -> option float;
  fpow : float -> float -> option float;
  Decimal_of_float : float -> option Decimal; (* Decimal(str(x)) *)
  int_of_float : float -> option Z;           (* int(x) *)
  format_float : nat -> float -> string       (* f"{x:.nf}" *)
}.

Definition float_result {A : Type} (o : option A) : result A :=
  match o with
  | Some a => Ok a
  | None => Raise FloatError
  end.

(** ** [app/models/financial.py] *)

Inductive MunicipalityCode : Type :=
| MONTREAL | QUEBEC_CITY | LAVAL | LONGUEUIL
| GATINEAU | SHERBROOKE | TROIS_RIVIERES | OTHER_QC.

Definition MunicipalityCode_eqb (a b : MunicipalityCode) : bool :=
  match a, b with
  | MONTREAL, MONTREAL | QUEBEC_CITY, QUEBEC_CITY | LAVAL, LAVAL
  | LONGUEUIL, LONGUEUIL | GATINEAU, GATINEAU | SHERBROOKE, SHERBROOKE
  | TROIS_RIVIERES, TROIS_RIVIERES | OTHER_QC, OTHER_QC => true
  | _, _ => false
  end.

Inductive RenoFinancingType : Type := CASH | HELOC | PERSONAL_LOC | PRIVATE_LOAN.

Module PropertyFinancialsInput.
Record t : Type := mk {
  purchase_price : Decimal;
  down_payment_percent : Decimal;
  municipality : MunicipalityCode;
  notary_fees : Decimal;
  inspection_fees : Decimal;
  other_closing_costs : Decimal;
  mortgage_rate : Decimal;
  amortization_years : Z;
  renovation_budget : Decimal;
  renovation_contingency_percent : Decimal;
  renovation_duration_months : Z;
  reno_financing_type : RenoFinancingType;
  heloc_rate_for_reno : option Decimal;
  projected_monthly_rent : Decimal;
  vacancy_rate_percent : Decimal;
  municipal_taxes : Decimal;
  school_taxes : Decimal;
  insurance_annual : Decimal;
  maintenance_percent : Decimal;
  management_percent : Decimal;
  utilities_monthly : Decimal;
  after_repair_value : Decimal;
  refinance_rate : Decimal;
  refinance_amort_years : Z;
  total_units : Z;
  is_owner_occupied : bool
}.
End PropertyFinancialsInput.

Module AcquisitionResult.
Record t : Type := mk {
  purchase_price : Decimal;
  down_payment_amount : Decimal;
  down_payment_percent : Decimal;
  transfer_tax : Decimal;
  notary_fees : Decimal;
  inspection_fees : Decimal;
  other_closing_costs : Decimal;
  cmhc_premium : option Decimal;
  cmhc_premium_percent : option Decimal;
  total_closing_costs : Decimal;
  initial_mortgage_amount : Decimal;
  initial_monthly_payment : Decimal;
  total_cash_at_acquisition : Decimal
}.
End AcquisitionResult.

Module RenovationResult.
Record t : Type := mk {
  budget_base : Decimal;
  contingency : Decimal;
  total_budget : Decimal;
  duration_months : Z;
  financing_type : RenoFinancingType;
  monthly_carry_cost : Decimal;
  total_carry_cost : Decimal
}.
End RenovationResult.

Module RentalResult.
Record t : Type := mk {
  gross_monthly_rent : Decimal;
  effective_gross_income : Decimal;
  vacancy_loss : Decimal;
  municipal_taxes : Decimal;
  school_taxes : Decimal;
  insurance : Decimal;
  maintenance : Decimal;
  management : Decimal;
  utilities : Decimal;
  total_operating_expenses : Decimal;
  monthly_noi : Decimal;
  annual_noi : Decimal
}.
End RentalResult.

Module RefinanceResult.
Record t : Type := mk {
  after_repair_value : Decimal;
  max_ltv_total : Decimal;
  max_ltv_rotating : Decimal;
  new_mortgage_amount : Decimal;
  heloc_portion_amount : Decimal;
  amortized_portion_amount : Decimal;
  monthly_mortgage_payment : Decimal;
  monthly_heloc_payment : Decimal;
  total_monthly_debt_service : Decimal;
  appraisal_fee : Decimal;
  legal_fees : Decimal;
  total_refinance_costs : Decimal;
  gross_cash_out : Decimal;
  net_cash_out : Decimal
}.
End RefinanceResult.

Module KPIsResult.
Record t : Type := mk {
  total_cash_invested : Decimal;
  cash_extracted_at_refi : Decimal;
  equity_left_in_deal : Decimal;
  monthly_noi : Decimal;
  monthly_debt_service : Decimal;
  monthly_cashflow : Decimal;
  annual_cashflow : Decimal;
  cash_on_cash_return : Decimal;
  return_on_equity : Decimal;
  cap_rate : Decimal;
  gross_rent_multiplier : Decimal;
  is_infinite_return : bool;
  debt_coverage_ratio : Decimal;
  meets_min_dcr : bool;
  stress_test_rate : Decimal;
  monthly_payment_at_stress_rate : Decimal;
  passes_stress_test : bool
}.
End KPIsResult.

Module ValidationResult.
Record t : Type := mk {
  is_valid : bool;
  warnings : list string;
  errors : list string
}.
End ValidationResult.

Module BrrrrCalculationResult.
Record t : Type := mk {
  acquisition : AcquisitionResult.t;
  renovation : RenovationResult.t;
  rental : RentalResult.t;
  refinance : RefinanceResult.t;
  kpis : KPIsResult.t;
  validation : ValidationResult.t
}.
End BrrrrCalculationResult.

Module HelocCapacityInput.
Record t : Type := mk {
  current_property_value : Decimal;
  current_mortgage_balance : Decimal;
  current_heloc_balance : Decimal
}.
End HelocCapacityInput.

Module HelocCapacityResult.
Record t : Type := mk {
  max_ltv_total : Decimal;
  max_ltv_rotating : Decimal;
  max_total_borrowing : Decimal;
  max_rotating_credit : Decimal;
  total_equity : Decimal;
  available_equity_at_rotating : Decimal;
  available_equity_at_total : Decimal;
  recommended_heloc_limit : Decimal;
  can_access_rotating : bool;
  current_ltv : Decimal;
  after_heloc_ltv : Decimal
}.
End HelocCapacityResult.

Module TransferTaxBreakdownItem.
Record t : Type := mk {
  range : string;
  rate : string;
  taxable_amount : Decimal;
  tax : Decimal
}.
End TransferTaxBreakdownItem.

Module TransferTaxBreakdown.
Record t : Type := mk {
  municipality : string;
  purchase_price : Decimal;
  brackets : list TransferTaxBreakdownItem.t;
  additional_tax : Decimal;
  total_tax : Decimal
}.
End TransferTaxBreakdown.

Module QuickMetrics.
Record t : Type := mk {
  cash_on_cash : Decimal;
  monthly_cashflow : Decimal;
  cap_rate : Decimal;
  is_infinite_return : bool;
  total_investment : Decimal
}.
End QuickMetrics.

(** ** Strings: what the f-strings and the postal-code rules need *)

(** [str(n)] for an int, and [f"{n:,}"] with its thousands separators. *)
Fixpoint digits_rev (fuel : nat) (n : Z) : list ascii :=
  match fuel with
  | O => []
  | S f =>
      let d := ascii_of_nat (48 + Z.to_nat (n mod 10)) in
      if n <? 10 then [d] else d :: digits_rev f (n / 10)
  end.

Fixpoint group3 (ds : list ascii) : list ascii :=
  match ds with
  | a :: b :: c :: ((_ :: _) as rest) => a :: b :: c :: ","%char :: group3 rest
  | _ => ds
  end.

Definition str_int (n : Z) : string :=
  let ds := rev (digits_rev (S (Z.to_nat (Z.log2 (Z.abs n)))) (Z.abs n)) in
  let sign := if n <? 0 then "-"%string else ""%string in
  String.append sign (string_of_list_ascii ds).

Definition format_int_commas (n : Z) : string :=
  let ds := rev (group3 (digits_rev (S (Z.to_nat (Z.log2 (Z.abs n)))) (Z.abs n))) in
  let sign := if n <? 0 then "-"%string else ""%string in
  String.append sign (string_of_list_ascii ds).

(** [int(d)]: truncation towards zero. *)
Definition int_of_Decimal (a : Decimal) : Z :=
  if 0 <=? expo a then coef a * 10 ^ expo a
  else Z.quot (coef a) (10 ^ (- expo a)).

(** [str(d)] ([Decimal.__str__]): plain notation when the exponent is not
    positive and the number has more than -6 digits left of the point,
    scientific notation otherwise. *)
Definition zeros (n : Z) : string := string_of_list_ascii (repeat "0"%char (Z.to_nat n)).

Definition str_Decimal (a : Decimal) : string :=
  let int_ := str_int (Z.abs (coef a)) in
  let len := Z.of_nat (String.length int_) in
  let leftdigits := expo a + len in
  let dotplace := if (expo a <=? 0) && (-6 <? leftdigits) then leftdigits else 1 in
  let intpart :=
    if dotplace <=? 0 then "0"%string
    else if len <=? dotplace then (int_ ++ zeros (dotplace - len))%string
    else substring 0 (Z.to_nat dotplace) int_ in
  let fracpart :=
    if dotplace <=? 0 then ("." ++ zeros (- dotplace) ++ int_)%string
    else if len <=? dotplace then ""%string
    else ("." ++ substring (Z.to_nat dotplace) (Z.to_nat (len - dotplace)) int_)%string in
  let e := leftdigits - dotplace in
  let exp_ :=
    if e =? 0 then ""%string
    else
      let plus := if 0 <=? e then "+"%string else ""%string in
      ("E" ++ plus ++ str_int e)%string in
  let sign := if coef a <? 0 then "-"%string else ""%string in
  (sign ++ intpart ++ fracpart ++ exp_)%string.

(** [s.upper()] and [s.lower()] on ASCII letters.  Python's methods follow
    Unicode, and outside ASCII [upper()] can produce an ASCII letter (the
    upper-case form of U+1E96 starts with "H"): the model agrees with the
    code on ASCII strings, which postal codes are, and the statements on all
    strings are made for those ([is_ascii]). *)
Definition upper_ascii (c : ascii) : ascii :=
  let n := nat_of_ascii c in
  if (97 <=? n)%nat && (n <=? 122)%nat then ascii_of_nat (n - 32) else c.

Fixpoint upper (s : string) : string :=
  match s with
  | EmptyString => EmptyString
  | String c rest => String (upper_ascii c) (upper rest)
  end.

Definition lower_ascii (c : ascii) : ascii :=
  let n := nat_of_ascii c in
  if (65 <=? n)%nat && (n <=? 90)%nat then ascii_of_nat (n + 32) else c.

Fixpoint lower (s : string) : string :=
  match s with
  | EmptyString => EmptyString
  | String c rest => String (lower_ascii c) (lower rest)
  end.

(** [s.isascii()]: every character is below 128. *)
Definition is_ascii_char (c : ascii) : bool := (nat_of_ascii c <? 128)%nat.

Fixpoint is_ascii (s : string) : bool :=
  match s with
  | EmptyString => true
  | String c rest => is_ascii_char c && is_ascii rest
  end.

(** [s.startswith(p)] and the slice [s[:n]]. *)
Definition startswith (s p : string) : bool := String.prefix p s.

Fixpoint take (n : nat) (s : string) : string :=
  match n, s with
  | S n', String c rest => String c (take n' rest)
  | _, _ => EmptyString
  end.

(** ** [app/services/mortgage.py] *)

Section Mortgage.
Context {F : PyFloat}.

Definition convert_to_monthly_effective_rate (nominal_annual_rate : Decimal)
  : result Decimal :=
  let r := float_of_Decimal nominal_annual_rate in
  semi_annual_rate <- float_result (fdiv r (float_of_int 2)) ;;
  sixth <- float_result (fdiv (float_of_int 1) (float_of_int 6)) ;;
  root <- float_result (fpow (fadd (float_of_int 1) semi_annual_rate) sixth) ;;
  let monthly_rate := fsub root (float_of_int 1) in
  float_result (Decimal_of_float monthly_rate).

Definition calculate_monthly_mortgage_payment
  (principal nominal_annual_rate : Decimal) (amortization_years : Z)
  : result Decimal :=
  if dle principal D0 then Ok (dec 0 0)
  else if dle nominal_annual_rate D0 then
    q <- ddiv principal (Decimal_of_int (amortization_years * 12)) ;;
    quantize q PRECISION ROUND_HALF_UP
  else
    let P := float_of_Decimal principal in
    m <- convert_to_monthly_effective_rate nominal_annual_rate ;;
    let monthly_rate := float_of_Decimal m in
    let n := amortization_years * 12 in
    let one_plus_r := fadd (float_of_int 1) monthly_rate in
    one_plus_r_pow_n <- float_result (fpow one_plus_r (float_of_int n)) ;;
    let numerator := fmul monthly_rate one_plus_r_pow_n in
    let denominator := fsub one_plus_r_pow_n (float_of_int 1) in
    payment <- float_result (fdiv (fmul P numerator) denominator) ;;
    d <- float_result (Decimal_of_float payment) ;;
    quantize d PRECISION ROUND_HALF_UP.

Definition calculate_interest_only_payment
  (principal nominal_annual_rate : Decimal) : result Decimal :=
  if dle principal D0 || dle nominal_annual_rate D0 then Ok (dec 0 0)
  else
    monthly_rate <- convert_to_monthly_effective_rate nominal_annual_rate ;;
    let payment := dmul principal monthly_rate in
    quantize payment PRECISION ROUND_HALF_UP.

Definition calculate_stress_test_rate (contract_rate : Decimal) : Decimal :=
  let rate_with_buffer := dadd contract_rate (dec 2 (-2)) in
  let floor := dec 525 (-4) in
  dmax rate_with_buffer floor.

Definition calculate_dcr (annual_noi annual_debt_service : Decimal)
  : result Decimal :=
  if dle annual_debt_service D0 then Ok (dec 0 0)
  else
    q <- ddiv annual_noi annual_debt_service ;;
    quantize q PRECISION ROUND_HALF_UP.

(** The loop of [calculate_remaining_balance]: [inl] is the early
    [return Decimal("0")], [inr] the balance when the range is used up. *)
Fixpoint remaining_balance_loop (months : nat)
  (monthly_payment monthly_rate balance : Decimal) : Decimal + Decimal :=
  match months with
  | O => inr balance
  | S k =>
      let interest_portion := dmul balance monthly_rate in
      let principal_portion := dsub monthly_payment interest_portion in
      let balance := dsub balance principal_portion in
      if dlt balance D0 then inl (dec 0 0)
      else remaining_balance_loop k monthly_payment monthly_rate balance
  end.

Definition calculate_remaining_balance
  (principal nominal_annual_rate : Decimal) (amortization_years months_elapsed : Z)
  : result Decimal :=
  monthly_payment <-
    calculate_monthly_mortgage_payment principal nominal_annual_rate amortization_years ;;
  monthly_rate <- convert_to_monthly_effective_rate nominal_annual_rate ;;
  match remaining_balance_loop (Z.to_nat months_elapsed)
          monthly_payment monthly_rate principal with
  | inl zero => Ok zero
  | inr balance => quantize balance PRECISION ROUND_HALF_UP
  end.

(** The float [principal] of [calculate_max_mortgage_from_dcr], before
    [int(principal)]. *)
Definition max_mortgage_principal
  (annual_noi target_dcr nominal_rate : Decimal) (amort_years : Z)
  : result float :=
  max_annual_debt_service <- ddiv annual_noi target_dcr ;;
  max_monthly_payment <- ddiv max_annual_debt_service (Decimal_of_int 12) ;;
  m <- convert_to_monthly_effective_rate nominal_rate ;;
  let monthly_rate := float_of_Decimal m in
  let n := amort_years * 12 in
  let one_plus_r := fadd (float_of_int 1) monthly_rate in
  one_plus_r_pow_n <- float_result (fpow one_plus_r (float_of_int n)) ;;
  float_result
    (fdiv (fmul (float_of_Decimal max_monthly_payment)
                (fsub one_plus_r_pow_n (float_of_int 1)))
          (fmul monthly_rate one_plus_r_pow_n)).

Definition calculate_max_mortgage_from_dcr
  (annual_noi target_dcr nominal_rate : Decimal) (amort_years : Z)
  : result Decimal :=
  principal <- max_mortgage_principal annual_noi target_dcr nominal_rate amort_years ;;
  i <- float_result (int_of_float principal) ;;
  Ok (Decimal_of_int i).

End Mortgage.

(** ** [app/services/transfer_tax.py] *)

Record TaxBracket : Type := mkBracket {
  bracket_min : Decimal;
  bracket_max : Decimal;
  bracket_rate : Decimal
}.

Record AdditionalRate : Type := mkAdditional {
  threshold : Decimal;
  additional_rate : Decimal
}.

Record MunicipalityTaxConfig : Type := mkConfig {
  name : string;
  brackets : list TaxBracket;
  additional_rates : option (list AdditionalRate)
}.

(** The three bracket shapes of the 2025 grids. *)
Definition brackets_montreal : list TaxBracket :=
  [ mkBracket (dec 0 0) (dec 58900 0) (dec 5 (-3));
    mkBracket (dec 58900 0) (dec 294500 0) (dec 1 (-2));
    mkBracket (dec 294500 0) (dec 500000 0) (dec 15 (-3));
    mkBracket (dec 500000 0) (dec 1000000 0) (dec 2 (-2));
    mkBracket (dec 1000000 0) (dec 2000000 0) (dec 25 (-3));
    mkBracket (dec 2000000 0) (dec 999999999 0) (dec 3 (-2)) ].

Definition brackets_four : list TaxBracket :=
  [ mkBracket (dec 0 0) (dec 55200 0) (dec 5 (-3));
    mkBracket (dec 55200 0) (dec 276200 0) (dec 1 (-2));
    mkBracket (dec 276200 0) (dec 500000 0) (dec 15 (-3));
    mkBracket (dec 500000 0) (dec 999999999 0) (dec 2 (-2)) ].

Definition brackets_three : list TaxBracket :=
  [ mkBracket (dec 0 0) (dec 55200 0) (dec 5 (-3));
    mkBracket (dec 55200 0) (dec 276200 0) (dec 1 (-2));
    mkBracket (dec 276200 0) (dec 999999999 0) (dec 15 (-3)) ].

Definition TRANSFER_TAX_TABLES : list (MunicipalityCode * MunicipalityTaxConfig) :=
  [ (MONTREAL, mkConfig "Montréal" brackets_montreal
                 (Some [ mkAdditional (dec 2136600 0) (dec 5 (-3)) ]));
    (QUEBEC_CITY, mkConfig "Québec" brackets_four None);
    (LAVAL, mkConfig "Laval" brackets_four None);
    (LONGUEUIL, mkConfig "Longueuil" brackets_four None);
    (GATINEAU, mkConfig "Gatineau" brackets_three None);
    (SHERBROOKE, mkConfig "Sherbrooke" brackets_three None);
    (TROIS_RIVIERES, mkConfig "Trois-Rivières" brackets_three None);
    (OTHER_QC, mkConfig "Autre (Québec)" brackets_three None) ].

(** [TRANSFER_TAX_TABLES.get(municipality)] *)
Fixpoint tables_get (tables : list (MunicipalityCode * MunicipalityTaxConfig))
  (m : MunicipalityCode) : option MunicipalityTaxConfig :=
  match tables with
  | [] => None
  | (k, v) :: rest => if MunicipalityCode_eqb k m then Some v else tables_get rest m
  end.

(** The member's value, for the message of the ValueError. *)
Definition str_MunicipalityCode (m : MunicipalityCode) : string :=
  match m with
  | MONTREAL => "MONTREAL"
  | QUEBEC_CITY => "QUEBEC_CITY"
  | LAVAL => "LAVAL"
  | LONGUEUIL => "LONGUEUIL"
  | GATINEAU => "GATINEAU"
  | SHERBROOKE => "SHERBROOKE"
  | TROIS_RIVIERES => "TROIS_RIVIERES"
  | OTHER_QC => "OTHER_QC"
  end.

(** The bracket loop of [calculate_transfer_tax], with its [break]. *)
Fixpoint bracket_loop (purchase_price : Decimal) (bs : list TaxBracket)
  (total_tax : Decimal) : Decimal :=
  match bs with
  | [] => total_tax
  | bracket :: rest =>
      if dle purchase_price (bracket_min bracket) then total_tax
      else
        let taxable_max := dmin purchase_price (bracket_max bracket) in
        let taxable_amount := dsub taxable_max (bracket_min bracket) in
        let total_tax :=
          if dgt taxable_amount D0
          then dadd total_tax (dmul taxable_amount (bracket_rate bracket))
          else total_tax in
        bracket_loop purchase_price rest total_tax
  end.

(** The loop over the additional rates. *)
Fixpoint additional_loop (purchase_price : Decimal) (adds : list AdditionalRate)
  (total_tax : Decimal) : Decimal :=
  match adds with
  | [] => total_tax
  | additional :: rest =>
      let total_tax :=
        if dgt purchase_price (threshold additional)
        then
          let additional_amount := dsub purchase_price (threshold additional) in
          dadd total_tax (dmul additional_amount (additional_rate additional))
        else total_tax in
      additional_loop purchase_price rest total_tax
  end.

(** [if tax_config["additional_rates"]:] holds for a list that is neither
    [None] nor empty; the loop over an empty list does nothing. *)
Definition additional_list (cfg : MunicipalityTaxConfig) : list AdditionalRate :=
  match additional_rates cfg with
  | Some l => l
  | None => []
  end.

Definition calculate_transfer_tax_in
  (tables : list (MunicipalityCode * MunicipalityTaxConfig))
  (purchase_price : Decimal) (municipality : MunicipalityCode) : result Decimal :=
  match tables_get tables municipality with
  | None =>
      Raise (ValueError ("Municipalité non supportée: "
                           ++ str_MunicipalityCode municipality))
  | Some tax_config =>
      let total_tax := dec 0 0 in
      let total_tax := bracket_loop purchase_price (brackets tax_config) total_tax in
      let total_tax := additional_loop purchase_price (additional_list tax_config) total_tax in
      quantize total_tax PRECISION ROUND_HALF_UP
  end.

Definition calculate_transfer_tax
  (purchase_price : Decimal) (municipality : MunicipalityCode) : result Decimal :=
  calculate_transfer_tax_in TRANSFER_TAX_TABLES purchase_price municipality.

(** A grid whose rates are not negative. *)
Definition rates_nonneg (cfg : MunicipalityTaxConfig) : Prop :=
  Forall (fun b => 0 <= coef (bracket_rate b)) (brackets cfg) /\
  Forall (fun a => 0 <= coef (additional_rate a)) (additional_list cfg).

Section Breakdown.
Context {F : PyFloat}.

(** The bracket loop of [get_transfer_tax_breakdown]: the line items are
    appended in order; [tax.quantize(PRECISION)] and
    [taxable_amount.quantize(PRECISION)] carry no rounding argument. *)
Fixpoint breakdown_loop (purchase_price : Decimal) (bs : list TaxBracket)
  (items : list TransferTaxBreakdownItem.t)
  : result (list TransferTaxBreakdownItem.t) :=
  match bs with
  | [] => Ok items
  | bracket :: rest =>
      if dle purchase_price (bracket_min bracket) then Ok items
      else
        let taxable_max := dmin purchase_price (bracket_max bracket) in
        let taxable_amount := dsub taxable_max (bracket_min bracket) in
        if dgt taxable_amount D0 then
          let tax := dmul taxable_amount (bracket_rate bracket) in
          let rate_str :=
            (format_float 1 (fmul (float_of_Decimal (bracket_rate bracket))
                                  (float_of_int 100)) ++ "%")%string in
          let range_str :=
            if dge (bracket_max bracket) (dec 999999999 0)
            then (format_int_commas (int_of_Decimal (bracket_min bracket)) ++ "$+")%string
            else (format_int_commas (int_of_Decimal (bracket_min bracket)) ++ "$ - "
                  ++ format_int_commas (int_of_Decimal (bracket_max bracket)) ++ "$")%string in
          taxable_q <- quantize_default taxable_amount PRECISION ;;
          tax_q <- quantize_default tax PRECISION ;;
          breakdown_loop purchase_price rest
            (items ++ [TransferTaxBreakdownItem.mk range_str rate_str taxable_q tax_q])
        else breakdown_loop purchase_price rest items
  end.

(** [sum(b.tax for b in brackets)]: the builtin starts from the int 0. *)
Definition sum_tax (items : list TransferTaxBreakdownItem.t) : Decimal :=
  fold_left (fun acc b => dadd acc (TransferTaxBreakdownItem.tax b)) items D0.

Definition get_transfer_tax_breakdown
  (purchase_price : Decimal) (municipality : MunicipalityCode)
  : result TransferTaxBreakdown.t :=
  match tables_get TRANSFER_TAX_TABLES municipality with
  | None =>
      Raise (ValueError ("Municipalité non supportée: "
                           ++ str_MunicipalityCode municipality))
  | Some tax_config =>
      let additional_tax := dec 0 0 in
      items <- breakdown_loop purchase_price (brackets tax_config) [] ;;
      let additional_tax :=
        additional_loop purchase_price (additional_list tax_config) additional_tax in
      let total_tax := dadd (sum_tax items) additional_tax in
      additional_q <- quantize_default additional_tax PRECISION ;;
      total_q <- quantize_default total_tax PRECISION ;;
      Ok (TransferTaxBreakdown.mk (name tax_config) purchase_price items
            additional_q total_q)
  end.

End Breakdown.

Definition get_municipality_from_postal_code (postal_code : string)
  : MunicipalityCode :=
  let prefix :=
    match postal_code with
    | EmptyString => EmptyString
    | _ => take 3 (upper postal_code)
    end in
  if startswith prefix "H" then
    if startswith prefix "H7" then LAVAL else MONTREAL
  else if startswith prefix "G1" || startswith prefix "G2" then QUEBEC_CITY
  else if startswith prefix "J8" || startswith prefix "J9" then GATINEAU
  else if startswith prefix "J4" then LONGUEUIL
  else if startswith prefix "J1" then SHERBROOKE
  else if startswith prefix "G8" || startswith prefix "G9" then TROIS_RIVIERES
  else OTHER_QC.

(** ** [app/services/brrrr_engine.py] *)

(** BSIF rules (hard-coded). *)
Definition BSIF_HELOC_ROTATING_LTV_MAX : Decimal := dec 65 (-2).
Definition BSIF_REFINANCE_LTV_MAX : Decimal := dec 80 (-2).
Definition BSIF_MIN_DCR_COMMERCIAL : Decimal := dec 125 (-2).

(** [(premium_amount, premium_rate, notes)]; [premium.quantize(PRECISION)]
    carries no rounding argument. *)
Definition calculate_cmhc_premium
  (loan_amount down_payment_percent : Decimal) (is_owner_occupied : bool)
  (total_units : Z) (purchase_price : Decimal)
  : result (option Decimal * option Decimal * list string) :=
  let notes : list string := [] in
  if dge down_payment_percent (dec 20 (-2)) then
    Ok (None, None, notes ++ ["Mise de fonds ≥ 20%: Aucune assurance SCHL requise"%string])
  else if negb is_owner_occupied then
    Ok (None, None,
        notes ++ ["Investisseur non-occupant: Mise de fonds 20% minimum requise"%string])
  else if total_units >? 4 then
    Ok (None, None, notes ++ ["5+ logements: Financement commercial requis"%string])
  else if dgt purchase_price (dec 999999 0) then
    Ok (None, None,
        notes ++ ["Prix > 1M$: Non assurable SCHL, 20% minimum requis"%string])
  else
    let '(rate, notes) :=
      if dge down_payment_percent (dec 15 (-2)) then
        (dec 28 (-3), notes ++ ["Prime SCHL 2.8%: Mise de fonds 15-19.99%"%string])
      else if dge down_payment_percent (dec 10 (-2)) then
        (dec 31 (-3), notes ++ ["Prime SCHL 3.1%: Mise de fonds 10-14.99%"%string])
      else
        (dec 4 (-2), notes ++ ["Prime SCHL 4.0%: Mise de fonds 5-9.99%"%string]) in
    let premium := dmul loan_amount rate in
    premium_q <- quantize_default premium PRECISION ;;
    Ok (Some premium_q, Some rate, notes).

(** The unrounded locals of [calculate_brrrr] that a later phase reads. *)
Record AcquisitionLocals : Type := mkAcquisitionLocals {
  down_payment_amount : Decimal;
  loan_amount : Decimal;
  initial_mortgage_amount : Decimal;
  initial_monthly_payment : Decimal;
  total_closing_costs : Decimal;
  total_cash_at_acquisition : Decimal
}.

Record RenovationLocals : Type := mkRenovationLocals {
  contingency_amount : Decimal;
  total_reno_budget : Decimal;
  monthly_carry_cost : Decimal;
  total_carry_cost : Decimal
}.

Record RentalLocals : Type := mkRentalLocals {
  gross_monthly_rent : Decimal;
  effective_gross_income : Decimal;
  vacancy_loss : Decimal;
  monthly_muni_tax : Decimal;
  monthly_school_tax : Decimal;
  monthly_insurance_op : Decimal;
  monthly_maintenance : Decimal;
  monthly_management : Decimal;
  total_operating_expenses : Decimal;
  monthly_noi : Decimal;
  annual_noi : Decimal
}.

Record RefinanceLocals : Type := mkRefinanceLocals {
  new_mortgage_amount : Decimal;
  heloc_portion : Decimal;
  amortized_portion : Decimal;
  total_monthly_debt_service : Decimal;
  gross_cash_out : Decimal;
  net_cash_out : Decimal
}.

Record KPIsLocals : Type := mkKPIsLocals {
  total_cash_invested : Decimal;
  cash_extracted : Decimal;
  equity_left_in_deal : Decimal;
  monthly_cashflow : Decimal;
  annual_cashflow : Decimal
}.

Record BrrrrLocals : Type := mkBrrrrLocals {
  acquisition_locals : AcquisitionLocals;
  renovation_locals : RenovationLocals;
  rental_locals : RentalLocals;
  refinance_locals : RefinanceLocals;
  kpis_locals : KPIsLocals
}.

Record HelocLocals : Type := mkHelocLocals {
  max_total_borrowing : Decimal;
  max_rotating_credit : Decimal;
  total_equity : Decimal;
  available_at_rotating : Decimal;
  available_at_total : Decimal;
  recommended_heloc_limit : Decimal
}.

Record QuickLocals : Type := mkQuickLocals {
  quick_monthly_cashflow : Decimal;
  quick_total_investment : Decimal
}.

(** The field constraints of the request schema [PropertyFinancialsInput]
    ([ge], [le]); the boundary layer checks them before the engine runs. *)
Definition in_range (lo x hi : Decimal) : bool := dle lo x && dle x hi.

Definition valid_input (i : PropertyFinancialsInput.t) : bool :=
  dle (dec 10000 0) (PropertyFinancialsInput.purchase_price i)
  && in_range (dec 5 (-2)) (PropertyFinancialsInput.down_payment_percent i) (dec 10 (-1))
  && dle D0 (PropertyFinancialsInput.notary_fees i)
  && dle D0 (PropertyFinancialsInput.inspection_fees i)
  && dle D0 (PropertyFinancialsInput.other_closing_costs i)
  && in_range D0 (PropertyFinancialsInput.mortgage_rate i) (dec 20 (-2))
  && (5 <=? PropertyFinancialsInput.amortization_years i)
  && (PropertyFinancialsInput.amortization_years i <=? 30)
  && dle D0 (PropertyFinancialsInput.renovation_budget i)
  && in_range D0 (PropertyFinancialsInput.renovation_contingency_percent i) (dec 50 0)
  && (0 <=? PropertyFinancialsInput.renovation_duration_months i)
  && (PropertyFinancialsInput.renovation_duration_months i <=? 24)
  && match PropertyFinancialsInput.heloc_rate_for_reno i with
     | Some r => in_range D0 r (dec 20 (-2))
     | None => true
     end
  && dle D0 (PropertyFinancialsInput.projected_monthly_rent i)
  && in_range D0 (PropertyFinancialsInput.vacancy_rate_percent i) (dec 50 0)
  && dle D0 (PropertyFinancialsInput.municipal_taxes i)
  && dle D0 (PropertyFinancialsInput.school_taxes i)
  && dle D0 (PropertyFinancialsInput.insurance_annual i)
  && in_range D0 (PropertyFinancialsInput.maintenance_percent i) (dec 20 0)
  && in_range D0 (PropertyFinancialsInput.management_percent i) (dec 15 0)
  && dle D0 (PropertyFinancialsInput.utilities_monthly i)
  && dle D0 (PropertyFinancialsInput.after_repair_value i)
  && in_range D0 (PropertyFinancialsInput.refinance_rate i) (dec 20 (-2))
  && (5 <=? PropertyFinancialsInput.refinance_amort_years i)
  && (PropertyFinancialsInput.refinance_amort_years i <=? 30)
  && (1 <=? PropertyFinancialsInput.total_units i)
  && (PropertyFinancialsInput.total_units i <=? 100).

(** Operands of moderate size: at most 28 digits and an exponent between
    -100 and 100, so a magnitude below [10 ^ 128] that is zero or at least
    [10 ^ -100].  The services combine a bounded number of such operands, so
    no intermediate result comes near the exponent limits of the decimal
    context, and each converts to a finite float that is zero only if the
    operand is. *)
Definition moderate (a : Decimal) : bool :=
  (Z.abs (coef a) <? 10 ^ 28) && (Z.abs (expo a) <=? 100).

Definition moderate_option (o : option Decimal) : bool :=
  match o with
  | Some a => moderate a
  | None => true
  end.

Definition moderate_input (i : PropertyFinancialsInput.t) : bool :=
  moderate (PropertyFinancialsInput.purchase_price i)
  && moderate (PropertyFinancialsInput.down_payment_percent i)
  && moderate (PropertyFinancialsInput.notary_fees i)
  && moderate (PropertyFinancialsInput.inspection_fees i)
  && moderate (PropertyFinancialsInput.other_closing_costs i)
  && moderate (PropertyFinancialsInput.mortgage_rate i)
  && moderate (PropertyFinancialsInput.renovation_budget i)
  && moderate (PropertyFinancialsInput.renovation_contingency_percent i)
  && moderate_option (PropertyFinancialsInput.heloc_rate_for_reno i)
  && moderate (PropertyFinancialsInput.projected_monthly_rent i)
  && moderate (PropertyFinancialsInput.vacancy_rate_percent i)
  && moderate (PropertyFinancialsInput.municipal_taxes i)
  && moderate (PropertyFinancialsInput.school_taxes i)
  && moderate (PropertyFinancialsInput.insurance_annual i)
  && moderate (PropertyFinancialsInput.maintenance_percent i)
  && moderate (PropertyFinancialsInput.management_percent i)
  && moderate (PropertyFinancialsInput.utilities_monthly i)
  && moderate (PropertyFinancialsInput.after_repair_value i)
  && moderate (PropertyFinancialsInput.refinance_rate i).

Definition moderate_heloc_input (i : HelocCapacityInput.t) : bool :=
  moderate (HelocCapacityInput.current_property_value i)
  && moderate (HelocCapacityInput.current_mortgage_balance i)
  && moderate (HelocCapacityInput.current_heloc_balance i).

Section Engine.
Context {F : PyFloat}.

Import PropertyFinancialsInput.

(** Phase 1: acquisition (buy).  [warnings] is the list the function
    extends with the CMHC notes. *)
Definition acquisition_phase (input_data : PropertyFinancialsInput.t)
  (warnings : list string)
  : result (AcquisitionResult.t * AcquisitionLocals * list string) :=
  let purchase_price := purchase_price input_data in
  let down_payment_percent := down_payment_percent input_data in
  let down_payment_amount := dmul purchase_price down_payment_percent in
  transfer_tax <- calculate_transfer_tax purchase_price (municipality input_data) ;;
  let notary_fees := notary_fees input_data in
  let inspection_fees := inspection_fees input_data in
  let other_closing_costs := other_closing_costs input_data in
  let loan_amount := dsub purchase_price down_payment_amount in
  '(cmhc_premium, cmhc_rate, cmhc_notes) <-
    calculate_cmhc_premium loan_amount down_payment_percent
      (is_owner_occupied input_data) (total_units input_data) purchase_price ;;
  let warnings := warnings ++ cmhc_notes in
  let initial_mortgage_amount :=
    match cmhc_premium with
    | Some premium =>
        if dtruthy premium then dadd loan_amount premium else loan_amount
    | None => loan_amount
    end in
  initial_monthly_payment <-
    calculate_monthly_mortgage_payment initial_mortgage_amount
      (mortgage_rate input_data) (amortization_years input_data) ;;
  let total_closing_costs :=
    dadd (dadd (dadd transfer_tax notary_fees) inspection_fees) other_closing_costs in
  let total_cash_at_acquisition := dadd down_payment_amount total_closing_costs in
  down_payment_amount_q <- quantize_default down_payment_amount PRECISION ;;
  total_closing_costs_q <- quantize_default total_closing_costs PRECISION ;;
  initial_mortgage_amount_q <- quantize_default initial_mortgage_amount PRECISION ;;
  total_cash_at_acquisition_q <- quantize_default total_cash_at_acquisition PRECISION ;;
  Ok (AcquisitionResult.mk purchase_price down_payment_amount_q down_payment_percent
        transfer_tax notary_fees inspection_fees other_closing_costs
        cmhc_premium cmhc_rate total_closing_costs_q initial_mortgage_amount_q
        initial_monthly_payment total_cash_at_acquisition_q,
      mkAcquisitionLocals down_payment_amount loan_amount initial_mortgage_amount
        initial_monthly_payment total_closing_costs total_cash_at_acquisition,
      warnings).

(** Phase 2: renovation (rehab). *)
Definition renovation_phase (input_data : PropertyFinancialsInput.t)
  (acq : AcquisitionLocals) : result (RenovationResult.t * RenovationLocals) :=
  let reno_budget_base := renovation_budget input_data in
  let contingency_percent := renovation_contingency_percent input_data in
  contingency_fraction <- ddiv contingency_percent (dec 100 0) ;;
  let contingency_amount := dmul reno_budget_base contingency_fraction in
  let total_reno_budget := dadd reno_budget_base contingency_amount in
  monthly_property_taxes <- ddiv (municipal_taxes input_data) (dec 12 0) ;;
  monthly_school_taxes <- ddiv (school_taxes input_data) (dec 12 0) ;;
  monthly_insurance <- ddiv (insurance_annual input_data) (dec 12 0) ;;
  let monthly_carry_cost :=
    dadd (dadd (dadd (initial_monthly_payment acq) monthly_property_taxes)
               monthly_school_taxes)
         monthly_insurance in
  monthly_carry_cost <-
    match reno_financing_type input_data, heloc_rate_for_reno input_data with
    | HELOC, Some heloc_rate =>
        if dtruthy heloc_rate then
          avg_heloc_balance <- ddiv total_reno_budget (dec 2 0) ;;
          monthly_heloc_interest <-
            calculate_interest_only_payment avg_heloc_balance heloc_rate ;;
          Ok (dadd monthly_carry_cost monthly_heloc_interest)
        else Ok monthly_carry_cost
    | _, _ => Ok monthly_carry_cost
    end ;;
  let total_carry_cost :=
    dmul monthly_carry_cost (Decimal_of_int (renovation_duration_months input_data)) in
  contingency_q <- quantize_default contingency_amount PRECISION ;;
  total_budget_q <- quantize_default total_reno_budget PRECISION ;;
  monthly_carry_cost_q <- quantize_default monthly_carry_cost PRECISION ;;
  total_carry_cost_q <- quantize_default total_carry_cost PRECISION ;;
  Ok (RenovationResult.mk reno_budget_base contingency_q total_budget_q
        (renovation_duration_months input_data) (reno_financing_type input_data)
        monthly_carry_cost_q total_carry_cost_q,
      mkRenovationLocals contingency_amount total_reno_budget monthly_carry_cost
        total_carry_cost).

(** Phase 3: rental (rent). *)
Definition rental_phase (input_data : PropertyFinancialsInput.t)
  : result (RentalResult.t * RentalLocals) :=
  let gross_monthly_rent := projected_monthly_rent input_data in
  vacancy_rate <- ddiv (vacancy_rate_percent input_data) (dec 100 0) ;;
  let vacancy_loss := dmul gross_monthly_rent vacancy_rate in
  let effective_gross_income := dsub gross_monthly_rent vacancy_loss in
  monthly_muni_tax <- ddiv (municipal_taxes input_data) (dec 12 0) ;;
  monthly_school_tax <- ddiv (school_taxes input_data) (dec 12 0) ;;
  monthly_insurance_op <- ddiv (insurance_annual input_data) (dec 12 0) ;;
  maintenance_rate <- ddiv (maintenance_percent input_data) (dec 100 0) ;;
  let monthly_maintenance := dmul effective_gross_income maintenance_rate in
  management_rate <- ddiv (management_percent input_data) (dec 100 0) ;;
  let monthly_management := dmul effective_gross_income management_rate in
  let monthly_utilities := utilities_monthly input_data in
  let total_operating_expenses :=
    dadd (dadd (dadd (dadd (dadd monthly_muni_tax monthly_school_tax)
                                 monthly_insurance_op)
                           monthly_maintenance)
                     monthly_management)
         monthly_utilities in
  let monthly_noi := dsub effective_gross_income total_operating_expenses in
  let annual_noi := dmul monthly_noi (dec 12 0) in
  effective_gross_income_q <- quantize_default effective_gross_income PRECISION ;;
  vacancy_loss_q <- quantize_default vacancy_loss PRECISION ;;
  municipal_taxes_q <- quantize_default monthly_muni_tax PRECISION ;;
  school_taxes_q <- quantize_default monthly_school_tax PRECISION ;;
  insurance_q <- quantize_default monthly_insurance_op PRECISION ;;
  maintenance_q <- quantize_default monthly_maintenance PRECISION ;;
  management_q <- quantize_default monthly_management PRECISION ;;
  total_operating_expenses_q <- quantize_default total_operating_expenses PRECISION ;;
  monthly_noi_q <- quantize_default monthly_noi PRECISION ;;
  annual_noi_q <- quantize_default annual_noi PRECISION ;;
  Ok (RentalResult.mk gross_monthly_rent effective_gross_income_q vacancy_loss_q
        municipal_taxes_q school_taxes_q insurance_q maintenance_q management_q
        monthly_utilities total_operating_expenses_q monthly_noi_q annual_noi_q,
      mkRentalLocals gross_monthly_rent effective_gross_income vacancy_loss
        monthly_muni_tax monthly_school_tax monthly_insurance_op monthly_maintenance
        monthly_management total_operating_expenses monthly_noi annual_noi).

(** Phase 4: refinancing (refinance). *)
Definition refinance_phase (input_data : PropertyFinancialsInput.t)
  (acq : AcquisitionLocals) (reno : RenovationLocals)
  : result (RefinanceResult.t * RefinanceLocals) :=
  let arv := after_repair_value input_data in
  let max_total_borrowing := dmul arv BSIF_REFINANCE_LTV_MAX in
  let max_rotating := dmul arv BSIF_HELOC_ROTATING_LTV_MAX in
  let heloc_portion := dmin max_total_borrowing max_rotating in
  let amortized_portion := dsub max_total_borrowing heloc_portion in
  monthly_heloc_payment <-
    calculate_interest_only_payment heloc_portion (refinance_rate input_data) ;;
  monthly_mortgage_payment <-
    (if dgt amortized_portion D0 then
       calculate_monthly_mortgage_payment amortized_portion
         (refinance_rate input_data) (refinance_amort_years input_data)
     else Ok (dec 0 0)) ;;
  let total_monthly_debt_service := dadd monthly_heloc_payment monthly_mortgage_payment in
  let appraisal_fee := dec 400 0 in
  let legal_fees := dec 1200 0 in
  let total_refi_costs := dadd appraisal_fee legal_fees in
  let total_debt_before_refi :=
    dadd (initial_mortgage_amount acq) (total_reno_budget reno) in
  let new_mortgage_amount := max_total_borrowing in
  let gross_cash_out := dsub new_mortgage_amount total_debt_before_refi in
  let net_cash_out := dsub gross_cash_out total_refi_costs in
  new_mortgage_amount_q <- quantize_default new_mortgage_amount PRECISION ;;
  heloc_portion_q <- quantize_default heloc_portion PRECISION ;;
  amortized_portion_q <- quantize_default amortized_portion PRECISION ;;
  total_monthly_debt_service_q <- quantize_default total_monthly_debt_service PRECISION ;;
  gross_cash_out_q <- quantize_default gross_cash_out PRECISION ;;
  net_cash_out_q <- quantize_default net_cash_out PRECISION ;;
  Ok (RefinanceResult.mk arv BSIF_REFINANCE_LTV_MAX BSIF_HELOC_ROTATING_LTV_MAX
        new_mortgage_amount_q heloc_portion_q amortized_portion_q
        monthly_mortgage_payment monthly_heloc_payment total_monthly_debt_service_q
        appraisal_fee legal_fees total_refi_costs gross_cash_out_q net_cash_out_q,
      mkRefinanceLocals new_mortgage_amount heloc_portion amortized_portion
        total_monthly_debt_service gross_cash_out net_cash_out).

(** The four advisory messages of the KPI block. *)
Definition dcr_warning (dcr : Decimal) : string :=
  ("DCR de " ++ str_Decimal dcr ++ " inférieur au minimum de "
   ++ str_Decimal BSIF_MIN_DCR_COMMERCIAL)%string.

Definition stress_warning (stress_test_rate : Decimal) : string :=
  ("Cashflow négatif au taux du stress test ("
   ++ format_float 2 (fmul (float_of_Decimal stress_test_rate) (float_of_int 100))
   ++ "%)")%string.

Definition cashflow_warning : string :=
  "Cashflow négatif - Ce projet coûte de l'argent chaque mois".

Definition cash_on_cash_warning : string :=
  "Cash-on-Cash inférieur à 5% - Rendement faible".

(** Final KPIs and the warnings appended after the CMHC notes. *)
Definition kpis_phase (input_data : PropertyFinancialsInput.t)
  (acq : AcquisitionLocals) (reno : RenovationLocals) (rent : RentalLocals)
  (refi : RefinanceLocals) (warnings : list string)
  : result (KPIsResult.t * KPIsLocals * list string) :=
  let arv := after_repair_value input_data in
  let total_cash_invested :=
    dadd (dadd (total_cash_at_acquisition acq) (total_reno_budget reno))
         (total_carry_cost reno) in
  let cash_extracted := dmax (dec 0 0) (net_cash_out refi) in
  let equity_left_in_deal :=
    dmax (dec 0 0) (dsub total_cash_invested cash_extracted) in
  let monthly_cashflow := dsub (monthly_noi rent) (total_monthly_debt_service refi) in
  let annual_cashflow := dmul monthly_cashflow (dec 12 0) in
  let is_infinite_return := dle equity_left_in_deal D0 in
  cash_on_cash <-
    (if is_infinite_return then Ok (dec 999999 0)
     else
       ratio <- ddiv annual_cashflow equity_left_in_deal ;;
       quantize_default (dmul ratio (dec 100 0)) PRECISION) ;;
  let return_on_equity := cash_on_cash in
  cap_rate <-
    (if dgt arv D0 then
       ratio <- ddiv (annual_noi rent) arv ;;
       quantize_default (dmul ratio (dec 100 0)) PRECISION
     else Ok (dec 0 0)) ;;
  gross_rent_multiplier <-
    (if dgt (gross_monthly_rent rent) D0 then
       ratio <- ddiv (purchase_price input_data)
                     (dmul (gross_monthly_rent rent) (dec 12 0)) ;;
       quantize_default ratio PRECISION
     else Ok (dec 0 0)) ;;
  let annual_debt_service := dmul (total_monthly_debt_service refi) (dec 12 0) in
  dcr <- calculate_dcr (annual_noi rent) annual_debt_service ;;
  let meets_min_dcr := dge dcr BSIF_MIN_DCR_COMMERCIAL in
  let warnings :=
    if (5 <=? total_units input_data) && negb meets_min_dcr
    then warnings ++ [dcr_warning dcr]
    else warnings in
  let stress_test_rate := calculate_stress_test_rate (refinance_rate input_data) in
  monthly_payment_stress <-
    calculate_monthly_mortgage_payment (new_mortgage_amount refi) stress_test_rate
      (refinance_amort_years input_data) ;;
  let cashflow_at_stress := dsub (monthly_noi rent) monthly_payment_stress in
  let passes_stress_test := dge cashflow_at_stress D0 in
  let warnings :=
    if negb passes_stress_test
    then warnings ++ [stress_warning stress_test_rate]
    else warnings in
  let warnings :=
    if dlt monthly_cashflow D0
    then warnings ++ [cashflow_warning]
    else warnings in
  let warnings :=
    if dlt cash_on_cash (Decimal_of_int 5) && negb is_infinite_return
    then warnings ++ [cash_on_cash_warning]
    else warnings in
  total_cash_invested_q <- quantize_default total_cash_invested PRECISION ;;
  cash_extracted_q <- quantize_default cash_extracted PRECISION ;;
  equity_left_in_deal_q <- quantize_default equity_left_in_deal PRECISION ;;
  monthly_noi_q <- quantize_default (monthly_noi rent) PRECISION ;;
  monthly_debt_service_q <-
    quantize_default (total_monthly_debt_service refi) PRECISION ;;
  monthly_cashflow_q <- quantize_default monthly_cashflow PRECISION ;;
  annual_cashflow_q <- quantize_default annual_cashflow PRECISION ;;
  Ok (KPIsResult.mk total_cash_invested_q cash_extracted_q equity_left_in_deal_q
        monthly_noi_q monthly_debt_service_q monthly_cashflow_q annual_cashflow_q
        cash_on_cash return_on_equity cap_rate gross_rent_multiplier
        is_infinite_return dcr meets_min_dcr stress_test_rate
        monthly_payment_stress passes_stress_test,
      mkKPIsLocals total_cash_invested cash_extracted equity_left_in_deal
        monthly_cashflow annual_cashflow,
      warnings).

(** The advisories of a run, in the order the spec lists them after the
    insurance notes: DCR below the minimum (5 units and more), failed stress
    test, negative monthly cashflow, cash-on-cash below 5%. *)
Definition advisory_warnings (total_units : Z) (k : KPIsResult.t) (l : KPIsLocals)
  : list string :=
  (if (5 <=? total_units) && negb (KPIsResult.meets_min_dcr k)
   then [dcr_warning (KPIsResult.debt_coverage_ratio k)] else [])
  ++ (if negb (KPIsResult.passes_stress_test k)
      then [stress_warning (KPIsResult.stress_test_rate k)] else [])
  ++ (if dlt (monthly_cashflow l) D0 then [cashflow_warning] else [])
  ++ (if dlt (KPIsResult.cash_on_cash_return k) (Decimal_of_int 5)
         && negb (KPIsResult.is_infinite_return k)
      then [cash_on_cash_warning] else []).

(** [len(errors) == 0] *)
Definition no_errors (errors : list string) : bool :=
  Nat.eqb (List.length errors) 0.

(** [calculate_brrrr], returning its result together with the unrounded
    locals of the run. *)
Definition calculate_brrrr_trace (input_data : PropertyFinancialsInput.t)
  : result (BrrrrCalculationResult.t * BrrrrLocals) :=
  let warnings : list string := [] in
  let errors : list string := [] in
  '(acquisition, acq, warnings) <- acquisition_phase input_data warnings ;;
  '(renovation, reno) <- renovation_phase input_data acq ;;
  '(rental, rent) <- rental_phase input_data ;;
  '(refinance, refi) <- refinance_phase input_data acq reno ;;
  '(kpis, kpi, warnings) <- kpis_phase input_data acq reno rent refi warnings ;;
  let validation := ValidationResult.mk (no_errors errors) warnings errors in
  Ok (BrrrrCalculationResult.mk acquisition renovation rental refinance kpis validation,
      mkBrrrrLocals acq reno rent refi kpi).

Definition calculate_brrrr (input_data : PropertyFinancialsInput.t)
  : result BrrrrCalculationResult.t :=
  '(r, _) <- calculate_brrrr_trace input_data ;;
  Ok r.

(** [calculate_heloc_capacity], with its unrounded locals. *)
Definition calculate_heloc_capacity_trace (input_data : HelocCapacityInput.t)
  : result (HelocCapacityResult.t * HelocLocals) :=
  let property_value := HelocCapacityInput.current_property_value input_data in
  let mortgage_balance := HelocCapacityInput.current_mortgage_balance input_data in
  let heloc_balance := HelocCapacityInput.current_heloc_balance input_data in
  let total_current_debt := dadd mortgage_balance heloc_balance in
  current_ltv <-
    (if dgt property_value D0 then ddiv total_current_debt property_value
     else Ok (dec 0 0)) ;;
  let max_total_borrowing := dmul property_value BSIF_REFINANCE_LTV_MAX in
  let max_rotating_credit := dmul property_value BSIF_HELOC_ROTATING_LTV_MAX in
  let total_equity := dsub property_value total_current_debt in
  let available_at_rotating :=
    dmax (dec 0 0) (dsub max_rotating_credit total_current_debt) in
  let available_at_total :=
    dmax (dec 0 0) (dsub max_total_borrowing total_current_debt) in
  let can_access_rotating := dle total_current_debt max_rotating_credit in
  let recommended_heloc_limit :=
    if can_access_rotating then available_at_rotating else dec 0 0 in
  let after_heloc_debt := dadd total_current_debt available_at_total in
  after_heloc_ltv <-
    (if dgt property_value D0 then ddiv after_heloc_debt property_value
     else Ok (dec 0 0)) ;;
  max_total_borrowing_q <- quantize_default max_total_borrowing PRECISION ;;
  max_rotating_credit_q <- quantize_default max_rotating_credit PRECISION ;;
  total_equity_q <- quantize_default total_equity PRECISION ;;
  available_at_rotating_q <- quantize_default available_at_rotating PRECISION ;;
  available_at_total_q <- quantize_default available_at_total PRECISION ;;
  recommended_heloc_limit_q <- quantize_default recommended_heloc_limit PRECISION ;;
  current_ltv_q <- quantize_default current_ltv (dec 1 (-4)) ;;
  after_heloc_ltv_q <- quantize_default after_heloc_ltv (dec 1 (-4)) ;;
  Ok (HelocCapacityResult.mk BSIF_REFINANCE_LTV_MAX BSIF_HELOC_ROTATING_LTV_MAX
        max_total_borrowing_q max_rotating_credit_q total_equity_q
        available_at_rotating_q available_at_total_q recommended_heloc_limit_q
        can_access_rotating current_ltv_q after_heloc_ltv_q,
      mkHelocLocals max_total_borrowing max_rotating_credit total_equity
        available_at_rotating available_at_total recommended_heloc_limit).

Definition calculate_heloc_capacity (input_data : HelocCapacityInput.t)
  : result HelocCapacityResult.t :=
  '(r, _) <- calculate_heloc_capacity_trace input_data ;;
  Ok r.

(** [quick_brrrr_metrics], with its unrounded locals. *)
Definition quick_brrrr_metrics_trace
  (purchase_price renovation_budget monthly_rent arv mortgage_rate : Decimal)
  : result (QuickMetrics.t * QuickLocals) :=
  let down_payment := dmul purchase_price (dec 20 (-2)) in
  let closing_costs := dadd (dmul purchase_price (dec 2 (-2))) (dec 5000 0) in
  let total_investment := dadd (dadd down_payment closing_costs) renovation_budget in
  let annual_rent := dmul monthly_rent (dec 12 0) in
  let annual_noi := dmul annual_rent (dec 70 (-2)) in
  let new_mortgage := dmul arv (dec 80 (-2)) in
  monthly_mortgage <- calculate_monthly_mortgage_payment new_mortgage mortgage_rate 25 ;;
  let annual_debt_service := dmul monthly_mortgage (dec 12 0) in
  let annual_cashflow := dsub annual_noi annual_debt_service in
  monthly_cashflow <- ddiv annual_cashflow (dec 12 0) ;;
  let debt_before_refi := dadd (dmul purchase_price (dec 80 (-2))) renovation_budget in
  let cash_out := dsub new_mortgage debt_before_refi in
  let equity_left := dmax (dec 0 0) (dsub total_investment cash_out) in
  '(cash_on_cash, is_infinite) <-
    (if dgt equity_left D0 then
       ratio <- ddiv annual_cashflow equity_left ;;
       q <- quantize_default (dmul ratio (dec 100 0)) PRECISION ;;
       Ok (q, false)
     else Ok (dec 999999 0, true)) ;;
  cap_rate <-
    (if dgt arv D0 then
       ratio <- ddiv annual_noi arv ;;
       quantize_default (dmul ratio (dec 100 0)) PRECISION
     else Ok (dec 0 0)) ;;
  monthly_cashflow_q <- quantize_default monthly_cashflow PRECISION ;;
  total_investment_q <- quantize_default total_investment PRECISION ;;
  Ok (QuickMetrics.mk cash_on_cash monthly_cashflow_q cap_rate is_infinite
        total_investment_q,
      mkQuickLocals monthly_cashflow total_investment).

Definition quick_brrrr_metrics
  (purchase_price renovation_budget monthly_rent arv mortgage_rate : Decimal)
  : result QuickMetrics.t :=
  '(r, _) <-
    quick_brrrr_metrics_trace purchase_price renovation_budget monthly_rent arv
      mortgage_rate ;;
  Ok r.

End Engine.










(** ** A reference implementation of the float interface

    Decimal floating point of 28 digits stands in for binary64, so that the
    model runs on examples.  [x ** y] is implemented for the two shapes the
    code uses: a whole exponent and the sixth root.  No statement below
    depends on this instance except the examples that name it. *)

Fixpoint cube_root_search (fuel : nat) (n lo hi : Z) : Z :=
  match fuel with
  | O => lo
  | S f =>
      if hi - lo <=? 1 then lo
      else
        let mid := (lo + hi) / 2 in
        if mid * mid * mid <=? n
        then cube_root_search f n mid hi
        else cube_root_search f n lo mid
  end.

Definition sixth_root_floor (n : Z) : Z :=
  let s := Z.sqrt n in
  cube_root_search (S (Z.to_nat (Z.log2 s))) s 0 (s + 1).

Fixpoint dpow_pos (x : Decimal) (p : positive) : Decimal :=
  match p with
  | xH => x
  | xO q => let y := dpow_pos x q in dmul y y
  | xI q => let y := dpow_pos x q in dmul x (dmul y y)
  end.

Definition dpow_int (x : Decimal) (n : Z) : Decimal :=
  match n with
  | Zpos p => dpow_pos x p
  | _ => dec 1 0
  end.

Definition ref_sixth : Decimal := dec 1666666666666666666666666667 (-28).

Definition ref_fdiv (x y : Decimal) : option Decimal :=
  match ddiv x y with
  | Ok q => Some q
  | Raise _ => None
  end.

Definition ref_fpow (x y : Decimal) : option Decimal :=
  if (0 <=? expo y) && (0 <=? coef y)
  then Some (dpow_int x (int_of_Decimal y))
  else if deq y ref_sixth && (0 <? coef x)
  then Some (fix_context (mkDecimal (sixth_root_floor (scaled x (-108))) (-18)))
  else None.

Definition ref_format (n : nat) (x : Decimal) : string :=
  str_Decimal (rescale ROUND_HALF_EVEN x (- Z.of_nat n)).

#[local] Instance RefFloat : PyFloat := {
  float := Decimal;
  float_of_Decimal := fix_context;
  float_of_int := Decimal_of_int;
  fadd := dadd;
  fsub := dsub;
  fmul := dmul;
  fdiv := ref_fdiv;
  fpow := ref_fpow;
  Decimal_of_float := fun x => Some x;
  int_of_float := fun x => Some (int_of_Decimal x);
  format_float := ref_format
}.

(** ** Sample inputs *)

(** A duplex in Montréal bought at [price] with 20% down, the schema's
    defaults elsewhere, renovated for 30 000 and appraised at [arv]. *)
Definition sample_input (price arv : Decimal) : PropertyFinancialsInput.t :=
  PropertyFinancialsInput.mk
    price (dec 20 (-2)) MONTREAL (dec 2000 0) (dec 800 0) (dec 0 0)
    (dec 525 (-4)) 25
    (dec 30000 0) (dec 10 0) 3 HELOC (Some (dec 695 (-4)))
    (dec 3000 0) (dec 5 0) (dec 3600 0) (dec 500 0) (dec 2400 0)
    (dec 5 0) (dec 0 0) (dec 0 0)
    arv (dec 525 (-4)) 25
    2 false.


(** The same purchase with a price of [10 ^ 27], written [Decimal("1E+27")]:
    the schema bounds the price from below only. *)
Definition huge_price_input : PropertyFinancialsInput.t :=
  sample_input (dec 1 27) (dec 400000 0).

(** The sample purchase at a mortgage rate of [Decimal("1E-20")], which the
    schema admits: in floating point the monthly rate is 0.0. *)
Definition tiny_rate_input : PropertyFinancialsInput.t :=
  PropertyFinancialsInput.mk
    (dec 300000 0) (dec 20 (-2)) MONTREAL (dec 2000 0) (dec 800 0) (dec 0 0)
    (dec 1 (-20)) 25
    (dec 30000 0) (dec 10 0) 3 HELOC (Some (dec 695 (-4)))
    (dec 3000 0) (dec 5 0) (dec 3600 0) (dec 500 0) (dec 2400 0)
    (dec 5 0) (dec 0 0) (dec 0 0)
    (dec 400000 0) (dec 525 (-4)) 25
    2 false.

(** ** Vocabulary of the further properties *)

(** A computation that can only stop on decimal.InvalidOperation. *)
Definition invalid_operation_only {A : Type} (m : result A) : Prop :=
  forall e, m = Raise e -> e = InvalidOperation.

(** The request [i] with another appraisal, and with another HELOC rate for
    the renovation: every other field is kept. *)
Definition with_after_repair_value (i : PropertyFinancialsInput.t) (arv : Decimal)
  : PropertyFinancialsInput.t :=
  let 'PropertyFinancialsInput.mk pp dp mu nf inf occ mr ay rb rc rd ft hr
        rent vac mt st ins mnt mgt ut _ rr ry tu oo := i in
  PropertyFinancialsInput.mk pp dp mu nf inf occ mr ay rb rc rd ft hr
    rent vac mt st ins mnt mgt ut arv rr ry tu oo.

Definition with_heloc_rate_for_reno (i : PropertyFinancialsInput.t)
  (rate : option Decimal) : PropertyFinancialsInput.t :=
  let 'PropertyFinancialsInput.mk pp dp mu nf inf occ mr ay rb rc rd ft _
        rent vac mt st ins mnt mgt ut arv rr ry tu oo := i in
  PropertyFinancialsInput.mk pp dp mu nf inf occ mr ay rb rc rd ft rate
    rent vac mt st ins mnt mgt ut arv rr ry tu oo.

(** The sample purchase paid in cash, with no renovation period. *)
Definition cash_input : PropertyFinancialsInput.t :=
  PropertyFinancialsInput.mk
    (dec 300000 0) (dec 20 (-2)) MONTREAL (dec 2000 0) (dec 800 0) (dec 0 0)
    (dec 525 (-4)) 25
    (dec 30000 0) (dec 10 0) 0 CASH (Some (dec 695 (-4)))
    (dec 3000 0) (dec 5 0) (dec 3600 0) (dec 500 0) (dec 2400 0)
    (dec 5 0) (dec 0 0) (dec 0 0)
    (dec 400000 0) (dec 525 (-4)) 25
    2 false.

(** A line item of the breakdown that is not negative. *)
Definition item_nonneg (it : TransferTaxBreakdownItem.t) : Prop :=
  0 <= coef (TransferTaxBreakdownItem.taxable_amount it) /\
  0 <= coef (TransferTaxBreakdownItem.tax it).

(** A bracket, and a surcharge, on which a price of [n] dollars is taxed
    without rounding: whole-dollar bounds, a rate of three decimals at most,
    and a tax that is a whole number of cents. *)
Definition exact_bracket (n : Z) (b : TaxBracket) : Prop :=
  expo (bracket_min b) = 0 /\ expo (bracket_max b) = 0 /\
  0 <= coef (bracket_min b) <= 10 ^ 9 /\ 0 <= coef (bracket_max b) <= 10 ^ 9 /\
  -3 <= expo (bracket_rate b) /\ 0 <= scaled (bracket_rate b) (-3) <= 1000 /\
  ((Z.min n (coef (bracket_max b)) - coef (bracket_min b))
   * scaled (bracket_rate b) (-3)) mod 10 = 0.

Definition exact_additional (n : Z) (a : AdditionalRate) : Prop :=
  expo (threshold a) = 0 /\ 0 <= coef (threshold a) <= 10 ^ 9 /\
  -3 <= expo (additional_rate a) /\ 0 <= scaled (additional_rate a) (-3) <= 1000 /\
  ((n - coef (threshold a)) * scaled (additional_rate a) (-3)) mod 10 = 0.

(** The sum of a list of integers. *)
Definition zsum (l : list Z) : Z := fold_right Z.add 0 l.

(** * Properties

    First the arithmetic of [Decimal]: digits, rounding, the order; then the
    services. *)

(** ** Digits *)

Lemma pow10_pos (k : Z) : 0 <= k -> 0 < 10 ^ k.
Proof. intros. apply Z.pow_pos_nonneg; lia. Qed.

Lemma pow10_add (a b : Z) : 0 <= a -> 0 <= b -> 10 ^ (a + b) = 10 ^ a * 10 ^ b.
Proof. intros. apply Z.pow_add_r; lia. Qed.

Lemma pow10_le (a b : Z) : 0 <= a <= b -> 10 ^ a <= 10 ^ b.
Proof. intros. apply Z.pow_le_mono_r; lia. Qed.

Lemma pow10_lt (a b : Z) : 0 <= a < b -> 10 ^ a < 10 ^ b.
Proof. intros. apply Z.pow_lt_mono_r; lia. Qed.

Lemma ndigits_fuel_spec (fuel : nat) :
  forall n, 0 < n < 10 ^ (Z.of_nat fuel + 1) ->
    1 <= ndigits_fuel fuel n /\
    10 ^ (ndigits_fuel fuel n - 1) <= n < 10 ^ ndigits_fuel fuel n.
Proof.
  induction fuel as [|f IH]; intros n Hn.
  - simpl in *. lia.
  - cbn [ndigits_fuel]. destruct (Z.ltb_spec n 10) as [Hlt|Hge].
    + simpl. lia.
    + assert (Hq : 0 < n / 10 < 10 ^ (Z.of_nat f + 1)).
      { split.
        - apply Z.div_str_pos; lia.
        - apply Z.div_lt_upper_bound; [lia|].
          replace (Z.of_nat (S f) + 1) with (1 + (Z.of_nat f + 1)) in Hn by lia.
          rewrite pow10_add in Hn by lia. simpl (10 ^ 1) in Hn. lia. }
      destruct (IH _ Hq) as [H1 [H2 H3]].
      set (d := ndigits_fuel f (n / 10)) in *.
      split; [lia|].
      replace (1 + d - 1) with (1 + (d - 1)) by lia.
      rewrite !pow10_add by lia. change (10 ^ 1) with 10.
      pose proof (Z.div_mod n 10 ltac:(lia)) as Hdm.
      pose proof (Z.mod_pos_bound n 10 ltac:(lia)) as Hmb.
      lia.
Qed.

Lemma log2_fuel_enough (n : Z) : 0 < n -> n < 10 ^ (Z.of_nat (Z.to_nat (Z.log2 n)) + 1).
Proof.
  intros Hn. pose proof (Z.log2_nonneg n) as Hl.
  rewrite Z2Nat.id by lia.
  destruct (Z.log2_spec n Hn) as [_ Hu].
  eapply Z.lt_le_trans; [exact Hu|].
  rewrite <- Z.add_1_r.
  apply Z.pow_le_mono_l. lia.
Qed.

Lemma ndigits_pos (c : Z) : 1 <= ndigits c.
Proof.
  unfold ndigits. destruct (Z.eq_dec c 0) as [->|Hc].
  - reflexivity.
  - apply ndigits_fuel_spec. split; [lia|]. apply log2_fuel_enough. lia.
Qed.

Lemma ndigits_spec (c : Z) : c <> 0 ->
  10 ^ (ndigits c - 1) <= Z.abs c < 10 ^ ndigits c.
Proof.
  intros Hc. unfold ndigits.
  apply ndigits_fuel_spec. split; [lia|]. apply log2_fuel_enough. lia.
Qed.

Lemma ndigits_upper (c : Z) : Z.abs c < 10 ^ ndigits c.
Proof.
  destruct (Z.eq_dec c 0) as [->|Hc]; [reflexivity|]. apply ndigits_spec; assumption.
Qed.

Lemma ndigits_unique (c d : Z) :
  10 ^ (d - 1) <= Z.abs c < 10 ^ d -> 1 <= d -> c <> 0 -> ndigits c = d.
Proof.
  intros [Hl Hu] Hd Hc.
  pose proof (ndigits_spec c Hc) as [Hl' Hu'].
  pose proof (ndigits_pos c) as Hp.
  destruct (Z.lt_trichotomy (ndigits c) d) as [Hlt|[Heq|Hgt]]; [|assumption|].
  - pose proof (pow10_le (ndigits c) (d - 1) ltac:(lia)). lia.
  - pose proof (pow10_le d (ndigits c - 1) ltac:(lia)). lia.
Qed.

Lemma ndigits_abs (c : Z) : ndigits (Z.abs c) = ndigits c.
Proof. unfold ndigits. rewrite Z.abs_idemp. reflexivity. Qed.

Lemma ndigits_opp (c : Z) : ndigits (- c) = ndigits c.
Proof. unfold ndigits. rewrite Z.abs_opp. reflexivity. Qed.

Lemma ndigits_shift (c j : Z) : c <> 0 -> 0 <= j -> ndigits (c * 10 ^ j) = ndigits c + j.
Proof.
  intros Hc Hj. pose proof (ndigits_spec c Hc) as [Hl Hu].
  pose proof (ndigits_pos c) as Hp. pose proof (pow10_pos j Hj) as Hpj.
  apply ndigits_unique; [|lia|nia].
  rewrite Z.abs_mul, (Z.abs_eq (10 ^ j)) by lia.
  replace (ndigits c + j - 1) with ((ndigits c - 1) + j) by lia.
  rewrite !pow10_add by lia. nia.
Qed.

Lemma ndigits_le_iff (c k : Z) : 1 <= k -> (ndigits c <= k <-> Z.abs c < 10 ^ k).
Proof.
  intros Hk. pose proof (ndigits_pos c) as Hp. split; intros H.
  - eapply Z.lt_le_trans; [apply ndigits_upper|]. apply pow10_le. lia.
  - destruct (Z.eq_dec c 0) as [->|Hc]; [change (ndigits 0) with 1; lia|].
    pose proof (ndigits_spec c Hc) as [Hl Hu].
    destruct (Z.le_gt_cases (ndigits c) k) as [|Hgt]; [assumption|].
    pose proof (pow10_le k (ndigits c - 1) ltac:(lia)). lia.
Qed.

Lemma ndigits_mono (a b : Z) : Z.abs a <= Z.abs b -> ndigits a <= ndigits b.
Proof.
  intros H. pose proof (ndigits_pos b). apply ndigits_le_iff; [assumption|].
  pose proof (ndigits_upper b). lia.
Qed.

(** ** Rounding a quotient *)

Lemma round_up_mono (mode : rounding) (q r1 r2 d : Z) :
  r1 <= r2 -> round_up mode q r1 d = true -> round_up mode q r2 d = true.
Proof.
  intros Hr. destruct mode; cbn [round_up]; rewrite ?orb_true_iff, ?andb_true_iff;
    rewrite ?Z.ltb_lt, ?Z.leb_le, ?Z.eqb_eq.
  - intros [H|[H Ho]]; [left; lia|].
    destruct (Z.eq_dec r1 r2) as [<-|Hne]; [right; auto | left; lia].
  - lia.
Qed.

Lemma round_up_half (mode : rounding) (q r d : Z) :
  round_up mode q r d = true -> d <= 2 * r.
Proof.
  destruct mode; cbn [round_up]; rewrite ?orb_true_iff, ?andb_true_iff;
    rewrite ?Z.ltb_lt, ?Z.leb_le, ?Z.eqb_eq; lia.
Qed.

Lemma round_up_not_half (mode : rounding) (q r d : Z) :
  round_up mode q r d = false -> 2 * r <= d.
Proof.
  destruct mode; cbn [round_up]; rewrite ?orb_false_iff, ?andb_false_iff;
    rewrite ?Z.ltb_ge, ?Z.leb_gt, ?Z.eqb_neq; lia.
Qed.

Lemma round_magnitude_near (mode : rounding) (n d : Z) :
  0 < d -> 2 * Z.abs (round_magnitude mode n d * d - n) <= d.
Proof.
  intros Hd. unfold round_magnitude.
  pose proof (Z.div_mod n d ltac:(lia)) as Hdm.
  pose proof (Z.mod_pos_bound n d Hd) as Hmb.
  destruct (round_up mode (n / d) (n mod d) d) eqn:E.
  - apply round_up_half in E. nia.
  - apply round_up_not_half in E. nia.
Qed.

Lemma round_magnitude_bounds (mode : rounding) (n d : Z) :
  0 < d -> n / d <= round_magnitude mode n d <= n / d + 1.
Proof.
  intros Hd. unfold round_magnitude.
  destruct (round_up mode (n / d) (n mod d) d); lia.
Qed.

Lemma round_magnitude_nonneg (mode : rounding) (n d : Z) :
  0 <= n -> 0 < d -> 0 <= round_magnitude mode n d.
Proof.
  intros Hn Hd. pose proof (round_magnitude_bounds mode n d Hd).
  pose proof (Z.div_pos n d Hn Hd). lia.
Qed.

Lemma round_magnitude_mono (mode : rounding) (n1 n2 d : Z) :
  0 < d -> n1 <= n2 -> round_magnitude mode n1 d <= round_magnitude mode n2 d.
Proof.
  intros Hd Hn.
  pose proof (Z.div_le_mono n1 n2 d Hd Hn) as Hq.
  destruct (Z.eq_dec (n1 / d) (n2 / d)) as [Heq|Hne].
  - unfold round_magnitude. rewrite <- Heq.
    destruct (round_up mode (n1 / d) (n1 mod d) d) eqn:E1.
    + rewrite (round_up_mono mode (n1 / d) (n1 mod d) (n2 mod d) d); [lia| |exact E1].
      pose proof (Z.div_mod n1 d ltac:(lia)). pose proof (Z.div_mod n2 d ltac:(lia)).
      nia.
    + destruct (round_up mode (n1 / d) (n2 mod d) d); lia.
  - pose proof (round_magnitude_bounds mode n1 d Hd).
    pose proof (round_magnitude_bounds mode n2 d Hd). lia.
Qed.

Lemma round_magnitude_exact (mode : rounding) (c d : Z) :
  0 < d -> round_magnitude mode (c * d) d = c.
Proof.
  intros Hd. unfold round_magnitude.
  rewrite Z.div_mul, Z.mod_mul by lia.
  destruct mode; cbn [round_up].
  - replace (d <? 2 * 0) with false by (symmetry; apply Z.ltb_ge; lia).
    replace (d =? 2 * 0) with false by (symmetry; apply Z.eqb_neq; lia).
    reflexivity.
  - replace (d <=? 2 * 0) with false by (symmetry; apply Z.leb_gt; lia).
    reflexivity.
Qed.

Lemma round_magnitude_scale (mode : rounding) (n d j : Z) :
  0 < d -> 0 < j -> round_magnitude mode (n * j) (d * j) = round_magnitude mode n d.
Proof.
  intros Hd Hj. unfold round_magnitude.
  rewrite Z.div_mul_cancel_r by lia.
  rewrite Z.mul_mod_distr_r by lia.
  assert (Hup : round_up mode (n / d) (n mod d * j) (d * j)
                = round_up mode (n / d) (n mod d) d).
  { destruct mode; cbn [round_up].
    - f_equal; [|f_equal].
      + apply eq_true_iff_eq. rewrite !Z.ltb_lt. nia.
      + apply eq_true_iff_eq. rewrite !Z.eqb_eq. nia.
    - apply eq_true_iff_eq. rewrite !Z.leb_le. nia. }
  rewrite Hup. reflexivity.
Qed.

Lemma round_div_opp (mode : rounding) (c d : Z) :
  round_div mode (- c) d = - round_div mode c d.
Proof. unfold round_div. rewrite Z.sgn_opp, Z.abs_opp. lia. Qed.

Lemma round_div_nonneg (mode : rounding) (c d : Z) :
  0 < d -> 0 <= c -> round_div mode c d = round_magnitude mode c d.
Proof.
  intros Hd Hc. unfold round_div. rewrite Z.abs_eq by lia.
  destruct (Z.eq_dec c 0) as [->|Hne].
  - pose proof (round_magnitude_exact mode 0 d Hd) as E. simpl in E. rewrite E. reflexivity.
  - rewrite Z.sgn_pos by lia. lia.
Qed.

Lemma round_div_sign_nonneg (mode : rounding) (c d : Z) :
  0 < d -> 0 <= c -> 0 <= round_div mode c d.
Proof.
  intros Hd Hc. rewrite round_div_nonneg by assumption.
  apply round_magnitude_nonneg; assumption.
Qed.

Lemma round_div_sign_nonpos (mode : rounding) (c d : Z) :
  0 < d -> c <= 0 -> round_div mode c d <= 0.
Proof.
  intros Hd Hc. replace c with (- - c) by lia. rewrite round_div_opp.
  pose proof (round_div_sign_nonneg mode (- c) d Hd ltac:(lia)). lia.
Qed.

Lemma round_div_mono (mode : rounding) (c1 c2 d : Z) :
  0 < d -> c1 <= c2 -> round_div mode c1 d <= round_div mode c2 d.
Proof.
  intros Hd Hc.
  destruct (Z.le_gt_cases 0 c1) as [H1|H1].
  - rewrite !round_div_nonneg by lia. apply round_magnitude_mono; assumption.
  - destruct (Z.le_gt_cases 0 c2) as [H2|H2].
    + pose proof (round_div_sign_nonpos mode c1 d Hd ltac:(lia)).
      pose proof (round_div_sign_nonneg mode c2 d Hd H2). lia.
    + replace c1 with (- - c1) by lia. replace c2 with (- - c2) by lia.
      rewrite !(round_div_opp mode (- _)).
      rewrite !round_div_nonneg by lia.
      pose proof (round_magnitude_mono mode (- c2) (- c1) d Hd ltac:(lia)). lia.
Qed.

Lemma round_div_exact (mode : rounding) (c d : Z) :
  0 < d -> round_div mode (c * d) d = c.
Proof.
  intros Hd. destruct (Z.le_gt_cases 0 c) as [Hc|Hc].
  - rewrite round_div_nonneg by nia. apply round_magnitude_exact; assumption.
  - replace (c * d) with (- (- c * d)) by lia. rewrite round_div_opp.
    rewrite round_div_nonneg by nia. rewrite round_magnitude_exact by assumption. lia.
Qed.

Lemma round_div_neg (mode : rounding) (c d : Z) :
  0 < d -> c <= 0 -> round_div mode c d = - round_magnitude mode (- c) d.
Proof.
  intros Hd Hc. rewrite <- (round_div_nonneg mode (- c) d) by lia.
  rewrite round_div_opp. lia.
Qed.

Lemma round_div_scale (mode : rounding) (c d j : Z) :
  0 < d -> 0 < j -> round_div mode (c * j) (d * j) = round_div mode c d.
Proof.
  intros Hd Hj. destruct (Z.le_gt_cases 0 c) as [Hc|Hc].
  - rewrite !round_div_nonneg by nia. apply round_magnitude_scale; assumption.
  - rewrite !round_div_neg by nia.
    replace (- (c * j)) with (- c * j) by lia.
    rewrite round_magnitude_scale by assumption. reflexivity.
Qed.

Lemma round_div_near (mode : rounding) (c d : Z) :
  0 < d -> 2 * Z.abs (round_div mode c d * d - c) <= d.
Proof.
  intros Hd. destruct (Z.le_gt_cases 0 c) as [Hc|Hc].
  - rewrite round_div_nonneg by assumption. apply round_magnitude_near; assumption.
  - rewrite round_div_neg by lia.
    pose proof (round_magnitude_near mode (- c) d Hd). lia.
Qed.

Lemma round_div_zero_iff_small (mode : rounding) (c d : Z) :
  0 < d -> d <= Z.abs c -> round_div mode c d <> 0.
Proof.
  intros Hd Hc E. pose proof (round_div_near mode c d Hd) as H.
  rewrite E in H. lia.
Qed.

(** ** Rounding to the context precision, on scaled coefficients *)

Lemma round_sig_small (n : Z) : ndigits n <= prec -> round_sig n = n.
Proof.
  intros H. unfold round_sig.
  destruct (Z.leb_spec (ndigits n) prec); [reflexivity | lia].
Qed.

Lemma round_sig_big (n : Z) : prec < ndigits n ->
  round_sig n = round_div context_rounding n (10 ^ (ndigits n - prec))
                * 10 ^ (ndigits n - prec).
Proof.
  intros H. unfold round_sig.
  destruct (Z.leb_spec (ndigits n) prec); [lia | reflexivity].
Qed.

Lemma round_sig_0 : round_sig 0 = 0.
Proof. reflexivity. Qed.

Lemma round_sig_opp (n : Z) : round_sig (- n) = - round_sig n.
Proof.
  unfold round_sig. rewrite ndigits_opp.
  destruct (Z.leb_spec (ndigits n) prec); [reflexivity|].
  rewrite round_div_opp. lia.
Qed.

Lemma round_sig_shift (n j : Z) : 0 <= j -> round_sig (n * 10 ^ j) = round_sig n * 10 ^ j.
Proof.
  intros Hj. destruct (Z.eq_dec n 0) as [->|Hn]; [reflexivity|].
  pose proof (pow10_pos j Hj) as Hpj.
  pose proof (ndigits_pos n) as Hdp.
  assert (Hd : ndigits (n * 10 ^ j) = ndigits n + j) by (apply ndigits_shift; assumption).
  destruct (Z.le_gt_cases (ndigits n) prec) as [Hs|Hb].
  - rewrite (round_sig_small n Hs).
    destruct (Z.le_gt_cases (ndigits n + j) prec) as [Hs'|Hb'].
    + apply round_sig_small. lia.
    + rewrite round_sig_big by lia. rewrite Hd.
      set (k := ndigits n + j - prec).
      assert (Hk : 0 < k <= j) by (unfold k; lia).
      pose proof (pow10_pos k ltac:(lia)) as Hpk.
      replace (n * 10 ^ j) with (n * 10 ^ (j - k) * 10 ^ k) at 1.
      * rewrite round_div_exact by assumption.
        rewrite <- Z.mul_assoc, <- pow10_add by lia. f_equal. f_equal. lia.
      * rewrite <- Z.mul_assoc, <- pow10_add by lia. f_equal. f_equal. lia.
  - rewrite !round_sig_big by lia. rewrite Hd.
    set (k := ndigits n - prec).
    replace (ndigits n + j - prec) with (k + j) by (unfold k; lia).
    assert (Hk : 0 < k) by (unfold k; lia).
    rewrite pow10_add by lia.
    rewrite round_div_scale by (apply pow10_pos; lia). lia.
Qed.

(** A power of ten above (below) a number stays above (below) its rounding. *)
Lemma round_sig_le_pow (n t : Z) : 0 <= t -> 0 <= n <= 10 ^ t -> round_sig n <= 10 ^ t.
Proof.
  intros Ht [Hn0 Hn]. destruct (Z.le_gt_cases (ndigits n) prec) as [Hs|Hb].
  - rewrite round_sig_small by assumption. assumption.
  - rewrite round_sig_big by assumption.
    assert (Hne : n <> 0) by (intros ->; change (ndigits 0) with 1 in Hb; unfold prec in Hb; lia).
    pose proof (ndigits_spec n Hne) as [Hl Hu]. rewrite Z.abs_eq in Hl, Hu by lia.
    set (k := ndigits n - prec) in *.
    assert (Hk : 0 < k) by (unfold k; lia).
    assert (Hkt : k <= t).
    { destruct (Z.le_gt_cases k t) as [|Hgt]; [assumption|].
      pose proof (pow10_lt t (ndigits n - 1) ltac:(unfold k, prec in *; lia)). lia. }
    pose proof (pow10_pos k ltac:(lia)) as Hpk.
    pose proof (round_div_mono context_rounding n (10 ^ (t - k) * 10 ^ k) (10 ^ k) Hpk) as Hm.
    rewrite round_div_exact in Hm by assumption.
    rewrite <- pow10_add in Hm by lia. replace (t - k + k) with t in Hm by lia.
    specialize (Hm Hn).
    replace (10 ^ t) with (10 ^ (t - k) * 10 ^ k)
      by (rewrite <- pow10_add by lia; f_equal; lia).
    nia.
Qed.

Lemma round_sig_ge_pow (n t : Z) : 0 <= t -> 10 ^ t <= n -> 10 ^ t <= round_sig n.
Proof.
  intros Ht Hn. pose proof (pow10_pos t Ht) as Hpt.
  destruct (Z.le_gt_cases (ndigits n) prec) as [Hs|Hb].
  - rewrite round_sig_small by assumption. assumption.
  - rewrite round_sig_big by assumption.
    assert (Hne : n <> 0) by lia.
    pose proof (ndigits_spec n Hne) as [Hl Hu]. rewrite Z.abs_eq in Hl, Hu by lia.
    set (k := ndigits n - prec) in *.
    assert (Hk : 0 < k) by (unfold k; lia).
    pose proof (pow10_pos k ltac:(lia)) as Hpk.
    destruct (Z.le_gt_cases k t) as [Hkt|Hkt].
    + pose proof (round_div_mono context_rounding (10 ^ (t - k) * 10 ^ k) n (10 ^ k) Hpk) as Hm.
      rewrite round_div_exact in Hm by assumption.
      rewrite <- pow10_add in Hm by lia. replace (t - k + k) with t in Hm by lia.
      specialize (Hm Hn).
      replace (10 ^ t) with (10 ^ (t - k) * 10 ^ k)
        by (rewrite <- pow10_add by lia; f_equal; lia).
      nia.
    + assert (Hkn : 10 ^ k <= n).
      { pose proof (pow10_le k (ndigits n - 1) ltac:(unfold k, prec in *; lia)). lia. }
      pose proof (round_div_mono context_rounding (1 * 10 ^ k) n (10 ^ k) Hpk ltac:(lia)) as Hm.
      rewrite round_div_exact in Hm by assumption.
      pose proof (pow10_lt t k ltac:(lia)). nia.
Qed.

Lemma round_sig_nonneg (n : Z) : 0 <= n -> 0 <= round_sig n.
Proof.
  intros Hn. destruct (Z.eq_dec n 0) as [->|Hne]; [reflexivity|].
  pose proof (round_sig_ge_pow n 0 ltac:(lia) ltac:(simpl; lia)). simpl in H. lia.
Qed.

Lemma round_sig_pos (n : Z) : 0 < n -> 0 < round_sig n.
Proof.
  intros Hn.
  pose proof (round_sig_ge_pow n 0 ltac:(lia) ltac:(simpl; lia)). simpl in H. lia.
Qed.

Lemma round_sig_mono_nonneg (a b : Z) : 0 <= a <= b -> round_sig a <= round_sig b.
Proof.
  intros [Ha Hab].
  pose proof (ndigits_mono a b ltac:(lia)) as Hd.
  pose proof (ndigits_pos a) as Hpa.
  destruct (Z.eq_dec (ndigits a) (ndigits b)) as [Heq|Hne].
  - unfold round_sig. rewrite Heq.
    destruct (Z.leb_spec (ndigits b) prec); [assumption|].
    pose proof (pow10_pos (ndigits b - prec) ltac:(lia)) as Hp.
    pose proof (round_div_mono context_rounding a b _ Hp Hab). nia.
  - pose proof (ndigits_upper a) as Hua. rewrite Z.abs_eq in Hua by lia.
    assert (Hb0 : b <> 0).
    { intros ->. assert (a = 0) by lia. subst. lia. }
    pose proof (ndigits_spec b Hb0) as [Hlb _]. rewrite Z.abs_eq in Hlb by lia.
    pose proof (round_sig_le_pow a (ndigits a) ltac:(lia) ltac:(lia)).
    pose proof (round_sig_ge_pow b (ndigits b - 1) ltac:(lia) Hlb).
    pose proof (pow10_le (ndigits a) (ndigits b - 1) ltac:(lia)). lia.
Qed.

Lemma round_sig_mono (a b : Z) : a <= b -> round_sig a <= round_sig b.
Proof.
  intros Hab. destruct (Z.le_gt_cases 0 a) as [Ha|Ha].
  - apply round_sig_mono_nonneg. lia.
  - destruct (Z.le_gt_cases 0 b) as [Hb|Hb].
    + pose proof (round_sig_nonneg b Hb).
      pose proof (round_sig_pos (- a) ltac:(lia)) as H1.
      rewrite round_sig_opp in H1. lia.
    + pose proof (round_sig_mono_nonneg (- b) (- a) ltac:(lia)) as H1.
      rewrite !round_sig_opp in H1. lia.
Qed.

Lemma round_sig_neg (n : Z) : n < 0 -> round_sig n < 0.
Proof.
  intros Hn. pose proof (round_sig_pos (- n) ltac:(lia)) as H.
  rewrite round_sig_opp in H. lia.
Qed.

(** The rounded coefficient has at most [prec] digits, up to its factor. *)
Lemma round_div_prec_bound (n : Z) : prec < ndigits n ->
  Z.abs (round_div context_rounding n (10 ^ (ndigits n - prec))) <= 10 ^ prec.
Proof.
  intros Hb. set (k := ndigits n - prec).
  assert (Hk : 0 < k) by (unfold k; lia).
  pose proof (pow10_pos k ltac:(lia)) as Hpk.
  pose proof (ndigits_upper n) as Hu.
  assert (E : 10 ^ ndigits n = 10 ^ prec * 10 ^ k).
  { rewrite <- pow10_add by (unfold prec; lia). f_equal. unfold k. lia. }
  pose proof (round_div_mono context_rounding n (10 ^ prec * 10 ^ k) (10 ^ k) Hpk ltac:(lia)) as H1.
  pose proof (round_div_mono context_rounding (- (10 ^ prec) * 10 ^ k) n (10 ^ k) Hpk ltac:(lia)) as H2.
  rewrite round_div_exact in H1, H2 by assumption. lia.
Qed.

(** ** Values: coefficients at a common exponent *)

Lemma scaled_shift (a : Decimal) (m m' : Z) :
  m' <= m <= expo a -> scaled a m' = scaled a m * 10 ^ (m - m').
Proof.
  intros H. unfold scaled. rewrite <- Z.mul_assoc, <- pow10_add by lia.
  f_equal. f_equal. lia.
Qed.

Lemma scaled_self (a : Decimal) : scaled a (expo a) = coef a.
Proof. unfold scaled. rewrite Z.sub_diag. simpl. lia. Qed.

Lemma dcompare_scaled (a b : Decimal) (m : Z) :
  m <= expo a -> m <= expo b -> dcompare a b = (scaled a m ?= scaled b m).
Proof.
  intros Ha Hb. unfold dcompare. set (e := Z.min (expo a) (expo b)).
  rewrite (scaled_shift a e m), (scaled_shift b e m) by (unfold e; lia).
  apply Zmult_compare_compat_r.
  pose proof (pow10_pos (e - m) ltac:(unfold e; lia)). lia.
Qed.

Lemma dle_scaled (a b : Decimal) (m : Z) :
  m <= expo a -> m <= expo b -> (dle a b = true <-> scaled a m <= scaled b m).
Proof.
  intros Ha Hb. unfold dle. rewrite (dcompare_scaled a b m Ha Hb).
  destruct (Z.compare_spec (scaled a m) (scaled b m)); split; intros; try lia; discriminate.
Qed.

Lemma dlt_scaled (a b : Decimal) (m : Z) :
  m <= expo a -> m <= expo b -> (dlt a b = true <-> scaled a m < scaled b m).
Proof.
  intros Ha Hb. unfold dlt. rewrite (dcompare_scaled a b m Ha Hb).
  destruct (Z.compare_spec (scaled a m) (scaled b m)); split; intros; try lia; discriminate.
Qed.

Lemma deq_scaled (a b : Decimal) (m : Z) :
  m <= expo a -> m <= expo b -> (deq a b = true <-> scaled a m = scaled b m).
Proof.
  intros Ha Hb. unfold deq. rewrite (dcompare_scaled a b m Ha Hb).
  destruct (Z.compare_spec (scaled a m) (scaled b m)); split; intros; try lia; discriminate.
Qed.

Lemma dlt_dle_false (a b : Decimal) : dlt a b = negb (dle b a).
Proof.
  set (m := Z.min (expo a) (expo b)).
  pose proof (dlt_scaled a b m ltac:(unfold m; lia) ltac:(unfold m; lia)) as H1.
  pose proof (dle_scaled b a m ltac:(unfold m; lia) ltac:(unfold m; lia)) as H2.
  destruct (dlt a b), (dle b a); simpl; try reflexivity.
  - assert (scaled a m < scaled b m) by (apply H1; reflexivity).
    assert (scaled b m <= scaled a m) by (apply H2; reflexivity). lia.
  - assert (~ scaled a m < scaled b m) by (intros X; apply H1 in X; discriminate).
    assert (~ scaled b m <= scaled a m) by (intros X; apply H2 in X; discriminate). lia.
Qed.

Lemma dle_refl (a : Decimal) : dle a a = true.
Proof. apply (dle_scaled a a (expo a)); lia. Qed.

Lemma dle_trans (a b c : Decimal) : dle a b = true -> dle b c = true -> dle a c = true.
Proof.
  set (m := Z.min (expo a) (Z.min (expo b) (expo c))).
  intros H1 H2.
  apply (dle_scaled a b m) in H1; [|unfold m; lia..].
  apply (dle_scaled b c m) in H2; [|unfold m; lia..].
  apply (dle_scaled a c m); unfold m in *; lia.
Qed.

Lemma dle_total (a b : Decimal) : dle a b = true \/ dle b a = true.
Proof.
  set (m := Z.min (expo a) (expo b)).
  destruct (Z.le_ge_cases (scaled a m) (scaled b m)); [left|right];
    apply (dle_scaled _ _ m); unfold m in *; lia.
Qed.

(** ** [_fix], and the operations, on values *)

Lemma fix_context_expo (a : Decimal) : expo a <= expo (fix_context a).
Proof.
  unfold fix_context. pose proof (ndigits_pos (coef a)).
  destruct (Z.leb_spec (ndigits (coef a)) prec); [lia|].
  destruct (Z.eqb_spec (Z.abs (round_div context_rounding (coef a)
                                 (10 ^ (ndigits (coef a) - prec)))) (10 ^ prec));
    simpl; lia.
Qed.

Lemma fix_context_coef (a : Decimal) :
  coef (fix_context a) * 10 ^ (expo (fix_context a) - expo a) = round_sig (coef a).
Proof.
  unfold fix_context, round_sig.
  destruct (Z.leb_spec (ndigits (coef a)) prec) as [Hs|Hb].
  - rewrite Z.sub_diag. simpl. lia.
  - set (k := ndigits (coef a) - prec).
    set (c := round_div context_rounding (coef a) (10 ^ k)).
    destruct (Z.eqb_spec (Z.abs c) (10 ^ prec)) as [Hc|Hc]; simpl.
    + replace (expo a + k + 1 - expo a) with (1 + k) by lia.
      rewrite pow10_add by (unfold k; lia). change (10 ^ 1) with 10.
      assert (Hdiv : c = c / 10 * 10).
      { assert (Hm : c mod 10 = 0).
        { destruct (Z.abs_eq_or_opp c) as [E|E]; rewrite E in Hc.
          - rewrite Hc. reflexivity.
          - replace c with (- (10 ^ prec)) by lia. reflexivity. }
        pose proof (Z.div_mod c 10 ltac:(lia)). lia. }
      rewrite Z.mul_assoc, <- Hdiv. reflexivity.
    + replace (expo a + k - expo a) with k by lia. reflexivity.
Qed.

Lemma fix_context_scaled (a : Decimal) (m : Z) :
  m <= expo a -> scaled (fix_context a) m = round_sig (scaled a m).
Proof.
  intros Hm. pose proof (fix_context_expo a) as He.
  unfold scaled at 2. rewrite round_sig_shift by lia.
  rewrite <- fix_context_coef.
  unfold scaled. rewrite <- Z.mul_assoc, <- pow10_add by lia.
  f_equal. f_equal. lia.
Qed.

Lemma fix_context_normal (a : Decimal) : normal (fix_context a).
Proof.
  unfold normal, fix_context.
  destruct (Z.leb_spec (ndigits (coef a)) prec) as [Hs|Hb]; [assumption|].
  set (k := ndigits (coef a) - prec).
  pose proof (round_div_prec_bound (coef a) Hb) as Hbound. fold k in Hbound.
  set (c := round_div context_rounding (coef a) (10 ^ k)) in *.
  destruct (Z.eqb_spec (Z.abs c) (10 ^ prec)) as [Hc|Hc]; simpl.
  - apply ndigits_le_iff; [unfold prec; lia|].
    destruct (Z.abs_eq_or_opp c) as [E|E]; rewrite E in Hc.
    + rewrite Hc. reflexivity.
    + replace c with (- (10 ^ prec)) by lia. reflexivity.
  - apply ndigits_le_iff; [unfold prec; lia|]. lia.
Qed.

Lemma normal_round_sig (a : Decimal) (m : Z) :
  normal a -> m <= expo a -> round_sig (scaled a m) = scaled a m.
Proof.
  intros Hn Hm. unfold scaled. rewrite round_sig_shift by lia.
  rewrite round_sig_small by assumption. reflexivity.
Qed.

Lemma dneg_scaled (a : Decimal) (m : Z) : scaled (dneg a) m = - scaled a m.
Proof. unfold scaled, dneg. simpl. lia. Qed.

Lemma dadd_expo (a b : Decimal) : Z.min (expo a) (expo b) <= expo (dadd a b).
Proof. unfold dadd. eapply Z.le_trans; [|apply fix_context_expo]. simpl. lia. Qed.

Lemma dadd_scaled (a b : Decimal) (m : Z) :
  m <= expo a -> m <= expo b ->
  scaled (dadd a b) m = round_sig (scaled a m + scaled b m).
Proof.
  intros Ha Hb. unfold dadd. set (e := Z.min (expo a) (expo b)).
  rewrite fix_context_scaled by (simpl; unfold e; lia).
  f_equal. unfold scaled at 1. cbn [coef expo].
  rewrite (scaled_shift a e m), (scaled_shift b e m) by (unfold e; lia). lia.
Qed.

Lemma dsub_expo (a b : Decimal) : Z.min (expo a) (expo b) <= expo (dsub a b).
Proof. unfold dsub. pose proof (dadd_expo a (dneg b)). simpl in *. lia. Qed.

Lemma dsub_scaled (a b : Decimal) (m : Z) :
  m <= expo a -> m <= expo b ->
  scaled (dsub a b) m = round_sig (scaled a m - scaled b m).
Proof.
  intros Ha Hb. unfold dsub. rewrite dadd_scaled by (simpl; lia).
  rewrite dneg_scaled. reflexivity.
Qed.

Lemma dmul_expo (a b : Decimal) : expo a + expo b <= expo (dmul a b).
Proof. unfold dmul. eapply Z.le_trans; [|apply fix_context_expo]. simpl. lia. Qed.

Lemma dmul_scaled (a b : Decimal) (ma mb : Z) :
  ma <= expo a -> mb <= expo b ->
  scaled (dmul a b) (ma + mb) = round_sig (scaled a ma * scaled b mb).
Proof.
  intros Ha Hb. unfold dmul.
  rewrite fix_context_scaled by (simpl; lia).
  f_equal. unfold scaled. cbn [coef expo].
  replace (expo a + expo b - (ma + mb)) with ((expo a - ma) + (expo b - mb)) by lia.
  rewrite pow10_add by lia. lia.
Qed.

Lemma dadd_normal (a b : Decimal) : normal (dadd a b).
Proof. apply fix_context_normal. Qed.

Lemma dsub_normal (a b : Decimal) : normal (dsub a b).
Proof. apply fix_context_normal. Qed.

Lemma dmul_normal (a b : Decimal) : normal (dmul a b).
Proof. apply fix_context_normal. Qed.

(** ** The order and the operations *)

Lemma scaled_D0 (m : Z) : scaled D0 m = 0.
Proof. reflexivity. Qed.

Lemma scaled_nonneg (a : Decimal) (m : Z) : m <= expo a -> (0 <= scaled a m <-> 0 <= coef a).
Proof.
  intros Hm. unfold scaled. pose proof (pow10_pos (expo a - m) ltac:(lia)). nia.
Qed.

Lemma scaled_pos (a : Decimal) (m : Z) : m <= expo a -> (0 < scaled a m <-> 0 < coef a).
Proof.
  intros Hm. unfold scaled. pose proof (pow10_pos (expo a - m) ltac:(lia)). nia.
Qed.

Lemma dgt_D0 (a : Decimal) : dgt a D0 = true <-> 0 < coef a.
Proof.
  unfold dgt. set (m := Z.min (expo a) 0).
  rewrite (dlt_scaled D0 a m) by (unfold m; simpl; lia).
  rewrite scaled_D0. apply scaled_pos. unfold m. lia.
Qed.

Lemma dle_D0 (a : Decimal) : dle a D0 = true <-> coef a <= 0.
Proof.
  set (m := Z.min (expo a) 0).
  rewrite (dle_scaled a D0 m) by (unfold m; simpl; lia).
  rewrite scaled_D0. pose proof (scaled_pos a m ltac:(unfold m; lia)). lia.
Qed.

Lemma dge_D0 (a : Decimal) : dle D0 a = true <-> 0 <= coef a.
Proof.
  set (m := Z.min (expo a) 0).
  rewrite (dle_scaled D0 a m) by (unfold m; simpl; lia).
  rewrite scaled_D0. apply scaled_nonneg. unfold m. lia.
Qed.

Lemma dlt_D0 (a : Decimal) : dlt a D0 = true <-> coef a < 0.
Proof.
  set (m := Z.min (expo a) 0).
  rewrite (dlt_scaled a D0 m) by (unfold m; simpl; lia).
  rewrite scaled_D0. pose proof (scaled_nonneg a m ltac:(unfold m; lia)). lia.
Qed.

Lemma dadd_mono (a a' b b' : Decimal) :
  dle a a' = true -> dle b b' = true -> dle (dadd a b) (dadd a' b') = true.
Proof.
  intros Ha Hb.
  set (m := Z.min (Z.min (expo a) (expo a')) (Z.min (expo b) (expo b'))).
  apply (dle_scaled a a' m) in Ha; [|unfold m; lia..].
  apply (dle_scaled b b' m) in Hb; [|unfold m; lia..].
  pose proof (dadd_expo a b). pose proof (dadd_expo a' b').
  apply (dle_scaled _ _ m); [unfold m; lia..|].
  rewrite !dadd_scaled by (unfold m; lia).
  apply round_sig_mono. lia.
Qed.

Lemma dsub_mono_l (a a' b : Decimal) :
  dle a a' = true -> dle (dsub a b) (dsub a' b) = true.
Proof.
  intros Ha. unfold dsub. apply dadd_mono; [assumption | apply dle_refl].
Qed.

Lemma dmul_mono_l (a a' r : Decimal) :
  0 <= coef r -> dle a a' = true -> dle (dmul a r) (dmul a' r) = true.
Proof.
  intros Hr Ha.
  set (m := Z.min (expo a) (expo a')).
  apply (dle_scaled a a' m) in Ha; [|unfold m; lia..].
  pose proof (dmul_expo a r). pose proof (dmul_expo a' r).
  apply (dle_scaled _ _ (m + expo r)); [unfold m; lia..|].
  rewrite !dmul_scaled by (unfold m; lia).
  apply round_sig_mono. rewrite scaled_self. nia.
Qed.

Lemma dmul_coef_nonneg (a r : Decimal) : 0 <= coef a -> 0 <= coef r -> 0 <= coef (dmul a r).
Proof.
  intros Ha Hr. pose proof (dmul_expo a r) as He.
  apply (scaled_nonneg (dmul a r) (expo a + expo r) He).
  rewrite dmul_scaled by lia. apply round_sig_nonneg.
  rewrite !scaled_self. nia.
Qed.

Lemma dadd_increase (acc x : Decimal) :
  normal acc -> 0 <= coef x -> dle acc (dadd acc x) = true.
Proof.
  intros Hn Hx. set (m := Z.min (expo acc) (expo x)).
  pose proof (dadd_expo acc x).
  apply (dle_scaled _ _ m); [unfold m; lia..|].
  rewrite dadd_scaled by (unfold m; lia).
  rewrite <- (normal_round_sig acc m Hn) at 1 by (unfold m; lia).
  apply round_sig_mono.
  pose proof (proj2 (scaled_nonneg x m ltac:(unfold m; lia)) Hx). lia.
Qed.

Lemma dmin_mono_l (a a' b : Decimal) :
  dle a a' = true -> dle (dmin a b) (dmin a' b) = true.
Proof.
  intros Ha. unfold dmin. rewrite !dlt_dle_false.
  destruct (dle a b) eqn:E1, (dle a' b) eqn:E2; simpl.
  - assumption.
  - assumption.
  - exfalso. assert (dle a b = true) by (eapply dle_trans; eassumption). congruence.
  - apply dle_refl.
Qed.

Lemma dsub_coef_pos (a b : Decimal) : dlt b a = true -> 0 < coef (dsub a b).
Proof.
  intros H. set (m := Z.min (expo a) (expo b)).
  apply (dlt_scaled b a m) in H; [|unfold m; lia..].
  pose proof (dsub_expo a b) as He.
  apply (scaled_pos (dsub a b) m He).
  rewrite dsub_scaled by (unfold m; lia). apply round_sig_pos. lia.
Qed.

Lemma dsub_coef_neg (a b : Decimal) : dlt a b = true -> coef (dsub a b) < 0.
Proof.
  intros H. set (m := Z.min (expo a) (expo b)).
  apply (dlt_scaled a b m) in H; [|unfold m; lia..].
  pose proof (dsub_expo a b) as He.
  pose proof (scaled_nonneg (dsub a b) m He) as Hs.
  rewrite dsub_scaled in Hs by (unfold m; lia).
  pose proof (round_sig_neg (scaled a m - scaled b m) ltac:(lia)). lia.
Qed.

(** ** [quantize] *)

Lemma rescale_expo (mode : rounding) (a : Decimal) (e : Z) : expo (rescale mode a e) = e.
Proof. unfold rescale. destruct (e <=? expo a); reflexivity. Qed.

Lemma rescale_coef (mode : rounding) (a : Decimal) (e m : Z) :
  m <= e -> m <= expo a ->
  coef (rescale mode a e) = round_div mode (scaled a m) (10 ^ (e - m)).
Proof.
  intros He Ha. unfold rescale, scaled.
  pose proof (pow10_pos (e - m) ltac:(lia)) as Hp.
  destruct (Z.leb_spec e (expo a)) as [Hle|Hgt]; simpl.
  - replace (expo a - m) with ((expo a - e) + (e - m)) by lia.
    rewrite pow10_add by lia. rewrite Z.mul_assoc.
    rewrite round_div_exact by assumption. reflexivity.
  - replace (e - m) with ((e - expo a) + (expo a - m)) by lia.
    rewrite pow10_add by lia.
    rewrite round_div_scale by (apply pow10_pos; lia). reflexivity.
Qed.

Lemma quantize_exp_Ok (mode : rounding) (a q : Decimal) (e : Z) :
  quantize_exp mode a e = Ok q -> q = rescale mode a e.
Proof.
  unfold quantize_exp. destruct (Z.eqb_spec (coef a) 0) as [Hz|Hz].
  - intros H. injection H as <-. unfold rescale. rewrite Hz.
    destruct (e <=? expo a); reflexivity.
  - destruct (prec <? ndigits (coef a) + expo a - e); [discriminate|].
    destruct (prec <? ndigits (coef (rescale mode a e))); [discriminate|].
    intros H. injection H as <-. reflexivity.
Qed.

Lemma quantize_Ok_expo (a q p : Decimal) (mode : rounding) :
  quantize a p mode = Ok q -> expo q = expo p.
Proof.
  unfold quantize. intros H. apply quantize_exp_Ok in H. subst. apply rescale_expo.
Qed.

Lemma scaled_at_expo (a : Decimal) (e : Z) : expo a = e -> scaled a e = coef a.
Proof. intros <-. apply scaled_self. Qed.

Lemma rescale_mono (mode : rounding) (a b : Decimal) (e : Z) :
  dle a b = true -> dle (rescale mode a e) (rescale mode b e) = true.
Proof.
  intros H. set (m := Z.min e (Z.min (expo a) (expo b))).
  apply (dle_scaled a b m) in H; [|unfold m; lia..].
  apply (dle_scaled _ _ e); rewrite ?rescale_expo; [lia..|].
  rewrite !scaled_at_expo by apply rescale_expo.
  rewrite (rescale_coef mode a e m), (rescale_coef mode b e m) by (unfold m; lia).
  apply round_div_mono; [apply pow10_pos; unfold m; lia | assumption].
Qed.

Lemma quantize_mono (mode : rounding) (a b qa qb p : Decimal) :
  dle a b = true -> quantize a p mode = Ok qa -> quantize b p mode = Ok qb ->
  dle qa qb = true.
Proof.
  unfold quantize. intros H Ha Hb.
  apply quantize_exp_Ok in Ha, Hb. subst. apply rescale_mono. assumption.
Qed.

(** The quantized value is a nearest multiple of the quantum: at any common
    exponent [m], it is within half a quantum of the value it rounds. *)
Lemma rescale_near (mode : rounding) (a : Decimal) (e m : Z) :
  m <= e -> m <= expo a ->
  2 * Z.abs (scaled (rescale mode a e) m - scaled a m) <= 10 ^ (e - m).
Proof.
  intros He Ha. unfold scaled at 1. rewrite rescale_expo.
  rewrite (rescale_coef mode a e m He Ha).
  apply round_div_near. apply pow10_pos. lia.
Qed.

(** ** Transfer duties *)

Lemma dle_coef_pos (a b : Decimal) : dle a b = true -> 0 < coef a -> 0 < coef b.
Proof.
  intros H Ha. set (m := Z.min (expo a) (expo b)).
  apply (dle_scaled a b m) in H; [|unfold m; lia..].
  apply (scaled_pos b m ltac:(unfold m; lia)).
  pose proof (proj2 (scaled_pos a m ltac:(unfold m; lia)) Ha). lia.
Qed.

Lemma dle_false_mono (p1 p2 b : Decimal) :
  dle p1 p2 = true -> dle p1 b = false -> dle p2 b = false.
Proof.
  intros H12 H1. destruct (dle p2 b) eqn:E; [|reflexivity].
  rewrite (dle_trans p1 p2 b H12 E) in H1. discriminate.
Qed.

Lemma dgt_D0_false (a : Decimal) : dgt a D0 = false <-> coef a <= 0.
Proof.
  pose proof (dgt_D0 a) as [H1 H2]. destruct (dgt a D0).
  - specialize (H1 eq_refl). split; [discriminate | lia].
  - split; [|reflexivity]. intros _.
    destruct (Z.le_gt_cases (coef a) 0) as [|Hgt]; [assumption|].
    specialize (H2 Hgt). discriminate.
Qed.

(** The bracket loop never lowers the running total, and keeps it within
    the precision of the context. *)
Lemma bracket_loop_increase (bs : list TaxBracket) :
  Forall (fun b => 0 <= coef (bracket_rate b)) bs ->
  forall p acc, normal acc ->
    dle acc (bracket_loop p bs acc) = true /\ normal (bracket_loop p bs acc).
Proof.
  induction 1 as [|b rest Hb Hrest IH]; intros p acc Hn; cbn [bracket_loop].
  - split; [apply dle_refl | assumption].
  - destruct (dle p (bracket_min b)); [split; [apply dle_refl | assumption]|].
    set (t := dsub (dmin p (bracket_max b)) (bracket_min b)).
    destruct (dgt t D0) eqn:Et.
    + apply dgt_D0 in Et.
      destruct (IH p (dadd acc (dmul t (bracket_rate b))) (dadd_normal _ _)) as [H1 H2].
      split; [|assumption].
      eapply dle_trans; [|exact H1].
      apply dadd_increase; [assumption|]. apply dmul_coef_nonneg; lia.
    + apply IH. assumption.
Qed.

Lemma bracket_loop_cons (p : Decimal) (b : TaxBracket) (rest : list TaxBracket)
  (acc : Decimal) :
  bracket_loop p (b :: rest) acc =
  if dle p (bracket_min b) then acc
  else
    let t := dsub (dmin p (bracket_max b)) (bracket_min b) in
    bracket_loop p rest
      (if dgt t D0 then dadd acc (dmul t (bracket_rate b)) else acc).
Proof. reflexivity. Qed.

Lemma bracket_loop_mono (bs : list TaxBracket) :
  Forall (fun b => 0 <= coef (bracket_rate b)) bs ->
  forall p1 p2 acc1 acc2,
    dle p1 p2 = true -> dle acc1 acc2 = true -> normal acc2 ->
    dle (bracket_loop p1 bs acc1) (bracket_loop p2 bs acc2) = true.
Proof.
  induction 1 as [|b rest Hb Hrest IH]; intros p1 p2 acc1 acc2 Hp Hacc Hn.
  - assumption.
  - rewrite (bracket_loop_cons p1).
    destruct (dle p1 (bracket_min b)) eqn:E1.
    + eapply dle_trans; [exact Hacc|].
      apply bracket_loop_increase; [constructor|]; assumption.
    + rewrite (bracket_loop_cons p2). rewrite (dle_false_mono p1 p2 _ Hp E1).
      cbv zeta.
      set (t1 := dsub (dmin p1 (bracket_max b)) (bracket_min b)).
      set (t2 := dsub (dmin p2 (bracket_max b)) (bracket_min b)).
      assert (Ht : dle t1 t2 = true) by (apply dsub_mono_l, dmin_mono_l; assumption).
      destruct (dgt t1 D0) eqn:Et1.
      * apply dgt_D0 in Et1.
        pose proof (dle_coef_pos t1 t2 Ht Et1) as Et2. apply dgt_D0 in Et2. rewrite Et2.
        apply IH; [assumption| |apply dadd_normal].
        apply dadd_mono; [assumption|]. apply dmul_mono_l; assumption.
      * destruct (dgt t2 D0) eqn:Et2.
        -- apply dgt_D0 in Et2.
           apply IH; [assumption| |apply dadd_normal].
           eapply dle_trans; [exact Hacc|].
           apply dadd_increase; [assumption|]. apply dmul_coef_nonneg; lia.
        -- apply IH; assumption.
Qed.

Lemma additional_loop_increase (adds : list AdditionalRate) :
  Forall (fun a => 0 <= coef (additional_rate a)) adds ->
  forall p acc, normal acc ->
    dle acc (additional_loop p adds acc) = true /\ normal (additional_loop p adds acc).
Proof.
  induction 1 as [|a rest Ha Hrest IH]; intros p acc Hn; cbn [additional_loop].
  - split; [apply dle_refl | assumption].
  - destruct (dgt p (threshold a)) eqn:E.
    + destruct (IH p (dadd acc (dmul (dsub p (threshold a)) (additional_rate a)))
                  (dadd_normal _ _)) as [H1 H2].
      split; [|assumption].
      eapply dle_trans; [|exact H1].
      apply dadd_increase; [assumption|].
      apply dmul_coef_nonneg; [|assumption].
      pose proof (dsub_coef_pos p (threshold a) E). lia.
    + apply IH. assumption.
Qed.

Lemma additional_loop_mono (adds : list AdditionalRate) :
  Forall (fun a => 0 <= coef (additional_rate a)) adds ->
  forall p1 p2 acc1 acc2,
    dle p1 p2 = true -> dle acc1 acc2 = true -> normal acc2 ->
    dle (additional_loop p1 adds acc1) (additional_loop p2 adds acc2) = true.
Proof.
  induction 1 as [|a rest Ha Hrest IH]; intros p1 p2 acc1 acc2 Hp Hacc Hn.
  - assumption.
  - cbn [additional_loop].
    destruct (dgt p1 (threshold a)) eqn:E1.
    + assert (E2 : dgt p2 (threshold a) = true).
      { unfold dgt in *. rewrite dlt_dle_false in *.
        destruct (dle p2 (threshold a)) eqn:E; [|reflexivity].
        rewrite (dle_trans p1 p2 _ Hp E) in E1. discriminate. }
      rewrite E2. apply IH; [assumption| |apply dadd_normal].
      apply dadd_mono; [assumption|].
      apply dmul_mono_l; [assumption|]. apply dsub_mono_l. assumption.
    + destruct (dgt p2 (threshold a)) eqn:E2.
      * apply IH; [assumption| |apply dadd_normal].
        eapply dle_trans; [exact Hacc|].
        apply dadd_increase; [assumption|].
        apply dmul_coef_nonneg; [|assumption].
        pose proof (dsub_coef_pos p2 (threshold a) E2). lia.
      * apply IH; assumption.
Qed.

Lemma normal_zero : normal (dec 0 0).
Proof. unfold normal. simpl. unfold prec. change (ndigits 0) with 1. lia. Qed.

Lemma tables_rates_nonneg (m : MunicipalityCode) (cfg : MunicipalityTaxConfig) :
  tables_get TRANSFER_TAX_TABLES m = Some cfg -> rates_nonneg cfg.
Proof.
  destruct m; intros H; injection H as <-; split;
    repeat constructor; simpl; lia.
Qed.

(** Every municipality code has its grid: the ValueError is out of reach. *)
Lemma tables_total (m : MunicipalityCode) :
  exists cfg, tables_get TRANSFER_TAX_TABLES m = Some cfg.
Proof. destruct m; eexists; reflexivity. Qed.

Lemma calculate_transfer_tax_in_monotone
  (tables : list (MunicipalityCode * MunicipalityTaxConfig)) (m : MunicipalityCode)
  (p1 p2 t1 t2 : Decimal) :
  (forall cfg, tables_get tables m = Some cfg -> rates_nonneg cfg) ->
  dle p1 p2 = true ->
  calculate_transfer_tax_in tables p1 m = Ok t1 ->
  calculate_transfer_tax_in tables p2 m = Ok t2 ->
  dle t1 t2 = true.
Proof.
  unfold calculate_transfer_tax_in. intros Hcfg Hp H1 H2.
  destruct (tables_get tables m) as [cfg|]; [|discriminate].
  destruct (Hcfg cfg eq_refl) as [Hb Ha].
  eapply quantize_mono; [|exact H1|exact H2].
  apply additional_loop_mono; [assumption..| |].
  - apply bracket_loop_mono; [assumption..|apply dle_refl|apply normal_zero].
  - apply bracket_loop_increase; [assumption|apply normal_zero].
Qed.

(** C3: [calculate_transfer_tax(Decimal("300000"), MONTREAL)] returns
    exactly [Decimal("2733.00")]: three brackets contribute, 0.5% of 58900
    is 294.50, 1% of 294500 - 58900 is 2356.00 and 1.5% of 300000 - 294500
    is 82.50, and their running total 2733.000 is quantized to 2733.00. *)
Theorem C3_transfer_tax_montreal_300000 :
  let price := dec 300000 0 in
  let t1 := dmul (dsub (dec 58900 0) (dec 0 0)) (dec 5 (-3)) in
  let t2 := dmul (dsub (dec 294500 0) (dec 58900 0)) (dec 1 (-2)) in
  let t3 := dmul (dsub price (dec 294500 0)) (dec 15 (-3)) in
  calculate_transfer_tax price MONTREAL = Ok (dec 273300 (-2)) /\
  bracket_loop price brackets_montreal (dec 0 0)
    = dadd (dadd (dadd (dec 0 0) t1) t2) t3 /\
  additional_loop price [mkAdditional (dec 2136600 0) (dec 5 (-3))]
    (dadd (dadd (dadd (dec 0 0) t1) t2) t3) = dec 2733000 (-3) /\
  deq t1 (dec 29450 (-2)) = true /\
  deq t2 (dec 235600 (-2)) = true /\
  deq t3 (dec 8250 (-2)) = true.
Proof. vm_compute. repeat split. Qed.

(** C4: for a fixed municipality the transfer duty never decreases when the
    price grows: whenever [p1 <= p2] and both calls return, the duty on [p1]
    is at most the duty on [p2]. *)
Theorem C4_transfer_tax_monotone (m : MunicipalityCode) (p1 p2 t1 t2 : Decimal) :
  dle p1 p2 = true ->
  calculate_transfer_tax p1 m = Ok t1 ->
  calculate_transfer_tax p2 m = Ok t2 ->
  dle t1 t2 = true.
Proof.
  apply calculate_transfer_tax_in_monotone. apply tables_rates_nonneg.
Qed.

Lemma C4_transfer_tax_monotone_witness :
  dle (dec 29450350 (-2)) (dec 500000 0) = true /\
  calculate_transfer_tax (dec 29450350 (-2)) MONTREAL = Ok (dec 265055 (-2)) /\
  calculate_transfer_tax (dec 500000 0) MONTREAL = Ok (dec 573300 (-2)) /\
  dle (dec 265055 (-2)) (dec 573300 (-2)) = true.
Proof.
  assert (H1 : dle (dec 29450350 (-2)) (dec 500000 0) = true) by reflexivity.
  assert (H2 : calculate_transfer_tax (dec 29450350 (-2)) MONTREAL = Ok (dec 265055 (-2)))
    by reflexivity.
  assert (H3 : calculate_transfer_tax (dec 500000 0) MONTREAL = Ok (dec 573300 (-2)))
    by reflexivity.
  exact (conj H1 (conj H2 (conj H3 (C4_transfer_tax_monotone MONTREAL _ _ _ _ H1 H2 H3)))).
Defined.

(** ** The error monad *)

Lemma bind_Ok {A B : Type} (m : result A) (k : A -> result B) (b : B) :
  bind m k = Ok b -> exists a, m = Ok a /\ k a = Ok b.
Proof. destruct m as [a|e]; simpl; [eauto | discriminate]. Qed.

Ltac inv_bind H :=
  let a := fresh "v" in
  let Ha := fresh "E" in
  apply bind_Ok in H; destruct H as [a [Ha H]].

Lemma Ok_pair_inj {A B : Type} (a a' : A) (b b' : B) :
  Ok (a, b) = Ok (a', b') -> a' = a /\ b' = b.
Proof. intros H. injection H as -> ->. auto. Qed.

Lemma Ok_triple_inj {A B C : Type} (a a' : A) (b b' : B) (c c' : C) :
  Ok (a, b, c) = Ok (a', b', c') -> a' = a /\ b' = b /\ c' = c.
Proof. intros H. injection H as -> -> ->. auto. Qed.

(** One step through a monadic body held in [H]: a [let] becomes a local
    definition, a bind that returned is split, a tuple pattern is opened. *)
Ltac inv_step H :=
  lazymatch type of H with
  | (let x := ?v in @?b x) = ?rhs =>
      let y := fresh x in
      pose (y := v); change (b y = rhs) in H; cbv beta in H
  | bind _ _ = Ok _ => inv_bind H
  | match ?p with pair _ _ => _ end = _ => destruct p
  end.

Lemma arithmetic_only_Ok {A : Type} (a : A) : arithmetic_only (Ok a).
Proof. intros e H. discriminate. Qed.

Lemma arithmetic_only_bind {A B : Type} (m : result A) (k : A -> result B) :
  arithmetic_only m -> (forall a, m = Ok a -> arithmetic_only (k a)) ->
  arithmetic_only (bind m k).
Proof.
  intros Hm Hk e. destruct m as [a|e']; simpl.
  - apply Hk. reflexivity.
  - intros H. injection H as <-. apply Hm. reflexivity.
Qed.

Lemma arithmetic_only_float {A : Type} (o : option A) : arithmetic_only (float_result o).
Proof. intros e. destruct o; simpl; [discriminate|]. intros H. injection H as <-. auto. Qed.

Lemma arithmetic_only_quantize (a p : Decimal) (mode : rounding) :
  arithmetic_only (quantize a p mode).
Proof.
  intros e. unfold quantize, quantize_exp.
  repeat match goal with |- context [if ?c then _ else _] => destruct c end;
    try discriminate; intros H; injection H as <-; auto.
Qed.

Lemma arithmetic_only_quantize_default (a p : Decimal) :
  arithmetic_only (quantize_default a p).
Proof. apply arithmetic_only_quantize. Qed.

Lemma ddiv_Ok (a b : Decimal) : coef b <> 0 -> exists q, ddiv a b = Ok q.
Proof.
  intros Hb. unfold ddiv. destruct (Z.eqb_spec (coef b) 0); [contradiction|].
  destruct (coef a =? 0); [eauto|].
  destruct (if _ =? 0 then _ else _). eauto.
Qed.

Lemma arithmetic_only_ddiv (a b : Decimal) : coef b <> 0 -> arithmetic_only (ddiv a b).
Proof.
  intros Hb. destruct (ddiv_Ok a b Hb) as [q ->]. apply arithmetic_only_Ok.
Qed.

Lemma dle_D0_false (a : Decimal) : dle a D0 = false -> 0 < coef a.
Proof.
  intros H. destruct (Z.le_gt_cases (coef a) 0) as [Hle|]; [|assumption].
  apply dle_D0 in Hle. congruence.
Qed.


Ltac arith_only_step :=
  lazymatch goal with
  | |- arithmetic_only (Ok _) => apply arithmetic_only_Ok
  | |- arithmetic_only (float_result _) => apply arithmetic_only_float
  | |- arithmetic_only (quantize _ _ _) => apply arithmetic_only_quantize
  | |- arithmetic_only (quantize_default _ _) => apply arithmetic_only_quantize_default
  | |- arithmetic_only (bind _ _) => apply arithmetic_only_bind; [|intros ? ?]
  | |- arithmetic_only (ddiv _ _) => apply arithmetic_only_ddiv
  | |- arithmetic_only (if ?c then _ else _) => destruct c eqn:?
  | |- arithmetic_only (match ?x with _ => _ end) => destruct x eqn:?
  | |- arithmetic_only (let x := ?v in @?b x) =>
      let y := fresh x in
      pose (y := v); change (arithmetic_only (b y)); cbv beta
  end.

Section MortgageFacts.
Context {F : PyFloat}.

Lemma arithmetic_only_convert (r : Decimal) :
  arithmetic_only (convert_to_monthly_effective_rate r).
Proof. unfold convert_to_monthly_effective_rate. repeat arith_only_step. Qed.

Lemma arithmetic_only_monthly_payment (p r : Decimal) (years : Z) :
  years <> 0 -> arithmetic_only (calculate_monthly_mortgage_payment p r years).
Proof.
  intros Hy. unfold calculate_monthly_mortgage_payment.
  repeat first [apply arithmetic_only_convert | arith_only_step].
  simpl. lia.
Qed.



End MortgageFacts.



(** ** The BRRRR engine: what can stop a run *)

Section EngineFacts.
Context {F : PyFloat}.









End EngineFacts.

(** ** The BRRRR engine: what a run returns *)

Lemma app_if {A : Type} (c : bool) (w l : list A) :
  (if c then w ++ l else w) = w ++ (if c then l else []).
Proof. destruct c; [reflexivity | symmetry; apply app_nil_r]. Qed.

(** The insurance decision list returns exactly one note. *)
Lemma cmhc_one_note (loan dp : Decimal) (occ : bool) (units : Z) (price : Decimal)
  (premium rate : option Decimal) (notes : list string) :
  calculate_cmhc_premium loan dp occ units price = Ok (premium, rate, notes) ->
  exists note, notes = [note].
Proof.
  unfold calculate_cmhc_premium. intros H.
  repeat match type of H with
         | context [if ?c then _ else _] => destruct c
         end; cbv beta iota zeta in H;
    try (injection H as _ _ <-; eauto; fail);
    inv_bind H; injection H as _ _ <-; eauto.
Qed.

Section EngineResults.
Context {F : PyFloat}.

Lemma acquisition_warnings (i : PropertyFinancialsInput.t) (w w' : list string)
  (a : AcquisitionResult.t) (l : AcquisitionLocals) :
  acquisition_phase i w = Ok (a, l, w') ->
  exists premium rate note,
    calculate_cmhc_premium (loan_amount l)
      (PropertyFinancialsInput.down_payment_percent i)
      (PropertyFinancialsInput.is_owner_occupied i)
      (PropertyFinancialsInput.total_units i)
      (PropertyFinancialsInput.purchase_price i) = Ok (premium, rate, [note]) /\
    w' = w ++ [note].
Proof.
  unfold acquisition_phase. intros H.
  repeat lazymatch goal with
         | _ : calculate_cmhc_premium _ _ _ _ _ = Ok _ |- _ => fail
         | _ => inv_step H
         end.
  match goal with
  | E : calculate_cmhc_premium _ _ _ _ _ = Ok ?v |- _ =>
      destruct v as [[premium rate] notes];
      destruct (cmhc_one_note _ _ _ _ _ _ _ _ E) as [note ->]; rename E into Ecmhc
  end.
  repeat inv_step H. apply Ok_triple_inj in H. destruct H as [_ [-> ->]].
  exists premium, rate, note. split; [exact Ecmhc | reflexivity].
Qed.

Lemma acquisition_loan_amount (i : PropertyFinancialsInput.t) (w w' : list string)
  (a : AcquisitionResult.t) (l : AcquisitionLocals) :
  acquisition_phase i w = Ok (a, l, w') ->
  loan_amount l
  = dsub (PropertyFinancialsInput.purchase_price i)
         (dmul (PropertyFinancialsInput.purchase_price i)
               (PropertyFinancialsInput.down_payment_percent i)).
Proof.
  unfold acquisition_phase. intros H.
  repeat inv_step H. apply Ok_triple_inj in H. destruct H as [_ [-> _]].
  reflexivity.
Qed.

Lemma kpis_warnings (i : PropertyFinancialsInput.t)
  (acq : AcquisitionLocals) (reno : RenovationLocals) (rent : RentalLocals)
  (refi : RefinanceLocals) (w w' : list string) (k : KPIsResult.t) (l : KPIsLocals) :
  kpis_phase i acq reno rent refi w = Ok (k, l, w') ->
  w' = w ++ advisory_warnings (PropertyFinancialsInput.total_units i) k l.
Proof.
  unfold kpis_phase. intros H.
  repeat inv_step H. apply Ok_triple_inj in H. destruct H as [-> [-> ->]].
  unfold advisory_warnings. cbn [KPIsResult.meets_min_dcr KPIsResult.debt_coverage_ratio
    KPIsResult.passes_stress_test KPIsResult.stress_test_rate monthly_cashflow
    KPIsResult.cash_on_cash_return KPIsResult.is_infinite_return].
  repeat match goal with w := (if _ then _ else _) : list string |- _ => subst w end.
  rewrite !app_if, <- !app_assoc. reflexivity.
Qed.

(** The computed locals of the KPI block, as the source defines them. *)
Lemma kpis_locals_spec (i : PropertyFinancialsInput.t)
  (acq : AcquisitionLocals) (reno : RenovationLocals) (rent : RentalLocals)
  (refi : RefinanceLocals) (w w' : list string) (k : KPIsResult.t) (l : KPIsLocals) :
  kpis_phase i acq reno rent refi w = Ok (k, l, w') ->
  total_cash_invested l
    = dadd (dadd (total_cash_at_acquisition acq) (total_reno_budget reno))
           (total_carry_cost reno) /\
  cash_extracted l = dmax (dec 0 0) (net_cash_out refi) /\
  equity_left_in_deal l
    = dmax (dec 0 0) (dsub (total_cash_invested l) (cash_extracted l)) /\
  KPIsResult.is_infinite_return k = dle (equity_left_in_deal l) D0 /\
  (KPIsResult.is_infinite_return k = true ->
   KPIsResult.cash_on_cash_return k = dec 999999 0 /\
   KPIsResult.return_on_equity k = dec 999999 0).
Proof.
  unfold kpis_phase. intros H.
  do 8 inv_step H. rename E into Ecoc.
  repeat inv_step H. apply Ok_triple_inj in H. destruct H as [-> [-> ->]].
  cbn [total_cash_invested cash_extracted equity_left_in_deal
       KPIsResult.is_infinite_return KPIsResult.cash_on_cash_return
       KPIsResult.return_on_equity].
  repeat split; try reflexivity;
    match goal with
    | Hinf : dle _ D0 = true |- _ =>
        rewrite Hinf in Ecoc; apply (f_equal (fun r => match r with Ok x => x | Raise _ => dec 0 0 end)) in Ecoc;
        symmetry; exact Ecoc
    end.
Qed.

Lemma brrrr_trace_inv (i : PropertyFinancialsInput.t)
  (r : BrrrrCalculationResult.t) (t : BrrrrLocals) :
  calculate_brrrr_trace i = Ok (r, t) ->
  exists w1 w2,
    acquisition_phase i [] = Ok (BrrrrCalculationResult.acquisition r, acquisition_locals t, w1) /\
    renovation_phase i (acquisition_locals t)
      = Ok (BrrrrCalculationResult.renovation r, renovation_locals t) /\
    rental_phase i = Ok (BrrrrCalculationResult.rental r, rental_locals t) /\
    refinance_phase i (acquisition_locals t) (renovation_locals t)
      = Ok (BrrrrCalculationResult.refinance r, refinance_locals t) /\
    kpis_phase i (acquisition_locals t) (renovation_locals t) (rental_locals t)
      (refinance_locals t) w1
      = Ok (BrrrrCalculationResult.kpis r, kpis_locals t, w2) /\
    BrrrrCalculationResult.validation r = ValidationResult.mk (no_errors []) w2 [].
Proof.
  unfold calculate_brrrr_trace. intros H. cbv zeta in H.
  inv_bind H. destruct v as [[a al] w1].
  inv_bind H. destruct v as [rn rnl].
  inv_bind H. destruct v as [re rel].
  inv_bind H. destruct v as [rf rfl].
  inv_bind H. destruct v as [[k kl] w2].
  injection H as <- <-.
  cbn [BrrrrCalculationResult.acquisition BrrrrCalculationResult.renovation
       BrrrrCalculationResult.rental BrrrrCalculationResult.refinance
       BrrrrCalculationResult.kpis BrrrrCalculationResult.validation
       acquisition_locals renovation_locals rental_locals refinance_locals kpis_locals].
  exists w1, w2. repeat split; assumption.
Qed.

Lemma calculate_brrrr_of_trace (i : PropertyFinancialsInput.t) :
  calculate_brrrr i =
  match calculate_brrrr_trace i with
  | Ok (r, _) => Ok r
  | Raise e => Raise e
  end.
Proof.
  unfold calculate_brrrr. destruct (calculate_brrrr_trace i) as [[r t]|e]; reflexivity.
Qed.

End EngineResults.

Lemma deq_dle (a b : Decimal) : deq a b = true -> dle a b = true.
Proof. unfold deq, dle. destruct (dcompare a b); congruence. Qed.

Section EngineClaims.
Context {F : PyFloat}.


(** C10: the warnings of every result [calculate_brrrr] returns start with
    the note of the insurance decision list, so the list is never empty. *)
Theorem C10_warnings_never_empty
  (i : PropertyFinancialsInput.t) (r : BrrrrCalculationResult.t) :
  calculate_brrrr i = Ok r ->
  ValidationResult.warnings (BrrrrCalculationResult.validation r) <> [] /\
  exists premium rate note rest,
    calculate_cmhc_premium
      (dsub (PropertyFinancialsInput.purchase_price i)
            (dmul (PropertyFinancialsInput.purchase_price i)
                  (PropertyFinancialsInput.down_payment_percent i)))
      (PropertyFinancialsInput.down_payment_percent i)
      (PropertyFinancialsInput.is_owner_occupied i)
      (PropertyFinancialsInput.total_units i)
      (PropertyFinancialsInput.purchase_price i) = Ok (premium, rate, [note]) /\
    ValidationResult.warnings (BrrrrCalculationResult.validation r) = note :: rest.
Proof.
  rewrite calculate_brrrr_of_trace.
  destruct (calculate_brrrr_trace i) as [[r' t]|e] eqn:Ht; [|discriminate].
  intros H. injection H as <-.
  destruct (brrrr_trace_inv i r' t Ht) as (w1 & w2 & Ha & _ & _ & _ & Hk & Hval).
  destruct (acquisition_warnings _ _ _ _ _ Ha) as (premium & rate & note & Hc & ->).
  rewrite (acquisition_loan_amount _ _ _ _ _ Ha) in Hc.
  rewrite Hval, (kpis_warnings _ _ _ _ _ _ _ _ _ Hk).
  cbn [ValidationResult.warnings app].
  split; [discriminate|]. eauto 6.
Qed.

End EngineClaims.

(** ** Runs of the engine on the sample inputs *)

(** With a price of [10 ^ 27] the down payment is [2.0E+26]; written with
    two decimals it would need 29 digits, and the quantize of the
    acquisition record raises, whatever the float formulas did before. *)
Lemma bind_raises {A B : Type} (m : result A) (k : A -> result B) :
  (forall a, exists e, k a = Raise e) -> exists e, bind m k = Raise e.
Proof. intros Hk. destruct m as [a|e]; simpl; eauto. Qed.

Lemma huge_down_payment_overflows :
  quantize_default (dmul (dec 1 27) (dec 20 (-2))) PRECISION = Raise InvalidOperation.
Proof. vm_compute. reflexivity. Qed.

Lemma raise_bind {A B : Type} (m : result A) (k : A -> result B) (e : exn) :
  m = Raise e -> bind m k = Raise e.
Proof. intros ->. reflexivity. Qed.

Lemma huge_price_raises {F : PyFloat} :
  exists e, calculate_brrrr huge_price_input = Raise e.
Proof.
  assert (Ha : exists e, acquisition_phase huge_price_input [] = Raise e).
  { unfold acquisition_phase, huge_price_input, sample_input. cbv zeta.
    cbn [PropertyFinancialsInput.purchase_price
         PropertyFinancialsInput.down_payment_percent].
    apply bind_raises. intros transfer_tax.
    apply bind_raises. intros [[premium rate] notes].
    apply bind_raises. intros payment.
    rewrite huge_down_payment_overflows. eexists. reflexivity. }
  destruct Ha as [e Ha]. exists e.
  unfold calculate_brrrr, calculate_brrrr_trace. cbv zeta.
  apply raise_bind. apply raise_bind. exact Ha.
Qed.


(** The other way a run on an admitted input stops: at a mortgage rate of
    [1E-20] the monthly rate is 0.0 in floating point, [(1 + r) ** n - 1] is
    0.0 and the annuity formula divides by it; in Python this is the
    ZeroDivisionError of [float]. *)
Lemma tiny_rate_stops_in_float_division :
  valid_input tiny_rate_input = true /\
  moderate_input tiny_rate_input = true /\
  @calculate_brrrr RefFloat tiny_rate_input = Raise FloatError.
Proof. repeat split; vm_compute; reflexivity. Qed.


Lemma C10_warnings_never_empty_witness :
  exists r,
    @calculate_brrrr RefFloat (sample_input (dec 300000 0) (dec 400000 0)) = Ok r /\
    ValidationResult.warnings (BrrrrCalculationResult.validation r) <> [].
Proof.
  eexists.
  match goal with
  | |- ?A /\ _ => assert (E : A) by (vm_compute; reflexivity)
  end.
  split; [exact E|].
  exact (proj1 (@C10_warnings_never_empty RefFloat _ _ E)).
Defined.

(** ** The insurance rule, postal codes, HELOC capacity *)

(** C6: with a down payment of 20% or more, whatever the loan, the
    occupancy, the unit count and the price, [calculate_cmhc_premium]
    returns no premium and no rate, only the note of its first rule. *)
Theorem C6_no_premium_from_20_percent
  (loan_amount down_payment_percent : Decimal) (is_owner_occupied : bool)
  (total_units : Z) (purchase_price : Decimal) :
  dge down_payment_percent (dec 20 (-2)) = true ->
  calculate_cmhc_premium loan_amount down_payment_percent is_owner_occupied
    total_units purchase_price
  = Ok (None, None, ["Mise de fonds ≥ 20%: Aucune assurance SCHL requise"%string]).
Proof.
  intros H. unfold calculate_cmhc_premium. rewrite H. reflexivity.
Qed.

Lemma C6_no_premium_from_20_percent_witness :
  dge (dec 25 (-2)) (dec 20 (-2)) = true /\
  calculate_cmhc_premium (dec 750000 0) (dec 25 (-2)) true 6 (dec 1000000 0)
  = Ok (None, None, ["Mise de fonds ≥ 20%: Aucune assurance SCHL requise"%string]).
Proof.
  assert (H : dge (dec 25 (-2)) (dec 20 (-2)) = true) by reflexivity.
  exact (conj H (C6_no_premium_from_20_percent (dec 750000 0) (dec 25 (-2)) true 6
                   (dec 1000000 0) H)).
Defined.

Lemma upper_ascii_idem (c : ascii) : upper_ascii (upper_ascii c) = upper_ascii c.
Proof. destruct c as [[] [] [] [] [] [] [] []]; reflexivity. Qed.

Lemma upper_lower_ascii (c : ascii) : upper_ascii (lower_ascii c) = upper_ascii c.
Proof. destruct c as [[] [] [] [] [] [] [] []]; reflexivity. Qed.

Lemma upper_idem (s : string) : upper (upper s) = upper s.
Proof. induction s as [|c s IH]; simpl; [reflexivity|]. rewrite upper_ascii_idem, IH. reflexivity. Qed.

Lemma upper_lower (s : string) : upper (lower s) = upper s.
Proof. induction s as [|c s IH]; simpl; [reflexivity|]. rewrite upper_lower_ascii, IH. reflexivity. Qed.

(** The municipality depends on the postal code through [upper] only. *)
Lemma municipality_by_upper (s s' : string) :
  upper s = upper s' -> 
  get_municipality_from_postal_code s = get_municipality_from_postal_code s'.
Proof.
  intros H. unfold get_municipality_from_postal_code.
  destruct s as [|c s], s' as [|c' s']; try discriminate; [reflexivity|].
  rewrite H. reflexivity.
Qed.

(** The rules read the upper-cased code itself: the slice keeps every
    character a rule looks at. *)
Lemma municipality_rules (s : string) :
  let u := upper s in
  get_municipality_from_postal_code s =
  if startswith u "H" then
    if startswith u "H7" then LAVAL else MONTREAL
  else if startswith u "G1" || startswith u "G2" then QUEBEC_CITY
  else if startswith u "J8" || startswith u "J9" then GATINEAU
  else if startswith u "J4" then LONGUEUIL
  else if startswith u "J1" then SHERBROOKE
  else if startswith u "G8" || startswith u "G9" then TROIS_RIVIERES
  else OTHER_QC.
Proof. destruct s as [|c1 [|c2 [|c3 rest]]]; reflexivity. Qed.

Lemma ascii_dec_eqb {A : Type} (a c : ascii) (x y : A) :
  (if ascii_dec a c then x else y) = (if Ascii.eqb a c then x else y).
Proof.
  destruct (ascii_dec a c) as [->|n].
  - rewrite Ascii.eqb_refl. reflexivity.
  - apply Ascii.eqb_neq in n. rewrite n. reflexivity.
Qed.

Lemma startswith_one (a c : ascii) (r : string) :
  startswith (String c r) (String a "") = Ascii.eqb a c.
Proof.
  unfold startswith. cbn [prefix]. rewrite ascii_dec_eqb.
  destruct r; destruct (Ascii.eqb a c); reflexivity.
Qed.

Lemma startswith_two (a b c1 c2 : ascii) (r : string) :
  startswith (String c1 (String c2 r)) (String a (String b ""))
  = Ascii.eqb a c1 && Ascii.eqb b c2.
Proof.
  unfold startswith. cbn [prefix]. rewrite !ascii_dec_eqb.
  destruct r; destruct (Ascii.eqb a c1), (Ascii.eqb b c2); reflexivity.
Qed.

Lemma startswith_two_short (a b c : ascii) :
  startswith (String c "") (String a (String b "")) = false.
Proof.
  unfold startswith. cbn [prefix]. destruct (ascii_dec a c); reflexivity.
Qed.

Ltac split_eqb :=
  repeat match goal with
         | |- context [Ascii.eqb ?a ?b] =>
             is_var b; destruct (Ascii.eqb_spec a b) as [<-|?]
         end.

(** Which rule decides, by how the upper-cased code starts. *)
Lemma municipality_table (s : string) :
  let u := upper s in
  let f := get_municipality_from_postal_code s in
  (f = LAVAL <-> startswith u "H7" = true) /\
  (f = MONTREAL <-> startswith u "H" = true /\ startswith u "H7" = false) /\
  (f = QUEBEC_CITY <-> startswith u "G1" = true \/ startswith u "G2" = true) /\
  (f = GATINEAU <-> startswith u "J8" = true \/ startswith u "J9" = true) /\
  (f = LONGUEUIL <-> startswith u "J4" = true) /\
  (f = SHERBROOKE <-> startswith u "J1" = true) /\
  (f = TROIS_RIVIERES <-> startswith u "G8" = true \/ startswith u "G9" = true) /\
  (f = OTHER_QC <->
   startswith u "H" = false /\
   startswith u "G1" = false /\ startswith u "G2" = false /\
   startswith u "J8" = false /\ startswith u "J9" = false /\
   startswith u "J4" = false /\ startswith u "J1" = false /\
   startswith u "G8" = false /\ startswith u "G9" = false).
Proof.
  intros u f. subst f. rewrite municipality_rules. fold u. clearbody u. clear s.
  destruct u as [|c1 [|c2 r]].
  - cbn. intuition congruence.
  - rewrite !startswith_one, !startswith_two_short. split_eqb; cbn; intuition congruence.
  - rewrite !startswith_one, !startswith_two. split_eqb; cbn; intuition congruence.
Qed.

(** C7: "H7A 1A1" is Laval (the "H7" rule is tried inside the "H" rule,
    before Montréal is returned), "H1A 1A1" Montréal, "G1A 1A1" Québec,
    the unmatched "Z9Z 9Z9" and the empty string fall through to OTHER_QC.
    For every ASCII string the municipality is decided by how its
    upper-case form starts: "H7" is Laval, any other "H" Montréal, "G1" or
    "G2" Québec, "J8" or "J9" Gatineau, "J4" Longueuil, "J1" Sherbrooke,
    "G8" or "G9" Trois-Rivières, and a string is mapped to OTHER_QC exactly
    when it starts with none of these.  The case of the letters does not
    matter: a code, its upper-case and its lower-case form map to the same
    municipality. *)
Theorem C7_postal_code_mapping :
  get_municipality_from_postal_code "H7A 1A1" = LAVAL /\
  get_municipality_from_postal_code "H1A 1A1" = MONTREAL /\
  get_municipality_from_postal_code "G1A 1A1" = QUEBEC_CITY /\
  get_municipality_from_postal_code "Z9Z 9Z9" = OTHER_QC /\
  get_municipality_from_postal_code "" = OTHER_QC /\
  get_municipality_from_postal_code "h7a 1a1" = LAVAL /\
  (forall s, is_ascii s = true ->
     let u := upper s in
     let f := get_municipality_from_postal_code s in
     (f = LAVAL <-> startswith u "H7" = true) /\
     (f = MONTREAL <-> startswith u "H" = true /\ startswith u "H7" = false) /\
     (f = QUEBEC_CITY <-> startswith u "G1" = true \/ startswith u "G2" = true) /\
     (f = GATINEAU <-> startswith u "J8" = true \/ startswith u "J9" = true) /\
     (f = LONGUEUIL <-> startswith u "J4" = true) /\
     (f = SHERBROOKE <-> startswith u "J1" = true) /\
     (f = TROIS_RIVIERES <-> startswith u "G8" = true \/ startswith u "G9" = true) /\
     (f = OTHER_QC <->
      startswith u "H" = false /\
      startswith u "G1" = false /\ startswith u "G2" = false /\
      startswith u "J8" = false /\ startswith u "J9" = false /\
      startswith u "J4" = false /\ startswith u "J1" = false /\
      startswith u "G8" = false /\ startswith u "G9" = false) /\
     get_municipality_from_postal_code (upper s) = f /\
     get_municipality_from_postal_code (lower s) = f).
Proof.
  repeat (split; [reflexivity|]).
  intros s _ u f.
  pose proof (municipality_table s) as H. cbv zeta in H. fold u f in H.
  destruct H as (H1 & H2 & H3 & H4 & H5 & H6 & H7 & H8).
  repeat (split; [assumption|]).
  split; [apply municipality_by_upper, upper_idem | apply municipality_by_upper, upper_lower].
Qed.

Lemma C7_postal_code_mapping_witness :
  is_ascii "x0x 0x0" = true /\
  get_municipality_from_postal_code "x0x 0x0" = OTHER_QC /\
  get_municipality_from_postal_code "X0X 0X0" = OTHER_QC.
Proof.
  split; [reflexivity|].
  destruct C7_postal_code_mapping as (_ & _ & _ & _ & _ & _ & H).
  destruct (H "x0x 0x0"%string eq_refl) as (_ & _ & _ & _ & _ & _ & _ & Hother & Hupper & _).
  assert (Hx : get_municipality_from_postal_code "x0x 0x0" = OTHER_QC)
    by (apply Hother; repeat split).
  split; [exact Hx|]. cbv zeta in Hupper. rewrite <- Hx. exact Hupper.
Defined.

Lemma quantize_default_functional (x y p qx qy : Decimal) :
  x = y -> quantize_default x p = Ok qx -> quantize_default y p = Ok qy -> qx = qy.
Proof. intros -> H1 H2. congruence. Qed.

(** When the debt exceeds the rotating ceiling, the available equity at
    that ceiling is the zero the [max] starts from. *)
Lemma dmax_zero_of_lt (a b : Decimal) :
  dle b a = false -> dmax (dec 0 0) (dsub a b) = dec 0 0.
Proof.
  intros H. unfold dmax.
  assert (Hlt : dlt a b = true) by (rewrite dlt_dle_false, H; reflexivity).
  pose proof (dsub_coef_neg a b Hlt) as Hneg.
  destruct (dgt (dsub a b) (dec 0 0)) eqn:E; [|reflexivity].
  apply dgt_D0 in E. lia.
Qed.

Lemma heloc_trace_inv (i : HelocCapacityInput.t) (r : HelocCapacityResult.t)
  (l : HelocLocals) :
  calculate_heloc_capacity_trace i = Ok (r, l) ->
  let debt := dadd (HelocCapacityInput.current_mortgage_balance i)
                   (HelocCapacityInput.current_heloc_balance i) in
  let value := HelocCapacityInput.current_property_value i in
  max_total_borrowing l = dmul value BSIF_REFINANCE_LTV_MAX /\
  max_rotating_credit l = dmul value BSIF_HELOC_ROTATING_LTV_MAX /\
  total_equity l = dsub value debt /\
  available_at_rotating l = dmax (dec 0 0) (dsub (max_rotating_credit l) debt) /\
  available_at_total l = dmax (dec 0 0) (dsub (max_total_borrowing l) debt) /\
  HelocCapacityResult.can_access_rotating r = dle debt (max_rotating_credit l) /\
  recommended_heloc_limit l
    = (if HelocCapacityResult.can_access_rotating r
       then available_at_rotating l else dec 0 0) /\
  quantize_default (max_total_borrowing l) PRECISION
    = Ok (HelocCapacityResult.max_total_borrowing r) /\
  quantize_default (max_rotating_credit l) PRECISION
    = Ok (HelocCapacityResult.max_rotating_credit r) /\
  quantize_default (total_equity l) PRECISION
    = Ok (HelocCapacityResult.total_equity r) /\
  quantize_default (available_at_rotating l) PRECISION
    = Ok (HelocCapacityResult.available_equity_at_rotating r) /\
  quantize_default (available_at_total l) PRECISION
    = Ok (HelocCapacityResult.available_equity_at_total r) /\
  quantize_default (recommended_heloc_limit l) PRECISION
    = Ok (HelocCapacityResult.recommended_heloc_limit r).
Proof.
  unfold calculate_heloc_capacity_trace. intros H.
  repeat inv_step H. apply Ok_pair_inj in H. destruct H as [-> ->].
  cbv zeta.
  cbn [max_total_borrowing max_rotating_credit total_equity available_at_rotating
       available_at_total recommended_heloc_limit
       HelocCapacityResult.can_access_rotating
       HelocCapacityResult.max_total_borrowing HelocCapacityResult.max_rotating_credit
       HelocCapacityResult.total_equity HelocCapacityResult.available_equity_at_rotating
       HelocCapacityResult.available_equity_at_total
       HelocCapacityResult.recommended_heloc_limit].
  repeat split; try reflexivity; assumption.
Qed.

Lemma calculate_heloc_capacity_of_trace (i : HelocCapacityInput.t) :
  calculate_heloc_capacity i =
  match calculate_heloc_capacity_trace i with
  | Ok (r, _) => Ok r
  | Raise e => Raise e
  end.
Proof.
  unfold calculate_heloc_capacity.
  destruct (calculate_heloc_capacity_trace i) as [[r l]|e]; reflexivity.
Qed.

(** C9: in every result of [calculate_heloc_capacity] the recommended
    limit is the available equity at the rotating ceiling: when the current
    debt exceeds 65% of the value the [else 0] branch is taken, and there
    the available equity is already the 0 of its [max]. *)
Theorem C9_recommended_limit_is_available_at_rotating
  (i : HelocCapacityInput.t) (r : HelocCapacityResult.t) :
  calculate_heloc_capacity i = Ok r ->
  HelocCapacityResult.recommended_heloc_limit r
  = HelocCapacityResult.available_equity_at_rotating r.
Proof.
  rewrite calculate_heloc_capacity_of_trace.
  destruct (calculate_heloc_capacity_trace i) as [[r' l]|e] eqn:Ht; [|discriminate].
  intros H. injection H as <-.
  pose proof (heloc_trace_inv i r' l Ht) as H. cbv zeta in H.
  destruct H as (_ & _ & _ & Hav & _ & Hcan & Hrec & _ & _ & _ & Hqa & _ & Hqr).
  eapply quantize_default_functional; [|exact Hqr|exact Hqa].
  rewrite Hrec. destruct (HelocCapacityResult.can_access_rotating r') eqn:E; [reflexivity|].
  rewrite Hav. symmetry. apply dmax_zero_of_lt. rewrite <- Hcan. reflexivity.
Qed.

Lemma C9_recommended_limit_is_available_at_rotating_witness :
  exists r,
    calculate_heloc_capacity
      (HelocCapacityInput.mk (dec 500000 0) (dec 400000 0) (dec 0 0)) = Ok r /\
    HelocCapacityResult.can_access_rotating r = false /\
    HelocCapacityResult.recommended_heloc_limit r
    = HelocCapacityResult.available_equity_at_rotating r.
Proof.
  eexists.
  match goal with
  | |- ?A /\ _ => assert (E : A) by (vm_compute; reflexivity)
  end.
  split; [exact E|]. split; [reflexivity|].
  exact (C9_recommended_limit_is_available_at_rotating _ _ E).
Defined.

(** ** The breakdown against the scalar total *)

Section BreakdownFacts.
Context {F : PyFloat}.

(** C1 fails on the code: for a price of 10 001 in Montréal the duty is
    50.005 before rounding.  [calculate_transfer_tax] quantizes it with
    ROUND_HALF_UP and returns 50.01; [get_transfer_tax_breakdown] quantizes
    the bracket's tax with the rounding of the context (ties to even) and
    reports a line item of 50.00 and a total of 50.00. *)
Theorem C1_breakdown_total_differs_at_10001 :
  calculate_transfer_tax (dec 10001 0) MONTREAL = Ok (dec 5001 (-2)) /\
  exists b,
    get_transfer_tax_breakdown (dec 10001 0) MONTREAL = Ok b /\
    map TransferTaxBreakdownItem.tax (TransferTaxBreakdown.brackets b)
      = [dec 5000 (-2)] /\
    TransferTaxBreakdown.additional_tax b = dec 0 (-2) /\
    TransferTaxBreakdown.total_tax b = dec 5000 (-2) /\
    deq (TransferTaxBreakdown.total_tax b) (dec 5001 (-2)) = false.
Proof.
  split; [reflexivity|].
  eexists. split; [vm_compute; reflexivity|]. repeat split.
Qed.

End BreakdownFacts.

(** ** Rounding at emission *)

Lemma quantize_nearest (x q : Decimal) (mode : rounding) :
  quantize x PRECISION mode = Ok q -> nearest_cent q x.
Proof.
  unfold quantize. intros H. apply quantize_exp_Ok in H. subst q.
  split; [apply rescale_expo|]. intros m Hm Hx.
  apply (rescale_near mode x (-2) m); assumption.
Qed.

Lemma quantize_default_nearest (x q : Decimal) :
  quantize_default x PRECISION = Ok q -> nearest_cent q x.
Proof. apply quantize_nearest. Qed.

Lemma quantize_half_up (x q : Decimal) :
  quantize x PRECISION ROUND_HALF_UP = Ok q -> half_up_cent q x.
Proof. unfold quantize. intros H. apply quantize_exp_Ok in H. exact H. Qed.

Lemma half_up_nearest (q x : Decimal) : half_up_cent q x -> nearest_cent q x.
Proof.
  unfold half_up_cent. intros ->.
  split; [apply rescale_expo|]. intros m Hm Hx.
  apply (rescale_near ROUND_HALF_UP x (-2) m); assumption.
Qed.



Section RoundingFacts.
Context {F : PyFloat}.














End RoundingFacts.


Section RoundingClaim.
Context {F : PyFloat}.


End RoundingClaim.



(** ** The transfer duty returns on every price up to [10 ^ 24] *)

Lemma quantize_returns (mode : rounding) (a : Decimal) :
  dle (dec (-1) 25) a = true -> dle a (dec 1 25) = true ->
  exists q, quantize a PRECISION mode = Ok q.
Proof.
  intros Hlo Hhi. unfold quantize, quantize_exp. cbn [expo PRECISION dec].
  destruct (Z.eqb_spec (coef a) 0) as [Hz|Hz]; [eauto|].
  set (m := Z.min (expo a) (-2)).
  apply (dle_scaled _ _ m) in Hlo; [|unfold m; simpl; lia..].
  apply (dle_scaled _ _ m) in Hhi; [|unfold m; simpl; lia..].
  unfold scaled at 1 in Hlo. unfold scaled at 2 in Hhi. cbn [coef expo dec] in Hlo, Hhi.
  assert (Habs : Z.abs (scaled a m) <= 10 ^ (25 - m)) by lia.
  pose proof (ndigits_spec (coef a) Hz) as [Hdl Hdu].
  pose proof (ndigits_pos (coef a)) as Hdp.
  assert (Hdig : ndigits (coef a) + expo a <= 26).
  { destruct (Z.le_gt_cases (ndigits (coef a) + expo a) 26) as [|Hgt]; [assumption|].
    exfalso. unfold scaled in Habs.
    rewrite Z.abs_mul, (Z.abs_eq (10 ^ _)) in Habs
      by (apply Z.lt_le_incl, pow10_pos; unfold m; lia).
    assert (10 ^ (25 - m) < 10 ^ (ndigits (coef a) - 1) * 10 ^ (expo a - m)).
    { rewrite <- pow10_add by (unfold m; lia). apply pow10_lt. unfold m. lia. }
    pose proof (pow10_pos (expo a - m) ltac:(unfold m; lia)). nia. }
  destruct (Z.ltb_spec prec (ndigits (coef a) + expo a - -2)) as [Hbad|_];
    [unfold prec in Hbad; lia|].
  destruct (Z.ltb_spec prec (ndigits (coef (rescale mode a (-2))))) as [Hbad|_]; [|eauto].
  exfalso.
  assert (Hc : Z.abs (coef (rescale mode a (-2))) <= 10 ^ 27).
  { rewrite (rescale_coef mode a (-2) m) by (unfold m; lia).
    pose proof (pow10_pos (-2 - m) ltac:(unfold m; lia)) as Hp.
    assert (E : 10 ^ (25 - m) = 10 ^ 27 * 10 ^ (-2 - m)).
    { rewrite <- pow10_add by (unfold m; lia). f_equal. lia. }
    pose proof (round_div_mono mode (scaled a m) (10 ^ 27 * 10 ^ (-2 - m)) _ Hp ltac:(lia)).
    pose proof (round_div_mono mode (- 10 ^ 27 * 10 ^ (-2 - m)) (scaled a m) _ Hp ltac:(lia)).
    rewrite round_div_exact in * by assumption. lia. }
  assert (ndigits (coef (rescale mode a (-2))) <= prec); [|lia].
  apply ndigits_le_iff; [unfold prec; lia|].
  eapply Z.le_lt_trans; [exact Hc|]. reflexivity.
Qed.

Lemma transfer_tax_returns (m : MunicipalityCode) (p : Decimal) :
  dle p (dec 1 24) = true -> exists t, calculate_transfer_tax p m = Ok t.
Proof.
  intros Hp. unfold calculate_transfer_tax, calculate_transfer_tax_in.
  destruct (tables_get TRANSFER_TAX_TABLES m) as [cfg|] eqn:Hcfg;
    [|destruct (tables_total m) as [c Hc]; congruence].
  destruct (tables_rates_nonneg m cfg Hcfg) as [Hb Ha].
  destruct (bracket_loop_increase _ Hb p (dec 0 0) normal_zero) as [Hb0 Hbn].
  destruct (additional_loop_increase _ Ha p _ Hbn) as [Ha0 _].
  apply quantize_returns.
  - eapply dle_trans; [|exact Ha0]. eapply dle_trans; [|exact Hb0]. reflexivity.
  - eapply dle_trans.
    + apply (additional_loop_mono _ Ha p (dec 1 24)); [exact Hp| |].
      * apply (bracket_loop_mono _ Hb p (dec 1 24)); [exact Hp|apply dle_refl|apply normal_zero].
      * apply bracket_loop_increase; [exact Hb|apply normal_zero].
    + destruct m; injection Hcfg as <-; vm_compute; reflexivity.
Qed.

(** * Further properties of the services *)

(** ** [max] and [min] against the order *)

Lemma dle_false_dlt (a b : Decimal) : dle a b = false -> dlt b a = true.
Proof. intros H. rewrite dlt_dle_false, H. reflexivity. Qed.

Lemma dlt_dle (a b : Decimal) : dlt a b = true -> dle a b = true.
Proof. unfold dlt, dle. destruct (dcompare a b); congruence. Qed.

Lemma dmax_ge_l (a b : Decimal) : dle a (dmax a b) = true.
Proof.
  unfold dmax, dgt. destruct (dlt a b) eqn:E; [apply dlt_dle; exact E | apply dle_refl].
Qed.

Lemma dmax_ge_r (a b : Decimal) : dle b (dmax a b) = true.
Proof.
  unfold dmax, dgt. destruct (dlt a b) eqn:E; [apply dle_refl|].
  rewrite dlt_dle_false in E. destruct (dle b a); [reflexivity | discriminate].
Qed.

Lemma dmax_cases (a b : Decimal) : dmax a b = a \/ dmax a b = b.
Proof. unfold dmax. destruct (dgt b a); auto. Qed.

Lemma dmax_lub (a b c : Decimal) :
  dle a c = true -> dle b c = true -> dle (dmax a b) c = true.
Proof. intros Ha Hb. destruct (dmax_cases a b) as [-> | ->]; assumption. Qed.

Lemma dmax_mono (a a' b b' : Decimal) :
  dle a a' = true -> dle b b' = true -> dle (dmax a b) (dmax a' b') = true.
Proof.
  intros Ha Hb. apply dmax_lub.
  - eapply dle_trans; [exact Ha | apply dmax_ge_l].
  - eapply dle_trans; [exact Hb | apply dmax_ge_r].
Qed.

Lemma dle_antisym_deq (a b : Decimal) : dle a b = true -> dle b a = true -> deq a b = true.
Proof.
  intros H1 H2. set (m := Z.min (expo a) (expo b)).
  apply (dle_scaled a b m) in H1; [|unfold m; lia..].
  apply (dle_scaled b a m) in H2; [|unfold m; lia..].
  apply (deq_scaled a b m); unfold m in *; lia.
Qed.

(** ** [mortgage.py] *)

(** X1: the qualifying rate is never below the floor of 5.25% nor below the
    contract rate plus 2%, it is one of the two, it is the floor (in value)
    for a contract rate of 3.25% or less, and it grows with the contract
    rate. *)
Theorem stress_test_rate_bounds :
  (forall r, dle (dec 525 (-4)) (calculate_stress_test_rate r) = true) /\
  (forall r, dle (dadd r (dec 2 (-2))) (calculate_stress_test_rate r) = true) /\
  (forall r, calculate_stress_test_rate r = dadd r (dec 2 (-2)) \/
             calculate_stress_test_rate r = dec 525 (-4)) /\
  (forall r, dle r (dec 325 (-4)) = true ->
             deq (calculate_stress_test_rate r) (dec 525 (-4)) = true) /\
  (forall r1 r2, dle r1 r2 = true ->
                 dle (calculate_stress_test_rate r1) (calculate_stress_test_rate r2) = true).
Proof.
  unfold calculate_stress_test_rate. cbv zeta. repeat split; intros.
  - apply dmax_ge_r.
  - apply dmax_ge_l.
  - apply dmax_cases.
  - apply dle_antisym_deq; [|apply dmax_ge_r].
    apply dmax_lub; [|apply dle_refl].
    change (dec 525 (-4)) with (dadd (dec 325 (-4)) (dec 2 (-2))) at 1.
    apply dadd_mono; [assumption | apply dle_refl].
  - apply dmax_mono; [|apply dle_refl]. apply dadd_mono; [assumption | apply dle_refl].
Qed.

Lemma stress_test_rate_bounds_witness :
  dle (dec 3 (-2)) (dec 325 (-4)) = true /\
  deq (calculate_stress_test_rate (dec 3 (-2))) (dec 525 (-4)) = true /\
  dle (dec 3 (-2)) (dec 6 (-2)) = true /\
  dle (calculate_stress_test_rate (dec 3 (-2))) (calculate_stress_test_rate (dec 6 (-2))) = true.
Proof.
  assert (H1 : dle (dec 3 (-2)) (dec 325 (-4)) = true) by reflexivity.
  assert (H2 : dle (dec 3 (-2)) (dec 6 (-2)) = true) by reflexivity.
  destruct stress_test_rate_bounds as (_ & _ & _ & Hfloor & Hmono).
  exact (conj H1 (conj (Hfloor _ H1) (conj H2 (Hmono _ _ H2)))).
Defined.

Lemma rescale_coef_nonneg (mode : rounding) (a : Decimal) (e : Z) :
  0 <= coef a -> 0 <= coef (rescale mode a e).
Proof.
  intros Ha. unfold rescale. destruct (Z.leb_spec e (expo a)); cbn [coef].
  - pose proof (pow10_pos (expo a - e) ltac:(lia)). nia.
  - apply round_div_sign_nonneg; [apply pow10_pos; lia | assumption].
Qed.

Lemma quantize_coef_nonneg (a p q : Decimal) (mode : rounding) :
  quantize a p mode = Ok q -> 0 <= coef a -> 0 <= coef q.
Proof.
  unfold quantize. intros H Ha. apply quantize_exp_Ok in H. subst q.
  apply rescale_coef_nonneg. assumption.
Qed.

Lemma dlt_D0_false (a : Decimal) : dlt a D0 = false -> 0 <= coef a.
Proof.
  intros H. destruct (Z.le_gt_cases 0 (coef a)) as [|Hlt]; [assumption|].
  apply dlt_D0 in Hlt. congruence.
Qed.

(** The amortization loop hands back a balance that is not negative, once
    it has made a turn. *)
Lemma remaining_balance_loop_nonneg (months : nat) (payment rate : Decimal) :
  forall balance b,
    remaining_balance_loop months payment rate balance = inr b ->
    (0 < months)%nat \/ 0 <= coef balance ->
    0 <= coef b.
Proof.
  induction months as [|k IH]; intros balance b; cbn [remaining_balance_loop].
  - intros H [Hm|Hb]; [lia|]. injection H as <-. exact Hb.
  - destruct (dlt _ D0) eqn:E; [discriminate|].
    intros H _. apply (IH _ _ H). right. apply dlt_D0_false. exact E.
Qed.

Lemma remaining_balance_loop_early (months : nat) (payment rate : Decimal) :
  forall balance z,
    remaining_balance_loop months payment rate balance = inl z -> z = dec 0 0.
Proof.
  induction months as [|k IH]; intros balance z; cbn [remaining_balance_loop].
  - discriminate.
  - destruct (dlt _ D0); [intros H; injection H as <-; reflexivity | apply IH].
Qed.

Section MortgageProperties.
Context {F : PyFloat}.

(** X2: [calculate_remaining_balance] never returns a negative balance when
    at least one month has elapsed, or when the principal is not negative:
    a balance that falls below zero during the simulation is returned as
    [Decimal("0")]; with no month elapsed the principal itself comes back,
    quantized half-up. *)
Theorem remaining_balance_never_negative
  (principal rate : Decimal) (years months : Z) (q : Decimal) :
  calculate_remaining_balance principal rate years months = Ok q ->
  (1 <= months \/ 0 <= coef principal -> 0 <= coef q) /\
  (months <= 0 -> half_up_cent q principal).
Proof.
  unfold calculate_remaining_balance. intros H. do 2 inv_bind H.
  destruct (remaining_balance_loop _ _ _ _) as [z|b] eqn:El.
  - pose proof (remaining_balance_loop_early _ _ _ _ _ El) as Hz. subst z.
    injection H as <-. split; [intros _; simpl; lia|].
    intros Hm. replace (Z.to_nat months) with O in El by lia. discriminate El.
  - split.
    + intros Hpos. apply (quantize_coef_nonneg _ _ _ _ H).
      apply (remaining_balance_loop_nonneg _ _ _ _ _ El).
      destruct Hpos as [Hm|Hp]; [left; lia | right; exact Hp].
    + intros Hm. replace (Z.to_nat months) with O in El by lia.
      cbn [remaining_balance_loop] in El. injection El as <-.
      apply quantize_half_up. exact H.
Qed.

(** X3: [calculate_dcr] guards its division: for a debt service that is zero
    or negative it returns [Decimal("0")] instead of dividing, and no input
    makes it raise decimal.DivisionByZero.  On operands of moderate size the
    only exception it can raise is the decimal.InvalidOperation of a
    quotient too large for the quantize.  (Beyond that range the quotient
    itself can pass the exponent limit of the context, which raises
    decimal.Overflow.) *)
Theorem dcr_guards_division (noi ads : Decimal) :
  (dle ads D0 = true -> calculate_dcr noi ads = Ok (dec 0 0)) /\
  calculate_dcr noi ads <> Raise DivisionByZero /\
  (moderate noi = true -> moderate ads = true ->
   forall e, calculate_dcr noi ads = Raise e -> e = InvalidOperation).
Proof.
  assert (Hinv : forall e, calculate_dcr noi ads = Raise e -> e = InvalidOperation).
  { unfold calculate_dcr.
    destruct (dle ads D0) eqn:E; [discriminate|].
    apply dle_D0_false in E.
    destruct (ddiv_Ok noi ads ltac:(lia)) as [x ->]. cbn [bind].
    unfold quantize, quantize_exp. intros e.
    repeat match goal with |- context [if ?c then _ else _] => destruct c end;
      try discriminate; intros H; injection H as <-; reflexivity. }
  split; [unfold calculate_dcr; intros ->; reflexivity|].
  split; [intros H; apply Hinv in H; discriminate|].
  intros _ _. exact Hinv.
Qed.

End MortgageProperties.

Lemma dcr_guards_division_witness :
  moderate (dec 1 30) = true /\ moderate (dec 2 0) = true /\
  calculate_dcr (dec 1 30) (dec 2 0) = Raise InvalidOperation /\
  forall e, calculate_dcr (dec 1 30) (dec 2 0) = Raise e -> e = InvalidOperation.
Proof.
  split; [reflexivity|]. split; [reflexivity|]. split; [vm_compute; reflexivity|].
  exact (proj2 (proj2 (dcr_guards_division (dec 1 30) (dec 2 0))) eq_refl eq_refl).
Defined.

(** ** [transfer_tax.py] *)

Lemma dle_dgt_false (a b c : Decimal) :
  dle a b = true -> dle b c = true -> dgt a c = false.
Proof.
  intros H1 H2. unfold dgt. rewrite dlt_dle_false.
  rewrite (dle_trans _ _ _ H1 H2). reflexivity.
Qed.

Lemma additional_loop_below (p : Decimal) (adds : list AdditionalRate) :
  Forall (fun a => dle p (threshold a) = true) adds ->
  forall acc, additional_loop p adds acc = acc.
Proof.
  induction 1 as [|a rest Ha _ IH]; intros acc; cbn [additional_loop]; [reflexivity|].
  cbv zeta. rewrite (dle_dgt_false _ _ _ Ha (dle_refl _)). apply IH.
Qed.

(** X4: a price that is zero or negative owes no duty: in every
    municipality the bracket loop breaks at the first bracket, no surcharge
    applies, and [calculate_transfer_tax] returns [Decimal("0.00")]. *)
Theorem transfer_tax_zero_below_zero (p : Decimal) (m : MunicipalityCode) :
  dle p D0 = true -> calculate_transfer_tax p m = Ok (dec 0 (-2)).
Proof.
  intros Hp. unfold calculate_transfer_tax, calculate_transfer_tax_in.
  destruct (tables_total m) as [cfg Hcfg]. rewrite Hcfg. cbv zeta.
  assert (Hb : bracket_loop p (brackets cfg) (dec 0 0) = dec 0 0).
  { assert (Hfirst : exists b rest, brackets cfg = b :: rest /\ bracket_min b = D0)
      by (destruct m; injection Hcfg as <-; do 2 eexists; split; reflexivity).
    destruct Hfirst as (b & rest & -> & Hmin).
    cbn [bracket_loop]. rewrite Hmin, Hp. reflexivity. }
  assert (Ha : additional_loop p (additional_list cfg) (dec 0 0) = dec 0 0).
  { apply additional_loop_below.
    destruct m; injection Hcfg as <-; repeat constructor.
    apply (dle_trans _ _ _ Hp). reflexivity. }
  rewrite Hb, Ha. reflexivity.
Qed.

Lemma transfer_tax_zero_below_zero_witness :
  calculate_transfer_tax (dec (-5) 3) LAVAL = Ok (dec 0 (-2)).
Proof. apply transfer_tax_zero_below_zero. reflexivity. Defined.

(** X5: the transfer duty is never negative, whatever the price and the
    municipality. *)
Theorem transfer_tax_never_negative (p t : Decimal) (m : MunicipalityCode) :
  calculate_transfer_tax p m = Ok t -> 0 <= coef t.
Proof.
  unfold calculate_transfer_tax, calculate_transfer_tax_in.
  destruct (tables_get TRANSFER_TAX_TABLES m) as [cfg|] eqn:Hcfg; [|discriminate].
  cbv zeta. intros H.
  destruct (tables_rates_nonneg m cfg Hcfg) as [Hb Ha].
  destruct (bracket_loop_increase _ Hb p (dec 0 0) normal_zero) as [Hb0 Hbn].
  destruct (additional_loop_increase _ Ha p _ Hbn) as [Ha0 _].
  apply (quantize_coef_nonneg _ _ _ _ H).
  apply dge_D0. unfold dge. eapply dle_trans; [|exact Ha0].
  eapply dle_trans; [|exact Hb0]. reflexivity.
Qed.

Lemma transfer_tax_never_negative_witness :
  exists t, calculate_transfer_tax (dec 425000 0) MONTREAL = Ok t /\ 0 <= coef t.
Proof.
  eexists.
  match goal with
  | |- ?A /\ _ => assert (E : A) by (vm_compute; reflexivity)
  end.
  split; [exact E|]. exact (transfer_tax_never_negative _ _ _ E).
Defined.

(** X6: [TRANSFER_TAX_TABLES] has a grid for each of the eight municipality
    codes, so [calculate_transfer_tax] never raises its ValueError; it
    returns on every price up to [10 ^ 24], and on a price of moderate size
    the only exception it can raise is the decimal.InvalidOperation of the
    final quantize.  (A price at the exponent limit of the context, such as
    [Decimal("1E+1000000")], raises decimal.Overflow in the subtraction of
    the Montréal surcharge.) *)
Theorem transfer_tax_total_on_prices (p : Decimal) (m : MunicipalityCode) :
  (forall msg, calculate_transfer_tax p m <> Raise (ValueError msg)) /\
  (moderate p = true ->
   forall e, calculate_transfer_tax p m = Raise e -> e = InvalidOperation) /\
  (dle p (dec 1 24) = true -> exists t, calculate_transfer_tax p m = Ok t).
Proof.
  assert (Hinv : forall e, calculate_transfer_tax p m = Raise e -> e = InvalidOperation).
  { unfold calculate_transfer_tax, calculate_transfer_tax_in.
    destruct (tables_total m) as [cfg ->]. cbv zeta.
    unfold quantize, quantize_exp. intros e.
    repeat match goal with |- context [if ?c then _ else _] => destruct c end;
      try discriminate; intros H; injection H as <-; reflexivity. }
  split; [intros msg H; apply Hinv in H; discriminate|].
  split; [intros _; exact Hinv | apply transfer_tax_returns].
Qed.

Lemma transfer_tax_total_on_prices_witness :
  (moderate (dec 1 24) = true /\ dle (dec 1 24) (dec 1 24) = true) /\
  (exists t, calculate_transfer_tax (dec 1 24) GATINEAU = Ok t) /\
  (forall e, calculate_transfer_tax (dec 1 24) GATINEAU = Raise e -> e = InvalidOperation).
Proof.
  split; [split; reflexivity|]. split.
  - exact (proj2 (proj2 (transfer_tax_total_on_prices (dec 1 24) GATINEAU)) eq_refl).
  - exact (proj1 (proj2 (transfer_tax_total_on_prices (dec 1 24) GATINEAU)) eq_refl).
Defined.

(** X7: only the first two characters of a postal code decide the
    municipality: the slice [[:3]] keeps a third character that no rule
    reads, and two codes that agree on their first two characters get the
    same municipality. *)
Theorem postal_code_first_two_characters (s t : string) :
  take 2 s = take 2 t ->
  get_municipality_from_postal_code s = get_municipality_from_postal_code t.
Proof.
  assert (H2 : forall u, get_municipality_from_postal_code u
                         = get_municipality_from_postal_code (take 2 u)).
  { intros u. destruct u as [|c1 [|c2 [|c3 rest]]]; reflexivity. }
  intros H. rewrite (H2 s), (H2 t), H. reflexivity.
Qed.

Lemma postal_code_first_two_characters_witness :
  get_municipality_from_postal_code "h7w 0b2" = get_municipality_from_postal_code "h7".
Proof. apply postal_code_first_two_characters. reflexivity. Defined.

(** ** [brrrr_engine.py]: the insurance decision list *)

(** X8: the decision table of [calculate_cmhc_premium].  A premium is
    returned exactly when the down payment is under 20%, the buyer occupies
    the building, it has at most 4 units and the price is at most 999 999;
    premium and rate come together; the rate is 2.8% from 15% down, 3.1% from
    10% and 4% below, with no lower bound on the down payment: under 5%, and
    even negative, it is insured at 4%. *)
Theorem cmhc_decision_table
  (loan dp : Decimal) (occ : bool) (units : Z) (price : Decimal)
  (premium rate : option Decimal) (notes : list string) :
  calculate_cmhc_premium loan dp occ units price = Ok (premium, rate, notes) ->
  (premium <> None <->
     dlt dp (dec 20 (-2)) = true /\ occ = true /\ units <= 4 /\
     dle price (dec 999999 0) = true) /\
  (premium = None <-> rate = None) /\
  (forall r, rate = Some r ->
     r = if dge dp (dec 15 (-2)) then dec 28 (-3)
         else if dge dp (dec 10 (-2)) then dec 31 (-3)
         else dec 4 (-2)).
Proof.
  unfold calculate_cmhc_premium. cbv zeta. unfold dge, dgt.
  rewrite !(dlt_dle_false dp), (dlt_dle_false (dec 999999 0)).
  destruct (dle (dec 20 (-2)) dp) eqn:E20; cbn [negb].
  { intros H. apply Ok_triple_inj in H. destruct H as (-> & -> & _).
    repeat split; try congruence; intros; intuition congruence. }
  destruct occ; cbn [negb].
  2:{ intros H. apply Ok_triple_inj in H. destruct H as (-> & -> & _).
      repeat split; try congruence; intros; intuition congruence. }
  destruct (Z.gtb_spec units 4) as [Hu|Hu].
  { intros H. apply Ok_triple_inj in H. destruct H as (-> & -> & _).
    repeat split; try congruence; intros; try intuition congruence.
    intuition lia. }
  destruct (dle price (dec 999999 0)) eqn:Ep; cbn [negb].
  2:{ intros H. apply Ok_triple_inj in H. destruct H as (-> & -> & _).
      repeat split; try congruence; intros; intuition congruence. }
  destruct (dle (dec 15 (-2)) dp); [|destruct (dle (dec 10 (-2)) dp)];
    intros H; inv_bind H; apply Ok_triple_inj in H; destruct H as (-> & -> & _);
    (repeat split; try congruence; try lia; intros; try intuition congruence).
Qed.

Lemma cmhc_decision_table_witness :
  exists q r notes,
    calculate_cmhc_premium (dec 485000 0) (dec 3 (-2)) true 2 (dec 500000 0)
      = Ok (Some q, Some r, notes) /\ r = dec 4 (-2).
Proof.
  do 3 eexists.
  match goal with
  | |- ?A /\ _ => assert (E : A) by (vm_compute; reflexivity)
  end.
  split; [exact E|].
  exact (proj2 (proj2 (cmhc_decision_table _ _ _ _ _ _ _ _ E)) _ eq_refl).
Defined.

(** ** What can raise: only the quantize *)

Lemma invalid_only_Ok {A : Type} (a : A) : invalid_operation_only (Ok a).
Proof. intros e H. discriminate. Qed.

Lemma invalid_only_bind {A B : Type} (m : result A) (k : A -> result B) :
  invalid_operation_only m -> (forall a, m = Ok a -> invalid_operation_only (k a)) ->
  invalid_operation_only (bind m k).
Proof.
  intros Hm Hk e. destruct m as [a|e']; simpl.
  - apply Hk. reflexivity.
  - intros H. injection H as <-. apply Hm. reflexivity.
Qed.

Lemma invalid_only_quantize (a p : Decimal) (mode : rounding) :
  invalid_operation_only (quantize a p mode).
Proof.
  intros e. unfold quantize, quantize_exp.
  repeat match goal with |- context [if ?c then _ else _] => destruct c end;
    try discriminate; intros H; injection H as <-; reflexivity.
Qed.

Lemma invalid_only_quantize_default (a p : Decimal) :
  invalid_operation_only (quantize_default a p).
Proof. apply invalid_only_quantize. Qed.

Lemma invalid_only_ddiv (a b : Decimal) :
  coef b <> 0 -> invalid_operation_only (ddiv a b).
Proof. intros Hb e H. destruct (ddiv_Ok a b Hb) as [q Hq]. congruence. Qed.

Ltac invalid_only_step :=
  lazymatch goal with
  | |- invalid_operation_only (Ok _) => apply invalid_only_Ok
  | |- invalid_operation_only (quantize _ _ _) => apply invalid_only_quantize
  | |- invalid_operation_only (quantize_default _ _) => apply invalid_only_quantize_default
  | |- invalid_operation_only (bind _ _) => apply invalid_only_bind; [|intros ? ?]
  | |- invalid_operation_only (ddiv _ _) => apply invalid_only_ddiv
  | |- invalid_operation_only (if ?c then _ else _) => destruct c eqn:?
  | |- invalid_operation_only (let x := ?v in @?b x) =>
      let y := fresh x in
      pose (y := v); change (invalid_operation_only (b y)); cbv beta
  end.

(** ** More of the order *)

Lemma dmul_comm (a b : Decimal) : dmul a b = dmul b a.
Proof. unfold dmul. rewrite (Z.mul_comm (coef a)), (Z.add_comm (expo a)). reflexivity. Qed.

Lemma dmul_mono_r (a r r' : Decimal) :
  0 <= coef a -> dle r r' = true -> dle (dmul a r) (dmul a r') = true.
Proof. intros Ha Hr. rewrite !(dmul_comm a). apply dmul_mono_l; assumption. Qed.

Lemma dmax_zero_nonneg (x : Decimal) : 0 <= coef (dmax (dec 0 0) x).
Proof.
  unfold dmax. destruct (dgt x (dec 0 0)) eqn:E; [|simpl; lia].
  apply dgt_D0 in E. lia.
Qed.

Lemma quantize_default_coef_nonneg (a p q : Decimal) :
  quantize_default a p = Ok q -> 0 <= coef a -> 0 <= coef q.
Proof. apply quantize_coef_nonneg. Qed.

Lemma quantize_default_mono (a b qa qb p : Decimal) :
  dle a b = true -> quantize_default a p = Ok qa -> quantize_default b p = Ok qb ->
  dle qa qb = true.
Proof. apply quantize_mono. Qed.

Lemma quantize_default_zero (a p q : Decimal) :
  quantize_default a p = Ok q -> coef a = 0 -> q = mkDecimal 0 (expo p).
Proof.
  unfold quantize_default, quantize, quantize_exp. intros H Ha.
  rewrite Ha in H. cbn in H. congruence.
Qed.

(** ** [brrrr_engine.py]: the HELOC capacity *)

(** The two loan-to-value ratios of [calculate_heloc_capacity]. *)
Lemma heloc_ltv_inv (i : HelocCapacityInput.t) (r : HelocCapacityResult.t)
  (l : HelocLocals) :
  calculate_heloc_capacity_trace i = Ok (r, l) ->
  dgt (HelocCapacityInput.current_property_value i) D0 = false ->
  HelocCapacityResult.current_ltv r = dec 0 (-4) /\
  HelocCapacityResult.after_heloc_ltv r = dec 0 (-4).
Proof.
  unfold calculate_heloc_capacity_trace. intros H Hv.
  rewrite !Hv in H. do 2 inv_bind H. injection E as <-. injection E0 as <-.
  do 6 inv_bind H.
  inv_bind H. apply quantize_default_zero in E5; [|reflexivity].
  inv_bind H. apply quantize_default_zero in E6; [|reflexivity].
  apply Ok_pair_inj in H. destruct H as [-> _].
  cbn [HelocCapacityResult.current_ltv HelocCapacityResult.after_heloc_ltv].
  subst. split; reflexivity.
Qed.

(** X9: [calculate_heloc_capacity] guards both divisions by the property
    value: no input makes it raise decimal.DivisionByZero, and for a
    property value that is zero (or negative) both loan-to-value ratios are
    reported as [Decimal("0.0000")].  On operands of moderate size the only
    exception it can raise is the decimal.InvalidOperation of a quantize.
    (Beyond that range a sum of two balances can pass the exponent limit of
    the context, which raises decimal.Overflow.) *)
Theorem heloc_capacity_guards_division (i : HelocCapacityInput.t) :
  calculate_heloc_capacity i <> Raise DivisionByZero /\
  (moderate_heloc_input i = true ->
   forall e, calculate_heloc_capacity i = Raise e -> e = InvalidOperation) /\
  (forall r, calculate_heloc_capacity i = Ok r ->
     dle (HelocCapacityInput.current_property_value i) D0 = true ->
     HelocCapacityResult.current_ltv r = dec 0 (-4) /\
     HelocCapacityResult.after_heloc_ltv r = dec 0 (-4)).
Proof.
  assert (Hinv : forall e, calculate_heloc_capacity i = Raise e -> e = InvalidOperation).
  { assert (Ht : invalid_operation_only (calculate_heloc_capacity_trace i)).
    { unfold calculate_heloc_capacity_trace. repeat invalid_only_step;
        match goal with
        | Hg : dgt _ D0 = true |- _ => apply dgt_D0 in Hg; lia
        end. }
    intros e. rewrite calculate_heloc_capacity_of_trace.
    destruct (calculate_heloc_capacity_trace i) as [[r l]|e'] eqn:E; [discriminate|].
    intros H. injection H as <-. apply Ht. reflexivity. }
  split; [intros H; apply Hinv in H; discriminate|].
  split; [intros _; exact Hinv|].
  intros r. rewrite calculate_heloc_capacity_of_trace.
  destruct (calculate_heloc_capacity_trace i) as [[r' l]|e'] eqn:E; [|discriminate].
  intros H Hv. injection H as <-. apply (heloc_ltv_inv i r' l E).
  apply dgt_D0_false. apply dle_D0. exact Hv.
Qed.

(** X10: for a property value that is not negative, the amounts of
    [calculate_heloc_capacity] are ordered as the two ceilings are: the
    rotating ceiling (65%) is at most the total ceiling (80%), the equity
    available at the rotating ceiling is at most the equity available at the
    total ceiling, and none of the available amounts, nor the recommended
    limit, is negative. *)
Theorem heloc_capacity_ordering (i : HelocCapacityInput.t) (r : HelocCapacityResult.t) :
  0 <= coef (HelocCapacityInput.current_property_value i) ->
  calculate_heloc_capacity i = Ok r ->
  dle (HelocCapacityResult.max_rotating_credit r)
      (HelocCapacityResult.max_total_borrowing r) = true /\
  dle (HelocCapacityResult.available_equity_at_rotating r)
      (HelocCapacityResult.available_equity_at_total r) = true /\
  dle (HelocCapacityResult.recommended_heloc_limit r)
      (HelocCapacityResult.available_equity_at_total r) = true /\
  0 <= coef (HelocCapacityResult.available_equity_at_rotating r) /\
  0 <= coef (HelocCapacityResult.available_equity_at_total r) /\
  0 <= coef (HelocCapacityResult.recommended_heloc_limit r).
Proof.
  intros Hv. rewrite calculate_heloc_capacity_of_trace.
  destruct (calculate_heloc_capacity_trace i) as [[r' l]|e'] eqn:E; [|discriminate].
  intros H. injection H as ->.
  pose proof (heloc_trace_inv i r l E) as Hinv. cbv zeta in Hinv.
  destruct Hinv as (Hmt & Hmr & _ & Har & Hat & _ & Hrec & Qmt & Qmr & _ & Qar & Qat & Qrec).
  assert (Hceil : dle (max_rotating_credit l) (max_total_borrowing l) = true).
  { rewrite Hmt, Hmr. apply dmul_mono_r; [exact Hv | reflexivity]. }
  assert (Havail : dle (available_at_rotating l) (available_at_total l) = true).
  { rewrite Har, Hat. apply dmax_mono; [apply dle_refl|].
    apply dsub_mono_l. exact Hceil. }
  assert (Hrec0 : 0 <= coef (recommended_heloc_limit l)).
  { rewrite Hrec. destruct (HelocCapacityResult.can_access_rotating r); [|simpl; lia].
    rewrite Har. apply dmax_zero_nonneg. }
  assert (Hrecle : dle (recommended_heloc_limit l) (available_at_total l) = true).
  { rewrite Hrec. destruct (HelocCapacityResult.can_access_rotating r); [exact Havail|].
    rewrite Hat. apply dmax_ge_l. }
  repeat split.
  - exact (quantize_default_mono _ _ _ _ _ Hceil Qmr Qmt).
  - exact (quantize_default_mono _ _ _ _ _ Havail Qar Qat).
  - exact (quantize_default_mono _ _ _ _ _ Hrecle Qrec Qat).
  - apply (quantize_default_coef_nonneg _ _ _ Qar). rewrite Har. apply dmax_zero_nonneg.
  - apply (quantize_default_coef_nonneg _ _ _ Qat). rewrite Hat. apply dmax_zero_nonneg.
  - apply (quantize_default_coef_nonneg _ _ _ Qrec). exact Hrec0.
Qed.

Lemma heloc_capacity_guards_division_witness :
  moderate_heloc_input (HelocCapacityInput.mk (dec 0 0) (dec 1000 0) (dec 0 0)) = true /\
  (forall e,
     calculate_heloc_capacity (HelocCapacityInput.mk (dec 0 0) (dec 1000 0) (dec 0 0))
     = Raise e -> e = InvalidOperation) /\
  exists r,
    calculate_heloc_capacity (HelocCapacityInput.mk (dec 0 0) (dec 1000 0) (dec 0 0)) = Ok r /\
    HelocCapacityResult.current_ltv r = dec 0 (-4) /\
    HelocCapacityResult.after_heloc_ltv r = dec 0 (-4).
Proof.
  split; [reflexivity|]. split.
  { exact (proj1 (proj2 (heloc_capacity_guards_division
                           (HelocCapacityInput.mk (dec 0 0) (dec 1000 0) (dec 0 0))))
             eq_refl). }
  eexists.
  match goal with
  | |- ?A /\ _ => assert (E : A) by (vm_compute; reflexivity)
  end.
  split; [exact E|].
  exact (proj2 (proj2 (heloc_capacity_guards_division _)) _ E eq_refl).
Defined.

Lemma heloc_capacity_ordering_witness :
  exists r,
    calculate_heloc_capacity
      (HelocCapacityInput.mk (dec 500000 0) (dec 250000 0) (dec 20000 0)) = Ok r /\
    dle (HelocCapacityResult.available_equity_at_rotating r)
        (HelocCapacityResult.available_equity_at_total r) = true.
Proof.
  eexists.
  match goal with
  | |- ?A /\ _ => assert (E : A) by (vm_compute; reflexivity)
  end.
  split; [exact E|].
  assert (Hv : 0 <= coef (HelocCapacityInput.current_property_value
                            (HelocCapacityInput.mk (dec 500000 0) (dec 250000 0) (dec 20000 0))))
    by (simpl; lia).
  exact (proj1 (proj2 (heloc_capacity_ordering _ _ Hv E))).
Defined.

(** ** [brrrr_engine.py]: the records of a run *)

Lemma dsub_coef_nonpos (a b : Decimal) : dle a b = true -> coef (dsub a b) <= 0.
Proof.
  intros H. set (m := Z.min (expo a) (expo b)).
  apply (dle_scaled a b m) in H; [|unfold m; lia..].
  pose proof (dsub_expo a b) as He.
  pose proof (scaled_pos (dsub a b) m He) as Hs.
  rewrite dsub_scaled in Hs by (unfold m; lia).
  pose proof (round_sig_mono (scaled a m - scaled b m) 0 ltac:(lia)) as Hr.
  rewrite round_sig_0 in Hr. lia.
Qed.

(** [max(0, a - b) > 0] exactly when [b < a]: the context rounding of the
    difference keeps its sign. *)
Lemma dmax_zero_sub_pos (a b : Decimal) :
  dgt (dmax (dec 0 0) (dsub a b)) D0 = dlt b a.
Proof.
  destruct (dlt b a) eqn:E.
  - pose proof (dsub_coef_pos a b E) as Hp.
    unfold dmax. change (dgt (dsub a b) (dec 0 0)) with (dgt (dsub a b) D0).
    rewrite (proj2 (dgt_D0 (dsub a b)) Hp). apply dgt_D0. exact Hp.
  - rewrite dlt_dle_false in E. destruct (dle a b) eqn:Ele; [|discriminate].
    pose proof (dsub_coef_nonpos a b Ele) as Hn.
    unfold dmax. change (dgt (dsub a b) (dec 0 0)) with (dgt (dsub a b) D0).
    rewrite (proj2 (dgt_D0_false (dsub a b)) Hn). reflexivity.
Qed.

Lemma dle_D0_dgt (a : Decimal) : dle a D0 = negb (dgt a D0).
Proof. unfold dgt. rewrite dlt_dle_false, negb_involutive. reflexivity. Qed.

Lemma dmax_zero_sub_le (a b : Decimal) :
  dle (dmax (dec 0 0) (dsub a b)) D0 = dle a b.
Proof.
  rewrite dle_D0_dgt, dmax_zero_sub_pos, dlt_dle_false, negb_involutive. reflexivity.
Qed.

Section EngineProperties.
Context {F : PyFloat}.

Lemma calculate_brrrr_trace_of (i : PropertyFinancialsInput.t)
  (r : BrrrrCalculationResult.t) :
  calculate_brrrr i = Ok r -> exists t, calculate_brrrr_trace i = Ok (r, t).
Proof.
  rewrite calculate_brrrr_of_trace.
  destruct (calculate_brrrr_trace i) as [[r' t]|e]; [|discriminate].
  intros H. injection H as ->. eauto.
Qed.

(** What the KPI record emits, against the locals of the run. *)
Lemma kpis_phase_inv (i : PropertyFinancialsInput.t)
  (acq : AcquisitionLocals) (reno : RenovationLocals) (rent : RentalLocals)
  (refi : RefinanceLocals) (w w' : list string) (k : KPIsResult.t) (l : KPIsLocals) :
  kpis_phase i acq reno rent refi w = Ok (k, l, w') ->
  quantize_default (total_cash_invested l) PRECISION
    = Ok (KPIsResult.total_cash_invested k) /\
  quantize_default (cash_extracted l) PRECISION
    = Ok (KPIsResult.cash_extracted_at_refi k) /\
  quantize_default (equity_left_in_deal l) PRECISION
    = Ok (KPIsResult.equity_left_in_deal k) /\
  quantize_default (monthly_noi rent) PRECISION = Ok (KPIsResult.monthly_noi k) /\
  quantize_default (total_monthly_debt_service refi) PRECISION
    = Ok (KPIsResult.monthly_debt_service k) /\
  quantize_default (monthly_cashflow l) PRECISION = Ok (KPIsResult.monthly_cashflow k) /\
  quantize_default (annual_cashflow l) PRECISION = Ok (KPIsResult.annual_cashflow k) /\
  monthly_cashflow l = dsub (monthly_noi rent) (total_monthly_debt_service refi) /\
  annual_cashflow l = dmul (monthly_cashflow l) (dec 12 0) /\
  KPIsResult.return_on_equity k = KPIsResult.cash_on_cash_return k /\
  KPIsResult.stress_test_rate k
    = calculate_stress_test_rate (PropertyFinancialsInput.refinance_rate i) /\
  calculate_dcr (annual_noi rent) (dmul (total_monthly_debt_service refi) (dec 12 0))
    = Ok (KPIsResult.debt_coverage_ratio k) /\
  KPIsResult.meets_min_dcr k
    = dge (KPIsResult.debt_coverage_ratio k) BSIF_MIN_DCR_COMMERCIAL /\
  calculate_monthly_mortgage_payment (new_mortgage_amount refi)
      (KPIsResult.stress_test_rate k) (PropertyFinancialsInput.refinance_amort_years i)
    = Ok (KPIsResult.monthly_payment_at_stress_rate k) /\
  KPIsResult.passes_stress_test k
    = dge (dsub (monthly_noi rent) (KPIsResult.monthly_payment_at_stress_rate k)) D0.
Proof.
  unfold kpis_phase. intros H.
  repeat inv_step H. apply Ok_triple_inj in H. destruct H as [-> [-> _]].
  cbn [total_cash_invested cash_extracted equity_left_in_deal monthly_cashflow
       annual_cashflow
       KPIsResult.total_cash_invested KPIsResult.cash_extracted_at_refi
       KPIsResult.equity_left_in_deal KPIsResult.monthly_noi
       KPIsResult.monthly_debt_service KPIsResult.monthly_cashflow
       KPIsResult.annual_cashflow KPIsResult.return_on_equity
       KPIsResult.cash_on_cash_return KPIsResult.stress_test_rate
       KPIsResult.debt_coverage_ratio KPIsResult.meets_min_dcr
       KPIsResult.monthly_payment_at_stress_rate KPIsResult.passes_stress_test].
  repeat split; try reflexivity; assumption.
Qed.

Lemma kpis_cap_rate_zero (i : PropertyFinancialsInput.t)
  (acq : AcquisitionLocals) (reno : RenovationLocals) (rent : RentalLocals)
  (refi : RefinanceLocals) (w w' : list string) (k : KPIsResult.t) (l : KPIsLocals) :
  kpis_phase i acq reno rent refi w = Ok (k, l, w') ->
  dgt (PropertyFinancialsInput.after_repair_value i) D0 = false ->
  KPIsResult.cap_rate k = dec 0 0.
Proof.
  unfold kpis_phase. intros H Harv.
  repeat inv_step H. apply Ok_triple_inj in H. destruct H as [-> _].
  cbn [KPIsResult.cap_rate].
  match goal with
  | E : (if dgt ?a D0 then _ else Ok (dec 0 0)) = Ok ?c |- ?c = _ =>
      change (dgt a D0) with (dgt (PropertyFinancialsInput.after_repair_value i) D0) in E;
      rewrite Harv in E; injection E as <-; reflexivity
  end.
Qed.

Lemma rental_phase_inv (i : PropertyFinancialsInput.t)
  (r : RentalResult.t) (l : RentalLocals) :
  rental_phase i = Ok (r, l) ->
  quantize_default (monthly_noi l) PRECISION = Ok (RentalResult.monthly_noi r) /\
  quantize_default (annual_noi l) PRECISION = Ok (RentalResult.annual_noi r) /\
  quantize_default (effective_gross_income l) PRECISION
    = Ok (RentalResult.effective_gross_income r) /\
  annual_noi l = dmul (monthly_noi l) (dec 12 0) /\
  monthly_noi l = dsub (effective_gross_income l) (total_operating_expenses l) /\
  gross_monthly_rent l = PropertyFinancialsInput.projected_monthly_rent i /\
  RentalResult.gross_monthly_rent r = PropertyFinancialsInput.projected_monthly_rent i.
Proof.
  unfold rental_phase. intros H.
  repeat inv_step H. apply Ok_pair_inj in H. destruct H as [-> ->].
  cbn [monthly_noi annual_noi effective_gross_income total_operating_expenses
       gross_monthly_rent
       RentalResult.monthly_noi RentalResult.annual_noi
       RentalResult.effective_gross_income RentalResult.gross_monthly_rent].
  repeat split; try reflexivity; assumption.
Qed.

Lemma refinance_phase_inv (i : PropertyFinancialsInput.t)
  (acq : AcquisitionLocals) (reno : RenovationLocals)
  (r : RefinanceResult.t) (l : RefinanceLocals) :
  refinance_phase i acq reno = Ok (r, l) ->
  let arv := PropertyFinancialsInput.after_repair_value i in
  new_mortgage_amount l = dmul arv BSIF_REFINANCE_LTV_MAX /\
  heloc_portion l
    = dmin (dmul arv BSIF_REFINANCE_LTV_MAX) (dmul arv BSIF_HELOC_ROTATING_LTV_MAX) /\
  amortized_portion l = dsub (new_mortgage_amount l) (heloc_portion l) /\
  calculate_interest_only_payment (heloc_portion l)
      (PropertyFinancialsInput.refinance_rate i)
    = Ok (RefinanceResult.monthly_heloc_payment r) /\
  (if dgt (amortized_portion l) D0 then
     calculate_monthly_mortgage_payment (amortized_portion l)
       (PropertyFinancialsInput.refinance_rate i)
       (PropertyFinancialsInput.refinance_amort_years i)
   else Ok (dec 0 0)) = Ok (RefinanceResult.monthly_mortgage_payment r) /\
  total_monthly_debt_service l
    = dadd (RefinanceResult.monthly_heloc_payment r)
           (RefinanceResult.monthly_mortgage_payment r) /\
  net_cash_out l = dsub (gross_cash_out l) (dec 1600 0) /\
  gross_cash_out l
    = dsub (new_mortgage_amount l)
           (dadd (initial_mortgage_amount acq) (total_reno_budget reno)) /\
  quantize_default (new_mortgage_amount l) PRECISION
    = Ok (RefinanceResult.new_mortgage_amount r) /\
  quantize_default (heloc_portion l) PRECISION
    = Ok (RefinanceResult.heloc_portion_amount r) /\
  quantize_default (amortized_portion l) PRECISION
    = Ok (RefinanceResult.amortized_portion_amount r) /\
  quantize_default (total_monthly_debt_service l) PRECISION
    = Ok (RefinanceResult.total_monthly_debt_service r) /\
  quantize_default (net_cash_out l) PRECISION = Ok (RefinanceResult.net_cash_out r).
Proof.
  unfold refinance_phase. intros H.
  repeat inv_step H. apply Ok_pair_inj in H. destruct H as [-> ->].
  cbv zeta.
  cbn [new_mortgage_amount heloc_portion amortized_portion total_monthly_debt_service
       net_cash_out gross_cash_out
       RefinanceResult.monthly_heloc_payment RefinanceResult.monthly_mortgage_payment
       RefinanceResult.new_mortgage_amount RefinanceResult.heloc_portion_amount
       RefinanceResult.amortized_portion_amount
       RefinanceResult.total_monthly_debt_service RefinanceResult.net_cash_out].
  repeat split; try reflexivity; assumption.
Qed.

End EngineProperties.

(** ** [brrrr_engine.py]: the infinite-return rule and the equity emitted *)

(** An amount that is not negative and that the quantize writes as zero
    cents is at most half a cent. *)
Lemma quantized_zero_at_most_half_cent (x q : Decimal) :
  quantize_default x PRECISION = Ok q -> coef q = 0 -> 0 <= coef x ->
  dle x (dec 5 (-3)) = true.
Proof.
  intros Hq Hz Hx. destruct (quantize_default_nearest x q Hq) as [He Hnear].
  set (m := Z.min (expo x) (-3)).
  specialize (Hnear m ltac:(unfold m; lia) ltac:(unfold m; lia)).
  apply (dle_scaled x (dec 5 (-3)) m); [unfold m; lia | unfold m; simpl; lia|].
  assert (Hq0 : scaled q m = 0) by (unfold scaled; rewrite Hz; lia).
  rewrite Hq0 in Hnear.
  unfold scaled at 2. cbn [coef expo dec].
  replace (-2 - m) with (1 + (-3 - m)) in Hnear by lia.
  rewrite Z.pow_add_r in Hnear by (unfold m; lia).
  change (10 ^ 1) with 10 in Hnear. lia.
Qed.

Section InfiniteReturnClaim.
Context {F : PyFloat}.

(** Without the flag, the cash-on-cash return is the annual cashflow over
    the equity left, in percent, quantized. *)
Lemma kpis_cash_on_cash (i : PropertyFinancialsInput.t)
  (acq : AcquisitionLocals) (reno : RenovationLocals) (rent : RentalLocals)
  (refi : RefinanceLocals) (w w' : list string) (k : KPIsResult.t) (l : KPIsLocals) :
  kpis_phase i acq reno rent refi w = Ok (k, l, w') ->
  KPIsResult.is_infinite_return k = false ->
  exists ratio,
    ddiv (annual_cashflow l) (equity_left_in_deal l) = Ok ratio /\
    quantize_default (dmul ratio (dec 100 0)) PRECISION
    = Ok (KPIsResult.cash_on_cash_return k).
Proof.
  unfold kpis_phase. intros H.
  do 8 inv_step H. rename E into Ecoc.
  repeat inv_step H. apply Ok_triple_inj in H. destruct H as [-> [-> ->]].
  cbn [annual_cashflow equity_left_in_deal
       KPIsResult.is_infinite_return KPIsResult.cash_on_cash_return].
  intros Hinf. rewrite Hinf in Ecoc.
  apply bind_Ok in Ecoc. destruct Ecoc as [ratio [Hr Hq]].
  exists ratio. split; [exact Hr | exact Hq].
Qed.

(** C5, as the code has it: the run tests the equity left in the deal as it
    computes it, [max(0, total_cash_invested - cash_extracted)], before it
    is rounded for the record.  [is_infinite_return] is set exactly when
    that equity equals 0, and then the record shows an equity of
    [Decimal("0.00")] and the sentinel 999999 as cash-on-cash return and as
    return on equity.  Without the flag the equity is positive and the
    cash-on-cash return is the annual cashflow divided by it, in percent;
    the equity in the record can still read 0.00, namely when the equity is
    positive and at most half a cent. *)
Theorem C5_infinite_return_and_emitted_equity
  (i : PropertyFinancialsInput.t) (r : BrrrrCalculationResult.t) (t : BrrrrLocals) :
  calculate_brrrr_trace i = Ok (r, t) ->
  let k := BrrrrCalculationResult.kpis r in
  let equity := equity_left_in_deal (kpis_locals t) in
  calculate_brrrr i = Ok r /\
  equity = dmax (dec 0 0) (dsub (total_cash_invested (kpis_locals t))
                                (cash_extracted (kpis_locals t))) /\
  quantize_default equity PRECISION = Ok (KPIsResult.equity_left_in_deal k) /\
  KPIsResult.is_infinite_return k = deq equity D0 /\
  (KPIsResult.is_infinite_return k = true ->
   KPIsResult.equity_left_in_deal k = dec 0 (-2) /\
   KPIsResult.cash_on_cash_return k = dec 999999 0 /\
   KPIsResult.return_on_equity k = dec 999999 0) /\
  (KPIsResult.is_infinite_return k = false ->
   dgt equity D0 = true /\
   (exists ratio,
      ddiv (annual_cashflow (kpis_locals t)) equity = Ok ratio /\
      quantize_default (dmul ratio (dec 100 0)) PRECISION
      = Ok (KPIsResult.cash_on_cash_return k)) /\
   (deq (KPIsResult.equity_left_in_deal k) D0 = true ->
    dle equity (dec 5 (-3)) = true)).
Proof.
  intros Ht k equity.
  split; [rewrite calculate_brrrr_of_trace, Ht; reflexivity|].
  destruct (brrrr_trace_inv i r t Ht) as (w1 & w2 & _ & _ & _ & _ & Hk & _).
  destruct (kpis_locals_spec _ _ _ _ _ _ _ _ _ Hk) as (_ & _ & He & Hinf & Hsent).
  destruct (kpis_phase_inv _ _ _ _ _ _ _ _ _ Hk) as (_ & _ & Qeq & _).
  fold k in Hinf, Hsent, Qeq. fold equity in He, Hinf, Qeq.
  assert (Hnn : 0 <= coef equity) by (rewrite He; apply dmax_zero_nonneg).
  split; [exact He|]. split; [exact Qeq|]. split.
  { rewrite Hinf. unfold dle, deq.
    destruct (dcompare equity D0) eqn:Ec; try reflexivity.
    exfalso. assert (Hlt : dlt equity D0 = true) by (unfold dlt; rewrite Ec; reflexivity).
    apply (dlt_scaled equity D0 (Z.min (expo equity) 0)) in Hlt; [|lia|simpl; lia].
    rewrite scaled_D0 in Hlt.
    pose proof (proj2 (scaled_nonneg equity (Z.min (expo equity) 0) ltac:(lia)) Hnn). lia. }
  split.
  - intros Hi. split; [|apply Hsent; exact Hi].
    rewrite Hinf in Hi. apply dle_D0 in Hi.
    apply (quantize_default_zero _ _ _ Qeq). lia.
  - intros Hi. split.
    { rewrite Hinf in Hi. apply dle_D0_false in Hi. apply dgt_D0. exact Hi. }
    split; [exact (kpis_cash_on_cash _ _ _ _ _ _ _ _ _ Hk Hi)|].
    intros Hz. apply (quantized_zero_at_most_half_cent _ _ Qeq); [|exact Hnn].
    apply deq_dle in Hz. apply dle_D0 in Hz.
    pose proof (quantize_default_coef_nonneg _ _ _ Qeq Hnn). lia.
Qed.

End InfiniteReturnClaim.

(** The claim C5 read on the result fails: with an appraisal of
    474 164.03375 on the sample purchase the equity left is 0.003; the
    record shows an equity of 0.00, no infinite return, and a cash-on-cash
    return that is not the sentinel. *)
Lemma C5_counterexample :
  valid_input (sample_input (dec 300000 0) (dec 4741640337500 (-7))) = true /\
  exists r,
    @calculate_brrrr RefFloat
      (sample_input (dec 300000 0) (dec 4741640337500 (-7))) = Ok r /\
    KPIsResult.equity_left_in_deal (BrrrrCalculationResult.kpis r) = dec 0 (-2) /\
    deq (KPIsResult.equity_left_in_deal (BrrrrCalculationResult.kpis r)) D0 = true /\
    KPIsResult.is_infinite_return (BrrrrCalculationResult.kpis r) = false /\
    deq (KPIsResult.cash_on_cash_return (BrrrrCalculationResult.kpis r))
        (dec 999999 0) = false.
Proof.
  split; [vm_compute; reflexivity|].
  eexists. split; [vm_compute; reflexivity|]. repeat split.
Qed.

Lemma C5_infinite_return_and_emitted_equity_witness :
  exists r t,
    @calculate_brrrr_trace RefFloat (sample_input (dec 300000 0) (dec 600000 0)) = Ok (r, t) /\
    KPIsResult.is_infinite_return (BrrrrCalculationResult.kpis r)
    = deq (equity_left_in_deal (kpis_locals t)) D0 /\
    KPIsResult.is_infinite_return (BrrrrCalculationResult.kpis r) = true /\
    KPIsResult.cash_on_cash_return (BrrrrCalculationResult.kpis r) = dec 999999 0.
Proof.
  do 2 eexists.
  match goal with
  | |- ?A /\ _ => assert (E : A) by (vm_compute; reflexivity)
  end.
  split; [exact E|].
  pose proof (@C5_infinite_return_and_emitted_equity RefFloat _ _ _ E)
    as (_ & _ & _ & Hflag & Hinf & _).
  split; [exact Hflag|].
  match goal with
  | |- ?A /\ _ => assert (Hi : A) by reflexivity
  end.
  split; [exact Hi|]. exact (proj1 (proj2 (Hinf Hi))).
Defined.

(** ** Equal values quantize alike *)

Lemma Decimal_ext (x y : Decimal) : coef x = coef y -> expo x = expo y -> x = y.
Proof. destruct x, y. simpl. intros -> ->. reflexivity. Qed.

Lemma rescale_deq (mode : rounding) (a b : Decimal) (e : Z) :
  deq a b = true -> rescale mode a e = rescale mode b e.
Proof.
  intros H. set (m := Z.min e (Z.min (expo a) (expo b))).
  apply (deq_scaled a b m) in H; [|unfold m; lia..].
  apply Decimal_ext; [|rewrite !rescale_expo; reflexivity].
  rewrite (rescale_coef mode a e m), (rescale_coef mode b e m) by (unfold m; lia).
  rewrite H. reflexivity.
Qed.

Lemma quantize_exp_deq (mode : rounding) (a b : Decimal) (e : Z) :
  deq a b = true -> quantize_exp mode a e = quantize_exp mode b e.
Proof.
  intros H. pose proof (rescale_deq mode a b e H) as Hr.
  set (m := Z.min (expo a) (expo b)).
  apply (deq_scaled a b m) in H; [|unfold m; lia..].
  pose proof (pow10_pos (expo a - m) ltac:(unfold m; lia)) as Hpa.
  pose proof (pow10_pos (expo b - m) ltac:(unfold m; lia)) as Hpb.
  unfold scaled in H. unfold quantize_exp.
  destruct (Z.eqb_spec (coef a) 0) as [Ha|Ha], (Z.eqb_spec (coef b) 0) as [Hb|Hb];
    [reflexivity | exfalso; nia | exfalso; nia |].
  assert (Hd : ndigits (coef a) + expo a = ndigits (coef b) + expo b).
  { pose proof (ndigits_shift (coef a) (expo a - m) Ha ltac:(unfold m; lia)) as H1.
    pose proof (ndigits_shift (coef b) (expo b - m) Hb ltac:(unfold m; lia)) as H2.
    rewrite H in H1. lia. }
  rewrite Hd, Hr. reflexivity.
Qed.

Lemma quantize_default_deq (a b p : Decimal) :
  deq a b = true -> quantize_default a p = quantize_default b p.
Proof. apply quantize_exp_deq. Qed.

Lemma dneg_anti (b b' : Decimal) : dle b b' = true -> dle (dneg b') (dneg b) = true.
Proof.
  intros H. set (m := Z.min (expo b) (expo b')).
  apply (dle_scaled b b' m) in H; [|unfold m; lia..].
  apply (dle_scaled _ _ m); [unfold m; simpl; lia..|].
  rewrite !dneg_scaled. lia.
Qed.

Lemma dsub_mono_r (a b b' : Decimal) :
  dle b b' = true -> dle (dsub a b') (dsub a b) = true.
Proof.
  intros H. unfold dsub. apply dadd_mono; [apply dle_refl | apply dneg_anti; exact H].
Qed.

Lemma dmul_anti_r (a r r' : Decimal) :
  coef a <= 0 -> dle r r' = true -> dle (dmul a r') (dmul a r) = true.
Proof.
  intros Ha Hr. set (m := Z.min (expo r) (expo r')).
  apply (dle_scaled r r' m) in Hr; [|unfold m; lia..].
  pose proof (dmul_expo a r). pose proof (dmul_expo a r').
  apply (dle_scaled _ _ (expo a + m)); [unfold m in *; lia..|].
  rewrite !dmul_scaled by (unfold m; lia).
  apply round_sig_mono. rewrite scaled_self. nia.
Qed.

Lemma dmul_coef_nonpos (a r : Decimal) : coef a <= 0 -> 0 <= coef r -> coef (dmul a r) <= 0.
Proof.
  intros Ha Hr. pose proof (dmul_expo a r) as He.
  pose proof (scaled_pos (dmul a r) (expo a + expo r) He) as Hs.
  rewrite dmul_scaled in Hs by lia. rewrite !scaled_self in Hs.
  pose proof (round_sig_mono (coef a * coef r) 0 ltac:(nia)) as Hm.
  rewrite round_sig_0 in Hm. lia.
Qed.

Lemma dmul_zero_r (a b : Decimal) : coef b = 0 -> coef (dmul a b) = 0.
Proof.
  intros Hb. pose proof (dmul_expo a b) as He.
  pose proof (scaled_pos (dmul a b) (expo a + expo b) He) as Hp.
  pose proof (scaled_nonneg (dmul a b) (expo a + expo b) He) as Hn.
  rewrite dmul_scaled in Hp, Hn by lia. rewrite !scaled_self in Hp, Hn.
  rewrite Hb, Z.mul_0_r, round_sig_0 in Hp, Hn. lia.
Qed.

Lemma dmin_cases (a b : Decimal) : dmin a b = a \/ dmin a b = b.
Proof. unfold dmin. destruct (dlt b a); auto. Qed.

Lemma dmin_le_l (a b : Decimal) : dle (dmin a b) a = true.
Proof.
  unfold dmin. destruct (dlt b a) eqn:E; [apply dlt_dle; exact E | apply dle_refl].
Qed.

Lemma dmin_le_r (a b : Decimal) : dle (dmin a b) b = true.
Proof.
  unfold dmin. destruct (dlt b a) eqn:E; [apply dle_refl|].
  rewrite dlt_dle_false in E. destruct (dle a b); [reflexivity | discriminate].
Qed.

Section EngineTheorems.
Context {F : PyFloat}.

(** X11: [is_infinite_return] is set exactly when the cash invested does
    not exceed the cash extracted at refinancing (both as computed, before
    they are rounded for the record); the amounts reported as cash extracted
    and as equity left in the deal are never negative, and under the flag the
    equity left is reported as [Decimal("0.00")]. *)
Theorem brrrr_infinite_return_iff
  (i : PropertyFinancialsInput.t) (r : BrrrrCalculationResult.t) (t : BrrrrLocals) :
  calculate_brrrr_trace i = Ok (r, t) ->
  let k := BrrrrCalculationResult.kpis r in
  KPIsResult.is_infinite_return k
    = dle (total_cash_invested (kpis_locals t)) (cash_extracted (kpis_locals t)) /\
  0 <= coef (KPIsResult.cash_extracted_at_refi k) /\
  0 <= coef (KPIsResult.equity_left_in_deal k) /\
  (KPIsResult.is_infinite_return k = true ->
   KPIsResult.equity_left_in_deal k = dec 0 (-2)).
Proof.
  intros Ht k.
  destruct (brrrr_trace_inv i r t Ht) as (w1 & w2 & _ & _ & _ & _ & Hk & _).
  destruct (kpis_locals_spec _ _ _ _ _ _ _ _ _ Hk) as (_ & Hext & Heq & Hinf & _).
  destruct (kpis_phase_inv _ _ _ _ _ _ _ _ _ Hk) as (_ & Qext & Qeq & _).
  fold k in Hinf, Qext, Qeq.
  assert (Hflag : KPIsResult.is_infinite_return k
                  = dle (total_cash_invested (kpis_locals t))
                        (cash_extracted (kpis_locals t))).
  { rewrite Hinf, Heq. apply dmax_zero_sub_le. }
  split; [exact Hflag|]. split.
  { apply (quantize_default_coef_nonneg _ _ _ Qext). rewrite Hext. apply dmax_zero_nonneg. }
  split.
  { apply (quantize_default_coef_nonneg _ _ _ Qeq). rewrite Heq. apply dmax_zero_nonneg. }
  intros Hi. rewrite Hinf in Hi. apply dle_D0 in Hi.
  apply (quantize_default_zero _ _ _ Qeq).
  pose proof (dmax_zero_nonneg (dsub (total_cash_invested (kpis_locals t))
                                     (cash_extracted (kpis_locals t)))) as Hn.
  rewrite <- Heq in Hn. lia.
Qed.

(** X12: the records of one run agree with each other: the KPI record
    repeats the monthly NOI of the rental record and the monthly debt service
    of the refinance record, cent for cent; the debt service is the sum of
    the two payments the refinance record shows; the return on equity is the
    cash-on-cash return; and the stress-test rate is that of the refinancing
    rate. *)
Theorem brrrr_records_agree
  (i : PropertyFinancialsInput.t) (r : BrrrrCalculationResult.t) :
  calculate_brrrr i = Ok r ->
  let k := BrrrrCalculationResult.kpis r in
  let rf := BrrrrCalculationResult.refinance r in
  KPIsResult.monthly_noi k = RentalResult.monthly_noi (BrrrrCalculationResult.rental r) /\
  KPIsResult.monthly_debt_service k = RefinanceResult.total_monthly_debt_service rf /\
  quantize_default
    (dadd (RefinanceResult.monthly_heloc_payment rf)
          (RefinanceResult.monthly_mortgage_payment rf)) PRECISION
    = Ok (RefinanceResult.total_monthly_debt_service rf) /\
  KPIsResult.return_on_equity k = KPIsResult.cash_on_cash_return k /\
  KPIsResult.stress_test_rate k
    = calculate_stress_test_rate (PropertyFinancialsInput.refinance_rate i).
Proof.
  intros Hr k rf. destruct (calculate_brrrr_trace_of i r Hr) as [t Ht].
  destruct (brrrr_trace_inv i r t Ht) as (w1 & w2 & _ & _ & Hre & Hrf & Hk & _).
  destruct (kpis_phase_inv _ _ _ _ _ _ _ _ _ Hk)
    as (_ & _ & _ & Qnoi & Qds & _ & _ & _ & _ & Hroe & Hst & _).
  destruct (rental_phase_inv _ _ _ Hre) as (Qnoi' & _).
  pose proof (refinance_phase_inv _ _ _ _ _ Hrf) as Hinv. cbv zeta in Hinv.
  destruct Hinv as (_ & _ & _ & _ & _ & Hsum & _ & _ & _ & _ & _ & Qds' & _).
  fold k in Qnoi, Qds, Hroe, Hst. fold rf in Hsum, Qds'.
  repeat split.
  - congruence.
  - congruence.
  - rewrite <- Hsum. exact Qds'.
  - exact Hroe.
  - exact Hst.
Qed.

End EngineTheorems.

Section EngineTheorems2.
Context {F : PyFloat}.

(** The debt service of a refinancing on an appraisal that is zero (or
    negative): both payments are the [Decimal("0")] of their guards. *)
Lemma refinance_no_value (i : PropertyFinancialsInput.t)
  (acq : AcquisitionLocals) (reno : RenovationLocals)
  (r : RefinanceResult.t) (l : RefinanceLocals) :
  refinance_phase i acq reno = Ok (r, l) ->
  dle (PropertyFinancialsInput.after_repair_value i) D0 = true ->
  RefinanceResult.monthly_heloc_payment r = dec 0 0 /\
  RefinanceResult.monthly_mortgage_payment r = dec 0 0 /\
  total_monthly_debt_service l = dec 0 0.
Proof.
  intros H Harv. pose proof (refinance_phase_inv _ _ _ _ _ H) as Hinv. cbv zeta in Hinv.
  destruct Hinv as (Hnm & Hhp & Ham & Hio & Hmp & Hsum & _).
  apply dle_D0 in Harv.
  set (arv := PropertyFinancialsInput.after_repair_value i) in *.
  assert (Hhp0 : dle (heloc_portion l) D0 = true).
  { apply dle_D0. rewrite Hhp.
    destruct (dmin_cases (dmul arv BSIF_REFINANCE_LTV_MAX)
                         (dmul arv BSIF_HELOC_ROTATING_LTV_MAX)) as [-> | ->];
      apply dmul_coef_nonpos; simpl; lia. }
  assert (Ham0 : dgt (amortized_portion l) D0 = false).
  { apply dgt_D0_false. rewrite Ham. apply dsub_coef_nonpos.
    rewrite Hnm, Hhp. unfold dmin.
    destruct (dlt _ _) eqn:E; [|apply dle_refl].
    apply dmul_anti_r; [exact Harv | reflexivity]. }
  unfold calculate_interest_only_payment in Hio. rewrite Hhp0 in Hio.
  cbn [orb] in Hio. injection Hio as Hio.
  rewrite Ham0 in Hmp. injection Hmp as Hmp.
  rewrite Hsum, <- Hio, <- Hmp. repeat split.
Qed.

(** X13: on an appraisal of zero, which the request schema admits, nothing
    is borrowed: both refinance payments are [Decimal("0")], the debt service
    is reported as 0.00, and the KPI record reports a debt coverage ratio of
    [Decimal("0")] that misses the minimum and a capitalisation rate of
    [Decimal("0")], without dividing. *)
Theorem brrrr_zero_appraisal
  (i : PropertyFinancialsInput.t) (r : BrrrrCalculationResult.t) :
  dle (PropertyFinancialsInput.after_repair_value i) D0 = true ->
  calculate_brrrr i = Ok r ->
  let k := BrrrrCalculationResult.kpis r in
  let rf := BrrrrCalculationResult.refinance r in
  RefinanceResult.monthly_heloc_payment rf = dec 0 0 /\
  RefinanceResult.monthly_mortgage_payment rf = dec 0 0 /\
  RefinanceResult.total_monthly_debt_service rf = dec 0 (-2) /\
  KPIsResult.monthly_debt_service k = dec 0 (-2) /\
  KPIsResult.debt_coverage_ratio k = dec 0 0 /\
  KPIsResult.meets_min_dcr k = false /\
  KPIsResult.cap_rate k = dec 0 0.
Proof.
  intros Harv Hr k rf. destruct (calculate_brrrr_trace_of i r Hr) as [t Ht].
  destruct (brrrr_trace_inv i r t Ht) as (w1 & w2 & _ & _ & _ & Hrf & Hk & _).
  destruct (refinance_no_value _ _ _ _ _ Hrf Harv) as (Hhp & Hmp & Hds).
  pose proof (refinance_phase_inv _ _ _ _ _ Hrf) as Hinv. cbv zeta in Hinv.
  destruct Hinv as (_ & _ & _ & _ & _ & _ & _ & _ & _ & _ & _ & Qds & _).
  destruct (kpis_phase_inv _ _ _ _ _ _ _ _ _ Hk)
    as (_ & _ & _ & _ & Qds' & _ & _ & _ & _ & _ & _ & Hdcr & Hmeets & _).
  fold k in Qds', Hdcr, Hmeets. fold rf in Hhp, Hmp, Qds.
  rewrite Hds in Qds, Qds', Hdcr.
  apply quantize_default_zero in Qds; [|reflexivity].
  apply quantize_default_zero in Qds'; [|reflexivity].
  unfold calculate_dcr in Hdcr.
  change (dle (dmul (dec 0 0) (dec 12 0)) D0) with true in Hdcr.
  injection Hdcr as Hdcr.
  repeat split; try assumption.
  - symmetry. exact Hdcr.
  - rewrite Hmeets, <- Hdcr. reflexivity.
  - apply (kpis_cap_rate_zero _ _ _ _ _ _ _ _ _ Hk).
    apply dgt_D0_false. apply dle_D0. exact Harv.
Qed.

(** X14: for an appraisal that is not negative, the [min] of the
    refinancing is idle: the rotating portion is always 65% of the
    appraisal, and the record shows that amount quantized. *)
Theorem refinance_rotating_portion
  (i : PropertyFinancialsInput.t) (r : BrrrrCalculationResult.t) :
  0 <= coef (PropertyFinancialsInput.after_repair_value i) ->
  calculate_brrrr i = Ok r ->
  let arv := PropertyFinancialsInput.after_repair_value i in
  quantize_default (dmul arv BSIF_HELOC_ROTATING_LTV_MAX) PRECISION
    = Ok (RefinanceResult.heloc_portion_amount (BrrrrCalculationResult.refinance r)) /\
  quantize_default (dmul arv BSIF_REFINANCE_LTV_MAX) PRECISION
    = Ok (RefinanceResult.new_mortgage_amount (BrrrrCalculationResult.refinance r)).
Proof.
  intros Harv Hr arv. destruct (calculate_brrrr_trace_of i r Hr) as [t Ht].
  destruct (brrrr_trace_inv i r t Ht) as (w1 & w2 & _ & _ & _ & Hrf & _).
  pose proof (refinance_phase_inv _ _ _ _ _ Hrf) as Hinv. cbv zeta in Hinv.
  destruct Hinv as (Hnm & Hhp & _ & _ & _ & _ & _ & _ & Qnm & Qhp & _).
  fold arv in Hnm, Hhp. split; [|rewrite <- Hnm; exact Qnm].
  rewrite <- Qhp. symmetry. apply quantize_default_deq. rewrite Hhp.
  apply dle_antisym_deq; [apply dmin_le_r|].
  unfold dmin. destruct (dlt _ _) eqn:E; [apply dle_refl|].
  apply dmul_mono_r; [exact Harv | reflexivity].
Qed.

End EngineTheorems2.

Section EngineTheorems3.
Context {F : PyFloat}.

Lemma acquisition_phase_arv (i : PropertyFinancialsInput.t) (arv : Decimal)
  (w : list string) :
  acquisition_phase (with_after_repair_value i arv) w = acquisition_phase i w.
Proof. destruct i. reflexivity. Qed.

Lemma renovation_phase_arv (i : PropertyFinancialsInput.t) (arv : Decimal)
  (acq : AcquisitionLocals) :
  renovation_phase (with_after_repair_value i arv) acq = renovation_phase i acq.
Proof. destruct i. reflexivity. Qed.

Lemma after_repair_value_with (i : PropertyFinancialsInput.t) (arv : Decimal) :
  PropertyFinancialsInput.after_repair_value (with_after_repair_value i arv) = arv.
Proof. destruct i. reflexivity. Qed.

(** X15: a higher appraisal never lowers the cash extracted at
    refinancing and never raises the equity left in the deal: for two runs
    on requests that differ in the appraisal only, the reported amounts are
    ordered accordingly, and a deal flagged as an infinite return stays
    flagged when the appraisal grows. *)
Theorem cash_extracted_monotone_in_appraisal
  (i : PropertyFinancialsInput.t) (arv1 arv2 : Decimal)
  (r1 r2 : BrrrrCalculationResult.t) :
  dle arv1 arv2 = true ->
  calculate_brrrr (with_after_repair_value i arv1) = Ok r1 ->
  calculate_brrrr (with_after_repair_value i arv2) = Ok r2 ->
  let k1 := BrrrrCalculationResult.kpis r1 in
  let k2 := BrrrrCalculationResult.kpis r2 in
  dle (KPIsResult.cash_extracted_at_refi k1) (KPIsResult.cash_extracted_at_refi k2) = true /\
  dle (KPIsResult.equity_left_in_deal k2) (KPIsResult.equity_left_in_deal k1) = true /\
  KPIsResult.total_cash_invested k1 = KPIsResult.total_cash_invested k2 /\
  (KPIsResult.is_infinite_return k1 = true -> KPIsResult.is_infinite_return k2 = true).
Proof.
  intros Harv H1 H2 k1 k2.
  destruct (calculate_brrrr_trace_of _ r1 H1) as [t1 Ht1].
  destruct (calculate_brrrr_trace_of _ r2 H2) as [t2 Ht2].
  destruct (brrrr_trace_inv _ r1 t1 Ht1) as (w1 & w1' & Ha1 & Hn1 & _ & Hf1 & Hk1 & _).
  destruct (brrrr_trace_inv _ r2 t2 Ht2) as (w2 & w2' & Ha2 & Hn2 & _ & Hf2 & Hk2 & _).
  rewrite acquisition_phase_arv in Ha1, Ha2.
  rewrite renovation_phase_arv in Hn1, Hn2.
  assert (Hacq : acquisition_locals t1 = acquisition_locals t2) by congruence.
  rewrite Hacq in Hn1, Hf1, Hk1.
  assert (Hreno : renovation_locals t1 = renovation_locals t2) by congruence.
  rewrite Hreno in Hf1, Hk1.
  pose proof (refinance_phase_inv _ _ _ _ _ Hf1) as I1. cbv zeta in I1.
  pose proof (refinance_phase_inv _ _ _ _ _ Hf2) as I2. cbv zeta in I2.
  rewrite after_repair_value_with in I1, I2.
  destruct I1 as (Hnm1 & _ & _ & _ & _ & _ & Hnet1 & Hgross1 & _).
  destruct I2 as (Hnm2 & _ & _ & _ & _ & _ & Hnet2 & Hgross2 & _).
  destruct (kpis_locals_spec _ _ _ _ _ _ _ _ _ Hk1) as (Hinv1 & Hext1 & Heq1 & Hinf1 & _).
  destruct (kpis_locals_spec _ _ _ _ _ _ _ _ _ Hk2) as (Hinv2 & Hext2 & Heq2 & Hinf2 & _).
  destruct (kpis_phase_inv _ _ _ _ _ _ _ _ _ Hk1) as (Qinv1 & Qext1 & Qeq1 & _).
  destruct (kpis_phase_inv _ _ _ _ _ _ _ _ _ Hk2) as (Qinv2 & Qext2 & Qeq2 & _).
  fold k1 in Qinv1, Qext1, Qeq1, Hinf1. fold k2 in Qinv2, Qext2, Qeq2, Hinf2.
  assert (Hnet : dle (net_cash_out (refinance_locals t1))
                     (net_cash_out (refinance_locals t2)) = true).
  { rewrite Hnet1, Hnet2, Hgross1, Hgross2, Hnm1, Hnm2.
    do 2 apply dsub_mono_l. apply dmul_mono_l; [simpl; lia | exact Harv]. }
  assert (Hext : dle (cash_extracted (kpis_locals t1))
                     (cash_extracted (kpis_locals t2)) = true).
  { rewrite Hext1, Hext2. apply dmax_mono; [apply dle_refl | exact Hnet]. }
  assert (Hinv : total_cash_invested (kpis_locals t1)
                 = total_cash_invested (kpis_locals t2)) by congruence.
  assert (Heq : dle (equity_left_in_deal (kpis_locals t2))
                    (equity_left_in_deal (kpis_locals t1)) = true).
  { rewrite Heq1, Heq2, Hinv. apply dmax_mono; [apply dle_refl|].
    apply dsub_mono_r. exact Hext. }
  repeat split.
  - exact (quantize_default_mono _ _ _ _ _ Hext Qext1 Qext2).
  - exact (quantize_default_mono _ _ _ _ _ Heq Qeq2 Qeq1).
  - rewrite Hinv in Qinv1. congruence.
  - rewrite Hinf1, Hinf2. intros Hle. exact (dle_trans _ _ _ Heq Hle).
Qed.

Lemma acquisition_phase_heloc_rate (i : PropertyFinancialsInput.t)
  (rate : option Decimal) (w : list string) :
  acquisition_phase (with_heloc_rate_for_reno i rate) w = acquisition_phase i w.
Proof. destruct i. reflexivity. Qed.

Lemma renovation_phase_heloc_rate (i : PropertyFinancialsInput.t)
  (rate : option Decimal) (acq : AcquisitionLocals) :
  PropertyFinancialsInput.reno_financing_type i <> HELOC ->
  renovation_phase (with_heloc_rate_for_reno i rate) acq = renovation_phase i acq.
Proof.
  destruct i as [pp dp mu nf inf occ mr ay rb rc rd ft hr
                 rent vac mt st ins mnt mgt ut arv rr ry tu oo].
  cbn [PropertyFinancialsInput.reno_financing_type]. intros Hft.
  destruct ft; [reflexivity | contradiction | reflexivity | reflexivity].
Qed.

Lemma rental_phase_heloc_rate (i : PropertyFinancialsInput.t) (rate : option Decimal) :
  rental_phase (with_heloc_rate_for_reno i rate) = rental_phase i.
Proof. destruct i. reflexivity. Qed.

Lemma refinance_phase_heloc_rate (i : PropertyFinancialsInput.t)
  (rate : option Decimal) (acq : AcquisitionLocals) (reno : RenovationLocals) :
  refinance_phase (with_heloc_rate_for_reno i rate) acq reno = refinance_phase i acq reno.
Proof. destruct i. reflexivity. Qed.

Lemma kpis_phase_heloc_rate (i : PropertyFinancialsInput.t) (rate : option Decimal)
  (acq : AcquisitionLocals) (reno : RenovationLocals) (rent : RentalLocals)
  (refi : RefinanceLocals) (w : list string) :
  kpis_phase (with_heloc_rate_for_reno i rate) acq reno rent refi w
  = kpis_phase i acq reno rent refi w.
Proof.
  destruct i. unfold kpis_phase, with_heloc_rate_for_reno.
  cbn [PropertyFinancialsInput.after_repair_value
       PropertyFinancialsInput.purchase_price
       PropertyFinancialsInput.total_units
       PropertyFinancialsInput.refinance_rate
       PropertyFinancialsInput.refinance_amort_years].
  reflexivity.
Qed.

(** X16: the HELOC rate for the renovation is read only when the
    renovation is financed by HELOC: with CASH, PERSONAL_LOC or PRIVATE_LOAN
    the run is the same whatever that rate, so the carrying cost of a
    personal line of credit or of a private loan includes no interest at
    all. *)
Theorem heloc_rate_ignored_unless_heloc
  (i : PropertyFinancialsInput.t) (rate : option Decimal) :
  PropertyFinancialsInput.reno_financing_type i <> HELOC ->
  calculate_brrrr (with_heloc_rate_for_reno i rate) = calculate_brrrr i.
Proof.
  intros Hft. unfold calculate_brrrr, calculate_brrrr_trace. cbv zeta.
  rewrite acquisition_phase_heloc_rate.
  destruct (acquisition_phase i []) as [[[a al] w1]|e]; [|reflexivity]. cbn [bind].
  rewrite (renovation_phase_heloc_rate i rate al Hft).
  destruct (renovation_phase i al) as [[rn rnl]|e]; [|reflexivity]. cbn [bind].
  rewrite rental_phase_heloc_rate.
  destruct (rental_phase i) as [[re rel]|e]; [|reflexivity]. cbn [bind].
  rewrite refinance_phase_heloc_rate.
  destruct (refinance_phase i al rnl) as [[rf rfl]|e]; [|reflexivity]. cbn [bind].
  rewrite kpis_phase_heloc_rate. reflexivity.
Qed.

End EngineTheorems3.

(** ** [brrrr_engine.py]: the quick metrics *)

Section QuickMetricsTheorems.
Context {F : PyFloat}.

Lemma quick_brrrr_metrics_of_trace
  (purchase_price renovation_budget monthly_rent arv mortgage_rate : Decimal) :
  quick_brrrr_metrics purchase_price renovation_budget monthly_rent arv mortgage_rate =
  match quick_brrrr_metrics_trace purchase_price renovation_budget monthly_rent arv
          mortgage_rate with
  | Ok (r, _) => Ok r
  | Raise e => Raise e
  end.
Proof.
  unfold quick_brrrr_metrics.
  destruct (quick_brrrr_metrics_trace _ _ _ _ _) as [[r l]|e]; reflexivity.
Qed.

(** X17: in [quick_brrrr_metrics] the equity and the appraisal are tested
    before they divide, and the amortization is the literal 25 years: on
    operands of moderate size a call can only stop on the
    decimal.InvalidOperation of a quantize or on an exception of the float
    annuity formula (its division raises ZeroDivisionError when the rate is
    so small that the monthly rate is 0.0 in floating point, its power
    OverflowError); it raises no decimal.DivisionByZero and no ValueError.
    (Beyond that range a product can pass the exponent limit of the context,
    which raises decimal.Overflow.) *)
Theorem quick_metrics_arithmetic_only
  (purchase_price renovation_budget monthly_rent arv mortgage_rate : Decimal) :
  moderate purchase_price = true -> moderate renovation_budget = true ->
  moderate monthly_rent = true -> moderate arv = true ->
  moderate mortgage_rate = true ->
  arithmetic_only
    (quick_brrrr_metrics purchase_price renovation_budget monthly_rent arv mortgage_rate).
Proof.
  intros _ _ _ _ _.
  assert (Ht : arithmetic_only
                 (quick_brrrr_metrics_trace purchase_price renovation_budget monthly_rent
                    arv mortgage_rate)).
  { unfold quick_brrrr_metrics_trace.
    repeat lazymatch goal with
           | |- arithmetic_only (calculate_monthly_mortgage_payment _ _ _) =>
               apply arithmetic_only_monthly_payment
           | |- _ => arith_only_step
           end;
      repeat match goal with
             | Hg : dgt _ D0 = true |- _ => apply dgt_D0 in Hg
             end;
      unfold dec in *; cbn [coef] in *; lia. }
  intros e. rewrite quick_brrrr_metrics_of_trace.
  destruct (quick_brrrr_metrics_trace _ _ _ _ _) as [[r l]|e'] eqn:E; [discriminate|].
  intros H. injection H as <-. apply Ht. reflexivity.
Qed.

Lemma quick_trace_inv
  (purchase_price renovation_budget monthly_rent arv mortgage_rate : Decimal)
  (q : QuickMetrics.t) (l : QuickLocals) :
  quick_brrrr_metrics_trace purchase_price renovation_budget monthly_rent arv
    mortgage_rate = Ok (q, l) ->
  let total_investment :=
    dadd (dadd (dmul purchase_price (dec 20 (-2)))
               (dadd (dmul purchase_price (dec 2 (-2))) (dec 5000 0)))
         renovation_budget in
  let cash_out :=
    dsub (dmul arv (dec 80 (-2)))
         (dadd (dmul purchase_price (dec 80 (-2))) renovation_budget) in
  QuickMetrics.is_infinite_return q = dle total_investment cash_out /\
  (QuickMetrics.is_infinite_return q = true ->
   QuickMetrics.cash_on_cash q = dec 999999 0) /\
  (dle arv D0 = true -> QuickMetrics.cap_rate q = dec 0 0) /\
  quantize_default total_investment PRECISION = Ok (QuickMetrics.total_investment q).
Proof.
  intros H total_investment cash_out. subst total_investment cash_out.
  unfold quick_brrrr_metrics_trace in H.
  do 2 inv_bind H.
  inv_bind H. destruct v1 as [coc inf]. rename E1 into Ecoc.
  inv_bind H. rename v1 into cap. rename E1 into Ecap.
  do 2 inv_bind H. apply Ok_pair_inj in H. destruct H as [-> _].
  cbn [QuickMetrics.is_infinite_return QuickMetrics.cash_on_cash QuickMetrics.cap_rate
       QuickMetrics.total_investment].
  assert (Hcap : dle arv D0 = true -> cap = dec 0 0).
  { intros Harv. rewrite dle_D0_dgt in Harv.
    destruct (dgt arv D0); [discriminate|]. injection Ecap as <-. reflexivity. }
  match type of Ecoc with
  | (if dgt (dmax _ (dsub ?ti ?co)) D0 then _ else _) = _ =>
      pose proof (dmax_zero_sub_le ti co) as Hpos;
      rewrite dle_D0_dgt in Hpos
  end.
  destruct (dgt _ D0) eqn:Hg in Ecoc, Hpos.
  - do 2 inv_bind Ecoc. apply Ok_pair_inj in Ecoc. destruct Ecoc as [-> ->].
    split; [rewrite <- Hpos; reflexivity|].
    split; [discriminate|]. split; [exact Hcap | exact E2].
  - apply Ok_pair_inj in Ecoc. destruct Ecoc as [-> ->].
    split; [rewrite <- Hpos; reflexivity|].
    split; [reflexivity|]. split; [exact Hcap | exact E2].
Qed.

(** X18: the flag of [quick_brrrr_metrics] is set exactly when the total
    investment (20% down, 2% plus 5 000 of closing costs, the renovation
    budget) does not exceed the cash out of the refinancing at 80% of the
    appraisal, which is not floored at zero here; under the flag the
    cash-on-cash return is the sentinel 999999, and an appraisal that is not
    positive gives a capitalisation rate of [Decimal("0")]. *)
Theorem quick_metrics_flag
  (purchase_price renovation_budget monthly_rent arv mortgage_rate : Decimal)
  (q : QuickMetrics.t) :
  quick_brrrr_metrics purchase_price renovation_budget monthly_rent arv mortgage_rate
    = Ok q ->
  let total_investment :=
    dadd (dadd (dmul purchase_price (dec 20 (-2)))
               (dadd (dmul purchase_price (dec 2 (-2))) (dec 5000 0)))
         renovation_budget in
  let cash_out :=
    dsub (dmul arv (dec 80 (-2)))
         (dadd (dmul purchase_price (dec 80 (-2))) renovation_budget) in
  QuickMetrics.is_infinite_return q = dle total_investment cash_out /\
  (QuickMetrics.is_infinite_return q = true ->
   QuickMetrics.cash_on_cash q = dec 999999 0) /\
  (dle arv D0 = true -> QuickMetrics.cap_rate q = dec 0 0) /\
  quantize_default total_investment PRECISION = Ok (QuickMetrics.total_investment q).
Proof.
  rewrite quick_brrrr_metrics_of_trace.
  destruct (quick_brrrr_metrics_trace _ _ _ _ _) as [[r l]|e'] eqn:E; [|discriminate].
  intros H. injection H as ->. exact (quick_trace_inv _ _ _ _ _ _ _ E).
Qed.

End QuickMetricsTheorems.

(** ** [mortgage.py]: divisions by zero *)

Section MortgageDivisions.
Context {F : PyFloat}.

(** X19: [calculate_monthly_mortgage_payment] returns [Decimal("0")] for
    a principal that is not positive, and it raises decimal.DivisionByZero in
    exactly one case: a positive principal at a rate that is not positive
    over zero years, where the straight-line payment divides by [0 * 12]. *)
Theorem monthly_payment_division_by_zero
  (principal nominal_annual_rate : Decimal) (amortization_years : Z) :
  (dle principal D0 = true ->
   calculate_monthly_mortgage_payment principal nominal_annual_rate amortization_years
     = Ok (dec 0 0)) /\
  (calculate_monthly_mortgage_payment principal nominal_annual_rate amortization_years
     = Raise DivisionByZero <->
   dle principal D0 = false /\ dle nominal_annual_rate D0 = true /\
   amortization_years = 0).
Proof.
  unfold calculate_monthly_mortgage_payment. split; [intros ->; reflexivity|].
  destruct (dle principal D0) eqn:Hp; [split; [discriminate | intros (? & _); discriminate]|].
  apply dle_D0_false in Hp.
  destruct (dle nominal_annual_rate D0) eqn:Hr.
  - destruct (Z.eq_dec amortization_years 0) as [->|Hy].
    + split; [auto|]. intros _. unfold ddiv. cbn [Decimal_of_int coef Z.mul Z.eqb].
      destruct (Z.eqb_spec (coef principal) 0); [lia | reflexivity].
    + split; [|intros (_ & _ & ?); contradiction].
      intros H. exfalso.
      destruct (ddiv_Ok principal (Decimal_of_int (amortization_years * 12))
                  ltac:(simpl; lia)) as [x Hx].
      rewrite Hx in H. cbn [bind] in H.
      apply invalid_only_quantize in H. discriminate.
  - split; [|intros (_ & ? & _); discriminate].
    intros H. exfalso.
    assert (Ha : arithmetic_only
      (m <- convert_to_monthly_effective_rate nominal_annual_rate ;;
       one_plus_r_pow_n <-
         float_result (fpow (fadd (float_of_int 1) (float_of_Decimal m))
                            (float_of_int (amortization_years * 12))) ;;
       payment <-
         float_result
           (fdiv (fmul (float_of_Decimal principal)
                       (fmul (float_of_Decimal m) one_plus_r_pow_n))
                 (fsub one_plus_r_pow_n (float_of_int 1))) ;;
       d <- float_result (Decimal_of_float payment) ;;
       quantize d PRECISION ROUND_HALF_UP)).
    { repeat first [apply arithmetic_only_convert | arith_only_step]. }
    destruct (Ha _ H); discriminate.
Qed.

(** X20: [calculate_max_mortgage_from_dcr] divides by the target DCR
    without a guard: a target of zero always raises a decimal exception
    (decimal.DivisionByZero, or InvalidOperation for 0 / 0) and never
    returns.  With any other target, on operands of moderate size, the call
    can only stop on an exception of the float formulas (ZeroDivisionError,
    OverflowError, or [int()] refusing a value that is not finite) or on
    decimal.InvalidOperation.  (Beyond that range the quotient can pass the
    exponent limit of the context, which raises decimal.Overflow.) *)
Theorem max_mortgage_zero_target
  (annual_noi target_dcr nominal_rate : Decimal) (amort_years : Z) :
  (coef target_dcr = 0 ->
   calculate_max_mortgage_from_dcr annual_noi target_dcr nominal_rate amort_years
   = Raise (if coef annual_noi =? 0 then InvalidOperation else DivisionByZero)) /\
  (coef target_dcr <> 0 ->
   moderate annual_noi = true -> moderate target_dcr = true ->
   moderate nominal_rate = true ->
   arithmetic_only
     (calculate_max_mortgage_from_dcr annual_noi target_dcr nominal_rate amort_years)).
Proof.
  unfold calculate_max_mortgage_from_dcr, max_mortgage_principal. split.
  - intros Hz. unfold ddiv. rewrite Hz. cbn [Z.eqb].
    destruct (coef annual_noi =? 0); reflexivity.
  - intros Hnz _ _ _.
    repeat first [apply arithmetic_only_convert | arith_only_step];
      first [assumption | simpl; lia].
Qed.

End MortgageDivisions.

Lemma monthly_payment_division_by_zero_witness :
  @calculate_monthly_mortgage_payment RefFloat (dec 100000 0) (dec 0 0) 0
  = Raise DivisionByZero.
Proof.
  apply (proj2 (@monthly_payment_division_by_zero RefFloat (dec 100000 0) (dec 0 0) 0)).
  repeat split.
Defined.

Lemma max_mortgage_zero_target_witness :
  @calculate_max_mortgage_from_dcr RefFloat (dec 24000 0) (dec 0 0) (dec 525 (-4)) 25
  = Raise DivisionByZero /\
  (coef (dec 125 (-2)) <> 0 /\ moderate (dec 24000 0) = true /\
   moderate (dec 125 (-2)) = true /\ moderate (dec 525 (-4)) = true) /\
  arithmetic_only
    (@calculate_max_mortgage_from_dcr RefFloat (dec 24000 0) (dec 125 (-2))
       (dec 525 (-4)) 25).
Proof.
  split.
  { exact (proj1 (@max_mortgage_zero_target RefFloat (dec 24000 0) (dec 0 0)
                    (dec 525 (-4)) 25) eq_refl). }
  assert (Hnz : coef (dec 125 (-2)) <> 0) by (simpl; lia).
  split; [repeat split; exact Hnz|].
  exact (proj2 (@max_mortgage_zero_target RefFloat (dec 24000 0) (dec 125 (-2))
                  (dec 525 (-4)) 25) Hnz eq_refl eq_refl eq_refl).
Defined.

Lemma quick_metrics_arithmetic_only_witness :
  (moderate (dec 300000 0) = true /\ moderate (dec 30000 0) = true /\
   moderate (dec 3000 0) = true /\ moderate (dec 400000 0) = true /\
   moderate (dec 525 (-4)) = true) /\
  arithmetic_only
    (@quick_brrrr_metrics RefFloat (dec 300000 0) (dec 30000 0) (dec 3000 0)
       (dec 400000 0) (dec 525 (-4))).
Proof.
  split; [repeat split|].
  exact (@quick_metrics_arithmetic_only RefFloat (dec 300000 0) (dec 30000 0)
           (dec 3000 0) (dec 400000 0) (dec 525 (-4))
           eq_refl eq_refl eq_refl eq_refl eq_refl).
Defined.

(** ** [brrrr_engine.py]: carrying cost and capacity *)

Section EngineTheorems4.
Context {F : PyFloat}.

Lemma renovation_phase_inv (i : PropertyFinancialsInput.t) (acq : AcquisitionLocals)
  (r : RenovationResult.t) (l : RenovationLocals) :
  renovation_phase i acq = Ok (r, l) ->
  total_carry_cost l
    = dmul (monthly_carry_cost l)
           (Decimal_of_int (PropertyFinancialsInput.renovation_duration_months i)) /\
  quantize_default (total_carry_cost l) PRECISION
    = Ok (RenovationResult.total_carry_cost r) /\
  quantize_default (total_reno_budget l) PRECISION
    = Ok (RenovationResult.total_budget r) /\
  RenovationResult.duration_months r
    = PropertyFinancialsInput.renovation_duration_months i.
Proof.
  unfold renovation_phase. intros H.
  repeat inv_step H. apply Ok_pair_inj in H. destruct H as [-> ->].
  cbn [total_carry_cost monthly_carry_cost total_reno_budget
       RenovationResult.total_carry_cost RenovationResult.total_budget
       RenovationResult.duration_months].
  repeat split; first [assumption | reflexivity].
Qed.

(** X21: a renovation of zero months, which the request schema admits,
    carries no cost: the total carrying cost is reported as
    [Decimal("0.00")], whatever the monthly carrying cost. *)
Theorem zero_months_carry_nothing
  (i : PropertyFinancialsInput.t) (r : BrrrrCalculationResult.t) :
  PropertyFinancialsInput.renovation_duration_months i = 0 ->
  calculate_brrrr i = Ok r ->
  RenovationResult.total_carry_cost (BrrrrCalculationResult.renovation r) = dec 0 (-2).
Proof.
  intros Hd Hr. destruct (calculate_brrrr_trace_of i r Hr) as [t Ht].
  destruct (brrrr_trace_inv i r t Ht) as (w1 & w2 & _ & Hn & _).
  destruct (renovation_phase_inv _ _ _ _ Hn) as (Htc & Qtc & _).
  apply (quantize_default_zero _ _ _ Qtc).
  rewrite Htc, Hd. apply dmul_zero_r. reflexivity.
Qed.

End EngineTheorems4.

Lemma heloc_recommended_local (i : HelocCapacityInput.t) (r : HelocCapacityResult.t)
  (l : HelocLocals) :
  calculate_heloc_capacity_trace i = Ok (r, l) ->
  recommended_heloc_limit l = available_at_rotating l.
Proof.
  intros Ht. pose proof (heloc_trace_inv i r l Ht) as H. cbv zeta in H.
  destruct H as (_ & _ & _ & Hav & _ & Hcan & Hrec & _).
  rewrite Hrec. destruct (HelocCapacityResult.can_access_rotating r) eqn:E; [reflexivity|].
  rewrite Hav. symmetry. apply dmax_zero_of_lt. rewrite <- Hcan. reflexivity.
Qed.

(** X22: more value and less debt never lower the capacity: between two
    calls of [calculate_heloc_capacity] where the second has at least the
    property value and at most the mortgage and HELOC balances of the first,
    the total equity, the equity available at either ceiling and the
    recommended limit of the second are at least those of the first. *)
Theorem heloc_capacity_monotone
  (value1 value2 mortgage1 mortgage2 heloc1 heloc2 : Decimal)
  (r1 r2 : HelocCapacityResult.t) :
  dle value1 value2 = true ->
  dle mortgage2 mortgage1 = true ->
  dle heloc2 heloc1 = true ->
  calculate_heloc_capacity (HelocCapacityInput.mk value1 mortgage1 heloc1) = Ok r1 ->
  calculate_heloc_capacity (HelocCapacityInput.mk value2 mortgage2 heloc2) = Ok r2 ->
  dle (HelocCapacityResult.total_equity r1) (HelocCapacityResult.total_equity r2) = true /\
  dle (HelocCapacityResult.available_equity_at_rotating r1)
      (HelocCapacityResult.available_equity_at_rotating r2) = true /\
  dle (HelocCapacityResult.available_equity_at_total r1)
      (HelocCapacityResult.available_equity_at_total r2) = true /\
  dle (HelocCapacityResult.recommended_heloc_limit r1)
      (HelocCapacityResult.recommended_heloc_limit r2) = true.
Proof.
  intros Hv Hm Hh.
  rewrite !calculate_heloc_capacity_of_trace.
  destruct (calculate_heloc_capacity_trace (HelocCapacityInput.mk value1 mortgage1 heloc1))
    as [[r1' l1]|e1] eqn:E1; [|discriminate].
  destruct (calculate_heloc_capacity_trace (HelocCapacityInput.mk value2 mortgage2 heloc2))
    as [[r2' l2]|e2] eqn:E2; [|discriminate].
  intros H1 H2. injection H1 as ->. injection H2 as ->.
  pose proof (heloc_recommended_local _ _ _ E1) as Hrec1.
  pose proof (heloc_recommended_local _ _ _ E2) as Hrec2.
  pose proof (heloc_trace_inv _ r1 l1 E1) as I1. cbv zeta in I1.
  pose proof (heloc_trace_inv _ r2 l2 E2) as I2. cbv zeta in I2.
  cbn [HelocCapacityInput.current_property_value
       HelocCapacityInput.current_mortgage_balance
       HelocCapacityInput.current_heloc_balance] in I1, I2.
  destruct I1 as (Hmt1 & Hmr1 & Hte1 & Har1 & Hat1 & _ & _ & _ & _ & Qte1 & Qar1 & Qat1 & Qrec1).
  destruct I2 as (Hmt2 & Hmr2 & Hte2 & Har2 & Hat2 & _ & _ & _ & _ & Qte2 & Qar2 & Qat2 & Qrec2).
  assert (Hdebt : dle (dadd mortgage2 heloc2) (dadd mortgage1 heloc1) = true)
    by (apply dadd_mono; assumption).
  assert (Hsub : forall a a', dle a a' = true ->
            dle (dsub a (dadd mortgage1 heloc1)) (dsub a' (dadd mortgage2 heloc2)) = true).
  { intros a a' Ha. eapply dle_trans; [apply dsub_mono_l; exact Ha|].
    apply dsub_mono_r. exact Hdebt. }
  assert (Hte : dle (total_equity l1) (total_equity l2) = true).
  { rewrite Hte1, Hte2. apply Hsub. exact Hv. }
  assert (Har : dle (available_at_rotating l1) (available_at_rotating l2) = true).
  { rewrite Har1, Har2, Hmr1, Hmr2. apply dmax_mono; [apply dle_refl|].
    apply Hsub. apply dmul_mono_l; [simpl; lia | exact Hv]. }
  assert (Hat : dle (available_at_total l1) (available_at_total l2) = true).
  { rewrite Hat1, Hat2, Hmt1, Hmt2. apply dmax_mono; [apply dle_refl|].
    apply Hsub. apply dmul_mono_l; [simpl; lia | exact Hv]. }
  repeat split.
  - exact (quantize_default_mono _ _ _ _ _ Hte Qte1 Qte2).
  - exact (quantize_default_mono _ _ _ _ _ Har Qar1 Qar2).
  - exact (quantize_default_mono _ _ _ _ _ Hat Qat1 Qat2).
  - rewrite Hrec1 in Qrec1. rewrite Hrec2 in Qrec2.
    exact (quantize_default_mono _ _ _ _ _ Har Qrec1 Qrec2).
Qed.

Lemma heloc_capacity_monotone_witness :
  exists r1 r2,
    calculate_heloc_capacity
      (HelocCapacityInput.mk (dec 500000 0) (dec 300000 0) (dec 20000 0)) = Ok r1 /\
    calculate_heloc_capacity
      (HelocCapacityInput.mk (dec 550000 0) (dec 290000 0) (dec 20000 0)) = Ok r2 /\
    dle (HelocCapacityResult.available_equity_at_rotating r1)
        (HelocCapacityResult.available_equity_at_rotating r2) = true.
Proof.
  do 2 eexists.
  match goal with
  | |- ?A /\ _ => assert (E1 : A) by (vm_compute; reflexivity)
  end.
  split; [exact E1|].
  match goal with
  | |- ?A /\ _ => assert (E2 : A) by (vm_compute; reflexivity)
  end.
  split; [exact E2|].
  exact (proj1 (proj2 (heloc_capacity_monotone
                         (dec 500000 0) (dec 550000 0) (dec 300000 0) (dec 290000 0)
                         (dec 20000 0) (dec 20000 0) _ _
                         eq_refl eq_refl eq_refl E1 E2))).
Defined.

(** ** Runs for the properties of the engine *)

Lemma remaining_balance_never_negative_witness :
  exists q,
    @calculate_remaining_balance RefFloat (dec 100000 0) (dec 5 (-2)) 25 12 = Ok q /\
    0 <= coef q.
Proof.
  eexists.
  match goal with
  | |- ?A /\ _ => assert (E : A) by (vm_compute; reflexivity)
  end.
  split; [exact E|].
  apply (proj1 (@remaining_balance_never_negative RefFloat _ _ _ _ _ E)).
  left. lia.
Defined.

Lemma brrrr_infinite_return_iff_witness :
  exists r t,
    @calculate_brrrr_trace RefFloat (sample_input (dec 300000 0) (dec 600000 0)) = Ok (r, t) /\
    KPIsResult.is_infinite_return (BrrrrCalculationResult.kpis r)
    = dle (total_cash_invested (kpis_locals t)) (cash_extracted (kpis_locals t)).
Proof.
  do 2 eexists.
  match goal with
  | |- ?A /\ _ => assert (E : A) by (vm_compute; reflexivity)
  end.
  split; [exact E|].
  exact (proj1 (@brrrr_infinite_return_iff RefFloat _ _ _ E)).
Defined.

Lemma brrrr_records_agree_witness :
  exists r,
    @calculate_brrrr RefFloat (sample_input (dec 300000 0) (dec 400000 0)) = Ok r /\
    KPIsResult.monthly_debt_service (BrrrrCalculationResult.kpis r)
    = RefinanceResult.total_monthly_debt_service (BrrrrCalculationResult.refinance r).
Proof.
  eexists.
  match goal with
  | |- ?A /\ _ => assert (E : A) by (vm_compute; reflexivity)
  end.
  split; [exact E|].
  exact (proj1 (proj2 (@brrrr_records_agree RefFloat _ _ E))).
Defined.

Lemma brrrr_zero_appraisal_witness :
  exists r,
    @calculate_brrrr RefFloat (sample_input (dec 300000 0) (dec 0 0)) = Ok r /\
    KPIsResult.debt_coverage_ratio (BrrrrCalculationResult.kpis r) = dec 0 0.
Proof.
  eexists.
  match goal with
  | |- ?A /\ _ => assert (E : A) by (vm_compute; reflexivity)
  end.
  split; [exact E|].
  pose proof (@brrrr_zero_appraisal RefFloat (sample_input (dec 300000 0) (dec 0 0)) _
                eq_refl E) as H.
  exact (proj1 (proj2 (proj2 (proj2 (proj2 H))))).
Defined.

Lemma refinance_rotating_portion_witness :
  exists r,
    @calculate_brrrr RefFloat (sample_input (dec 300000 0) (dec 400000 0)) = Ok r /\
    quantize_default (dmul (dec 400000 0) BSIF_HELOC_ROTATING_LTV_MAX) PRECISION
    = Ok (RefinanceResult.heloc_portion_amount (BrrrrCalculationResult.refinance r)).
Proof.
  eexists.
  match goal with
  | |- ?A /\ _ => assert (E : A) by (vm_compute; reflexivity)
  end.
  split; [exact E|].
  assert (Hv : 0 <= coef (PropertyFinancialsInput.after_repair_value
                            (sample_input (dec 300000 0) (dec 400000 0))))
    by (simpl; lia).
  exact (proj1 (@refinance_rotating_portion RefFloat _ _ Hv E)).
Defined.

Lemma cash_extracted_monotone_in_appraisal_witness :
  exists r1 r2,
    @calculate_brrrr RefFloat
      (with_after_repair_value (sample_input (dec 300000 0) (dec 400000 0)) (dec 450000 0))
      = Ok r1 /\
    @calculate_brrrr RefFloat
      (with_after_repair_value (sample_input (dec 300000 0) (dec 400000 0)) (dec 500000 0))
      = Ok r2 /\
    dle (KPIsResult.cash_extracted_at_refi (BrrrrCalculationResult.kpis r1))
        (KPIsResult.cash_extracted_at_refi (BrrrrCalculationResult.kpis r2)) = true.
Proof.
  do 2 eexists.
  match goal with
  | |- ?A /\ _ => assert (E1 : A) by (vm_compute; reflexivity)
  end.
  split; [exact E1|].
  match goal with
  | |- ?A /\ _ => assert (E2 : A) by (vm_compute; reflexivity)
  end.
  split; [exact E2|].
  exact (proj1 (@cash_extracted_monotone_in_appraisal RefFloat
                  (sample_input (dec 300000 0) (dec 400000 0))
                  (dec 450000 0) (dec 500000 0) _ _ eq_refl E1 E2)).
Defined.

Lemma heloc_rate_ignored_unless_heloc_witness :
  @calculate_brrrr RefFloat (with_heloc_rate_for_reno cash_input None)
  = @calculate_brrrr RefFloat cash_input.
Proof.
  apply (@heloc_rate_ignored_unless_heloc RefFloat cash_input None).
  simpl. discriminate.
Defined.

Lemma zero_months_carry_nothing_witness :
  exists r,
    @calculate_brrrr RefFloat cash_input = Ok r /\
    RenovationResult.total_carry_cost (BrrrrCalculationResult.renovation r) = dec 0 (-2).
Proof.
  eexists.
  match goal with
  | |- ?A /\ _ => assert (E : A) by (vm_compute; reflexivity)
  end.
  split; [exact E|].
  exact (@zero_months_carry_nothing RefFloat cash_input _ eq_refl E).
Defined.

Lemma quick_metrics_flag_witness :
  exists q,
    @quick_brrrr_metrics RefFloat (dec 300000 0) (dec 30000 0) (dec 3000 0)
      (dec 600000 0) (dec 525 (-4)) = Ok q /\
    QuickMetrics.is_infinite_return q = true /\
    QuickMetrics.cash_on_cash q = dec 999999 0.
Proof.
  eexists.
  match goal with
  | |- ?A /\ _ => assert (E : A) by (vm_compute; reflexivity)
  end.
  split; [exact E|].
  pose proof (@quick_metrics_flag RefFloat _ _ _ _ _ _ E) as H. cbv zeta in H.
  destruct H as (_ & Hsent & _).
  split; [reflexivity|]. apply Hsent. reflexivity.
Defined.

(** ** [transfer_tax.py]: the breakdown *)

Lemma dadd_coef_nonneg (a b : Decimal) : 0 <= coef a -> 0 <= coef b -> 0 <= coef (dadd a b).
Proof.
  intros Ha Hb. set (m := Z.min (expo a) (expo b)).
  pose proof (dadd_expo a b) as He.
  apply (scaled_nonneg (dadd a b) m He).
  rewrite dadd_scaled by (unfold m; lia). apply round_sig_nonneg.
  pose proof (proj2 (scaled_nonneg a m ltac:(unfold m; lia)) Ha).
  pose proof (proj2 (scaled_nonneg b m ltac:(unfold m; lia)) Hb). lia.
Qed.

Lemma additional_loop_nonneg (p : Decimal) (adds : list AdditionalRate) :
  Forall (fun a => 0 <= coef (additional_rate a)) adds ->
  forall acc, 0 <= coef acc -> 0 <= coef (additional_loop p adds acc).
Proof.
  induction 1 as [|a rest Ha _ IH]; intros acc Hacc; cbn [additional_loop]; [exact Hacc|].
  cbv zeta. apply IH. destruct (dgt p (threshold a)) eqn:E; [|exact Hacc].
  apply dadd_coef_nonneg; [exact Hacc|].
  apply dmul_coef_nonneg; [|exact Ha].
  pose proof (dsub_coef_pos p (threshold a) E). lia.
Qed.

Section BreakdownProperties.
Context {F : PyFloat}.

Lemma breakdown_loop_items (p : Decimal) (bs : list TaxBracket) :
  Forall (fun b => 0 <= coef (bracket_rate b)) bs ->
  forall items out,
    breakdown_loop p bs items = Ok out ->
    Forall item_nonneg items ->
    Forall item_nonneg out /\
    (List.length out <= List.length items + List.length bs)%nat.
Proof.
  induction 1 as [|b rest Hb _ IH]; intros items out; cbn [breakdown_loop].
  - intros H Hit. injection H as <-. split; [exact Hit | lia].
  - destruct (dle p (bracket_min b)).
    { intros H Hit. injection H as <-. split; [exact Hit | cbn [List.length]; lia]. }
    cbv zeta. destruct (dgt _ D0) eqn:Ht.
    + intros H Hit. do 2 inv_bind H. apply IH in H.
      * destruct H as [Hout Hlen]. split; [exact Hout|].
        rewrite length_app in Hlen. cbn [List.length] in *. lia.
      * apply Forall_app. split; [exact Hit|]. constructor; [|constructor].
        apply dgt_D0 in Ht. split; cbn [TransferTaxBreakdownItem.taxable_amount
                                         TransferTaxBreakdownItem.tax].
        -- apply (quantize_default_coef_nonneg _ _ _ E). lia.
        -- apply (quantize_default_coef_nonneg _ _ _ E0).
           apply dmul_coef_nonneg; [lia | exact Hb].
    + intros H Hit. apply IH in H; [|exact Hit].
      destruct H as [Hout Hlen]. split; [exact Hout | cbn [List.length]; lia].
Qed.

Lemma breakdown_loop_below (p : Decimal) (b : TaxBracket) (rest : list TaxBracket)
  (items : list TransferTaxBreakdownItem.t) :
  dle p (bracket_min b) = true -> breakdown_loop p (b :: rest) items = Ok items.
Proof. intros H. cbn [breakdown_loop]. rewrite H. reflexivity. Qed.

Lemma sum_tax_nonneg (items : list TransferTaxBreakdownItem.t) :
  Forall item_nonneg items -> 0 <= coef (sum_tax items).
Proof.
  unfold sum_tax. assert (H0 : 0 <= coef D0) by (simpl; lia). revert H0.
  generalize D0 as acc. induction items as [|it rest IH]; intros acc Hacc Hit;
    cbn [fold_left]; [exact Hacc|].
  inversion Hit as [|? ? [_ Htax] Hrest]; subst.
  apply IH; [|exact Hrest]. apply dadd_coef_nonneg; assumption.
Qed.

Lemma invalid_only_breakdown_loop (p : Decimal) (bs : list TaxBracket) :
  forall items, invalid_operation_only (breakdown_loop p bs items).
Proof.
  induction bs as [|b rest IH]; intros items; cbn [breakdown_loop].
  - apply invalid_only_Ok.
  - repeat first [apply IH | invalid_only_step].
Qed.

(** X23: [get_transfer_tax_breakdown] never raises its ValueError (every
    municipality code has a grid), and on a price of moderate size it can
    only stop on the decimal.InvalidOperation of a quantize.  (A price at
    the exponent limit of the context raises decimal.Overflow in the
    subtraction of the Montréal surcharge.)  What it returns repeats the
    price, has at most one line item per bracket of the grid (six at most),
    and no amount in it is negative: the taxable amounts and taxes of the
    line items, the surcharge and the total.  For a price that is not
    positive it has no line item and both totals are [Decimal("0.00")]. *)
Theorem breakdown_never_negative (p : Decimal) (m : MunicipalityCode) :
  (forall msg, get_transfer_tax_breakdown p m <> Raise (ValueError msg)) /\
  (moderate p = true ->
   forall e, get_transfer_tax_breakdown p m = Raise e -> e = InvalidOperation) /\
  (forall b, get_transfer_tax_breakdown p m = Ok b ->
     TransferTaxBreakdown.purchase_price b = p /\
     (List.length (TransferTaxBreakdown.brackets b) <= 6)%nat /\
     Forall item_nonneg (TransferTaxBreakdown.brackets b) /\
     0 <= coef (TransferTaxBreakdown.additional_tax b) /\
     0 <= coef (TransferTaxBreakdown.total_tax b) /\
     (dle p D0 = true ->
      TransferTaxBreakdown.brackets b = [] /\
      TransferTaxBreakdown.additional_tax b = dec 0 (-2) /\
      TransferTaxBreakdown.total_tax b = dec 0 (-2))).
Proof.
  unfold get_transfer_tax_breakdown.
  destruct (tables_get TRANSFER_TAX_TABLES m) as [cfg|] eqn:Hcfg;
    [|destruct (tables_total m) as [c Hc]; congruence].
  destruct (tables_rates_nonneg m cfg Hcfg) as [Hrb Hra]. cbv zeta.
  match goal with
  | |- (forall msg, ?run <> _) /\ _ =>
      assert (Hinv : invalid_operation_only run)
  end.
  { change (invalid_operation_only
              (items <- breakdown_loop p (brackets cfg) [] ;;
               additional_q <-
                 quantize_default (additional_loop p (additional_list cfg) (dec 0 0))
                   PRECISION ;;
               total_q <-
                 quantize_default
                   (dadd (sum_tax items)
                         (additional_loop p (additional_list cfg) (dec 0 0)))
                   PRECISION ;;
               Ok (TransferTaxBreakdown.mk (name cfg) p items additional_q total_q))).
    repeat first [apply invalid_only_breakdown_loop | invalid_only_step]. }
  split; [intros msg H; apply Hinv in H; discriminate|].
  split; [intros _; exact Hinv|]. clear Hinv.
  { intros b H. inv_bind H. rename v into items. rename E into El.
    do 2 inv_bind H. injection H as <-.
    cbn [TransferTaxBreakdown.purchase_price TransferTaxBreakdown.brackets
         TransferTaxBreakdown.additional_tax TransferTaxBreakdown.total_tax].
    destruct (breakdown_loop_items p _ Hrb _ _ El (Forall_nil _)) as [Hit Hlen].
    assert (Hadd : 0 <= coef (additional_loop p (additional_list cfg) (dec 0 0)))
      by (apply additional_loop_nonneg; [exact Hra | simpl; lia]).
    split; [reflexivity|]. split.
    { cbn [List.length] in Hlen.
      assert (List.length (brackets cfg) <= 6)%nat
        by (destruct m; injection Hcfg as <-; cbn; lia).
      lia. }
    split; [exact Hit|]. split; [exact (quantize_default_coef_nonneg _ _ _ E Hadd)|].
    split.
    { apply (quantize_default_coef_nonneg _ _ _ E0).
      apply dadd_coef_nonneg; [apply sum_tax_nonneg; exact Hit | exact Hadd]. }
    intros Hp.
    assert (Hfirst : exists b0 rest, brackets cfg = b0 :: rest /\ bracket_min b0 = D0)
      by (destruct m; injection Hcfg as <-; do 2 eexists; split; reflexivity).
    destruct Hfirst as (b0 & rest & Hbs & Hmin).
    rewrite Hbs, breakdown_loop_below in El by (rewrite Hmin; exact Hp).
    injection El as <-.
    assert (Ha0 : additional_loop p (additional_list cfg) (dec 0 0) = dec 0 0).
    { apply additional_loop_below.
      destruct m; injection Hcfg as <-; repeat constructor.
      apply (dle_trans _ _ _ Hp). reflexivity. }
    rewrite Ha0 in E, E0.
    apply quantize_default_zero in E; [|reflexivity].
    apply quantize_default_zero in E0; [|reflexivity].
    repeat split; assumption. }
Qed.

End BreakdownProperties.

Lemma breakdown_never_negative_witness :
  moderate (dec 425000 0) = true /\
  invalid_operation_only (@get_transfer_tax_breakdown RefFloat (dec 425000 0) MONTREAL).
Proof.
  split; [reflexivity|].
  exact (proj1 (proj2 (@breakdown_never_negative RefFloat (dec 425000 0) MONTREAL))
           eq_refl).
Defined.

(** ** The breakdown against the scalar total, where nothing rounds *)

(** ** Arithmetic that does not round *)

Lemma round_sig_id (x : Z) : Z.abs x < 10 ^ 28 -> round_sig x = x.
Proof.
  intros H. apply round_sig_small. apply ndigits_le_iff; [unfold prec; lia|]. exact H.
Qed.

Lemma dadd_exact (a b : Decimal) (m : Z) :
  m <= expo a -> m <= expo b -> Z.abs (scaled a m + scaled b m) < 10 ^ 28 ->
  scaled (dadd a b) m = scaled a m + scaled b m.
Proof. intros Ha Hb H. rewrite dadd_scaled by assumption. apply round_sig_id. exact H. Qed.

Lemma dsub_exact (a b : Decimal) (m : Z) :
  m <= expo a -> m <= expo b -> Z.abs (scaled a m - scaled b m) < 10 ^ 28 ->
  scaled (dsub a b) m = scaled a m - scaled b m.
Proof. intros Ha Hb H. rewrite dsub_scaled by assumption. apply round_sig_id. exact H. Qed.

Lemma dmul_exact (a b : Decimal) (ma mb : Z) :
  ma <= expo a -> mb <= expo b -> Z.abs (scaled a ma * scaled b mb) < 10 ^ 28 ->
  scaled (dmul a b) (ma + mb) = scaled a ma * scaled b mb.
Proof. intros Ha Hb H. rewrite dmul_scaled by assumption. apply round_sig_id. exact H. Qed.

(** A value that is a whole number of cents quantizes to itself, whatever
    the rounding mode. *)
Lemma quantize_exact (mode : rounding) (x : Decimal) (m k : Z) :
  m <= -2 -> m <= expo x -> scaled x m = k * 10 ^ (-2 - m) -> Z.abs k < 10 ^ 27 ->
  quantize x PRECISION mode = Ok (mkDecimal k (-2)).
Proof.
  intros Hm Hx Hk Hb. unfold quantize, quantize_exp. cbn [expo PRECISION dec].
  pose proof (pow10_pos (-2 - m) ltac:(lia)) as Hp.
  pose proof (pow10_pos (expo x - m) ltac:(lia)) as Hpx.
  assert (Hres : rescale mode x (-2) = mkDecimal k (-2)).
  { apply Decimal_ext; [|apply rescale_expo].
    rewrite (rescale_coef mode x (-2) m) by lia. rewrite Hk.
    apply round_div_exact. exact Hp. }
  destruct (Z.eqb_spec (coef x) 0) as [Hz|Hz].
  - f_equal. apply Decimal_ext; [|reflexivity]. cbn [coef].
    unfold scaled in Hk. rewrite Hz in Hk. nia.
  - assert (Hk0 : k <> 0).
    { intros ->. unfold scaled in Hk. nia. }
    assert (Hd : ndigits (coef x) + expo x - -2 = ndigits k).
    { pose proof (ndigits_shift (coef x) (expo x - m) Hz ltac:(lia)) as H1.
      pose proof (ndigits_shift k (-2 - m) Hk0 ltac:(lia)) as H2.
      unfold scaled in Hk. rewrite Hk in H1. lia. }
    assert (Hnk : ndigits k <= 27) by (apply ndigits_le_iff; [lia | exact Hb]).
    rewrite Hd, Hres. cbn [coef].
    destruct (Z.ltb_spec prec (ndigits k)) as [Hbad|_]; [unfold prec in Hbad; lia|].
    reflexivity.
Qed.

Lemma quantize_default_exact (x : Decimal) (m k : Z) :
  m <= -2 -> m <= expo x -> scaled x m = k * 10 ^ (-2 - m) -> Z.abs k < 10 ^ 27 ->
  quantize_default x PRECISION = Ok (mkDecimal k (-2)).
Proof. apply quantize_exact. Qed.

Section ExactPrice.
Context {F : PyFloat}.
Variables (p : Decimal) (n : Z).
Hypothesis Hexpo : -3 <= expo p.
Hypothesis Hval : scaled p (-3) = 1000 * n.
Hypothesis Hn : 0 <= n <= 10 ^ 9.

Lemma scaled_whole (a : Decimal) : expo a = 0 -> scaled a (-3) = 1000 * coef a.
Proof. intros H. unfold scaled. rewrite H. change (10 ^ (0 - -3)) with 1000. lia. Qed.

Lemma price_le_whole (a : Decimal) :
  expo a = 0 -> dle p a = (n <=? coef a).
Proof.
  intros Ha. pose proof (dle_scaled p a (-3) Hexpo ltac:(lia)) as H.
  rewrite Hval, (scaled_whole a Ha) in H.
  destruct (Z.leb_spec n (coef a)); destruct (dle p a); try reflexivity.
  - assert (false = true) by (apply H; lia). discriminate.
  - assert (1000 * n <= 1000 * coef a) by (apply H; reflexivity). lia.
Qed.

Lemma price_gt_whole (a : Decimal) :
  expo a = 0 -> dgt p a = (coef a <? n).
Proof.
  intros Ha. unfold dgt. rewrite dlt_dle_false, (price_le_whole a Ha).
  destruct (Z.leb_spec n (coef a)), (Z.ltb_spec (coef a) n); try reflexivity; lia.
Qed.

(** The taxable amount of a bracket, and its tax. *)
Lemma exact_taxable (b : TaxBracket) :
  exact_bracket n b ->
  let t := Z.min n (coef (bracket_max b)) - coef (bracket_min b) in
  let taxable_amount := dsub (dmin p (bracket_max b)) (bracket_min b) in
  -3 <= expo taxable_amount /\
  scaled taxable_amount (-3) = 1000 * t /\
  dgt taxable_amount D0 = (0 <? t).
Proof.
  intros (Hmin & Hmax & Hcmin & Hcmax & _) t taxable_amount.
  assert (Hd : -3 <= expo (dmin p (bracket_max b)) /\
               scaled (dmin p (bracket_max b)) (-3) = 1000 * Z.min n (coef (bracket_max b))).
  { unfold dmin. rewrite dlt_dle_false, (price_le_whole _ Hmax).
    destruct (Z.leb_spec n (coef (bracket_max b))); cbn [negb].
    - split; [exact Hexpo|]. rewrite Hval. lia.
    - split; [lia|]. rewrite (scaled_whole _ Hmax). lia. }
  destruct Hd as [Hde Hds].
  assert (He : -3 <= expo taxable_amount).
  { pose proof (dsub_expo (dmin p (bracket_max b)) (bracket_min b)).
    unfold taxable_amount. lia. }
  assert (Hs : scaled taxable_amount (-3) = 1000 * t).
  { unfold taxable_amount. rewrite dsub_exact; [|exact Hde|lia|].
    - rewrite Hds, (scaled_whole _ Hmin). unfold t. lia.
    - rewrite Hds, (scaled_whole _ Hmin).
      assert (10 ^ 9 = 1000000000) by reflexivity.
      assert (10 ^ 28 = 10000000000000000000000000000) by reflexivity. lia. }
  split; [exact He|]. split; [exact Hs|].
  pose proof (dgt_D0 taxable_amount) as Hg.
  pose proof (scaled_pos taxable_amount (-3) He) as Hp. rewrite Hs in Hp.
  destruct (Z.ltb_spec 0 t), (dgt taxable_amount D0); try reflexivity.
  - assert (false = true) by (apply Hg; apply Hp; lia). discriminate.
  - assert (0 < coef taxable_amount) by (apply Hg; reflexivity). lia.
Qed.

Lemma exact_tax (b : TaxBracket) :
  exact_bracket n b ->
  let t := Z.min n (coef (bracket_max b)) - coef (bracket_min b) in
  let r := scaled (bracket_rate b) (-3) in
  let taxable_amount := dsub (dmin p (bracket_max b)) (bracket_min b) in
  let tax := dmul taxable_amount (bracket_rate b) in
  0 < t ->
  -6 <= expo tax /\
  scaled tax (-6) = 1000 * (t * r) /\
  0 <= t * r <= 10 ^ 12 /\
  quantize_default tax PRECISION = Ok (mkDecimal (t * r / 10) (-2)) /\
  exists taxable_q, quantize_default taxable_amount PRECISION = Ok taxable_q.
Proof.
  intros Hb t r taxable_amount tax Ht.
  destruct (exact_taxable b Hb) as (He & Hs & _).
  destruct Hb as (Hmin & Hmax & Hcmin & Hcmax & Hre & Hr & Hdiv).
  fold t taxable_amount in He, Hs. fold t r in Hdiv. fold r in Hr.
  assert (H9 : 10 ^ 9 = 1000000000) by reflexivity.
  assert (H12 : 10 ^ 12 = 1000000000000) by reflexivity.
  assert (H27 : 10 ^ 27 = 1000000000000000000000000000) by reflexivity.
  assert (H28 : 10 ^ 28 = 10000000000000000000000000000) by reflexivity.
  assert (Htb : t <= 10 ^ 9) by (unfold t; lia).
  assert (Htr : 0 <= t * r <= 10 ^ 12) by nia.
  assert (Hte : -6 <= expo tax).
  { pose proof (dmul_expo taxable_amount (bracket_rate b)). unfold tax. lia. }
  assert (Hts : scaled tax (-6) = 1000 * (t * r)).
  { unfold tax. change (-6) with (-3 + -3).
    rewrite dmul_exact; [|exact He|exact Hre|].
    - rewrite Hs. fold r. lia.
    - rewrite Hs. fold r. nia. }
  split; [exact Hte|]. split; [exact Hts|]. split; [exact Htr|]. split.
  - apply (quantize_default_exact tax (-6)); [lia | exact Hte | | ].
    + rewrite Hts. change (10 ^ (-2 - -6)) with 10000.
      pose proof (Z.div_mod (t * r) 10 ltac:(lia)). lia.
    + pose proof (Z.div_mod (t * r) 10 ltac:(lia)).
      pose proof (Z.mod_pos_bound (t * r) 10 ltac:(lia)). lia.
  - eexists. apply (quantize_default_exact taxable_amount (-3) (100 * t)); [lia | exact He | | lia].
    rewrite Hs. change (10 ^ (-2 - -3)) with 10. lia.
Qed.

Lemma breakdown_loop_cons (b : TaxBracket) (rest : list TaxBracket)
  (items : list TransferTaxBreakdownItem.t) :
  breakdown_loop p (b :: rest) items =
  if dle p (bracket_min b) then Ok items
  else
    if dgt (dsub (dmin p (bracket_max b)) (bracket_min b)) D0 then
      taxable_q <- quantize_default (dsub (dmin p (bracket_max b)) (bracket_min b))
                     PRECISION ;;
      tax_q <- quantize_default
                 (dmul (dsub (dmin p (bracket_max b)) (bracket_min b)) (bracket_rate b))
                 PRECISION ;;
      breakdown_loop p rest
        (items ++
         [TransferTaxBreakdownItem.mk
            (if dge (bracket_max b) (dec 999999999 0)
             then (format_int_commas (int_of_Decimal (bracket_min b)) ++ "$+")%string
             else (format_int_commas (int_of_Decimal (bracket_min b)) ++ "$ - "
                   ++ format_int_commas (int_of_Decimal (bracket_max b)) ++ "$")%string)
            (format_float 1 (fmul (float_of_Decimal (bracket_rate b))
                                  (float_of_int 100)) ++ "%")%string
            taxable_q tax_q])
    else breakdown_loop p rest items.
Proof. reflexivity. Qed.

(** One pass over the brackets serves both functions: the taxes of the
    brackets that apply, in thousandths of a dollar, are whole cents; the
    scalar loop adds them without rounding, and the breakdown lists each of
    them as its line item. *)
Lemma loops_exact (bs : list TaxBracket) :
  Forall (exact_bracket n) bs ->
  exists taxes : list Z,
    Forall (fun x => 0 <= x <= 10 ^ 12 /\ x mod 10 = 0) taxes /\
    (List.length taxes <= List.length bs)%nat /\
    (forall acc, -6 <= expo acc -> 0 <= scaled acc (-6) ->
       scaled acc (-6) + 10 ^ 15 * Z.of_nat (List.length bs) <= 10 ^ 27 ->
       -6 <= expo (bracket_loop p bs acc) /\
       scaled (bracket_loop p bs acc) (-6) = scaled acc (-6) + 1000 * zsum taxes) /\
    (forall items, exists items',
       breakdown_loop p bs items = Ok (items ++ items') /\
       map TransferTaxBreakdownItem.tax items'
       = map (fun x => mkDecimal (x / 10) (-2)) taxes).
Proof.
  assert (H12 : 10 ^ 12 = 1000000000000) by reflexivity.
  assert (H15 : 10 ^ 15 = 1000000000000000) by reflexivity.
  assert (H27 : 10 ^ 27 = 1000000000000000000000000000) by reflexivity.
  assert (H28 : 10 ^ 28 = 10000000000000000000000000000) by reflexivity.
  induction 1 as [|b rest Hb _ IH].
  - exists []. split; [constructor|]. split; [cbn; lia|]. split.
    + intros acc He Hs _. cbn [bracket_loop zsum fold_right]. split; [exact He | lia].
    + intros items. exists []. rewrite app_nil_r. split; reflexivity.
  - destruct IH as (taxes & Htaxes & Hlen & Hscalar & Hitems).
    pose proof (exact_taxable b Hb) as Ht. cbv zeta in Ht.
    destruct Ht as (Hte & Hts & Htg).
    pose proof (exact_tax b Hb) as Hx. cbv zeta in Hx.
    assert (Hmin0 : expo (bracket_min b) = 0) by (destruct Hb as (H & _); exact H).
    assert (Hdiv : ((Z.min n (coef (bracket_max b)) - coef (bracket_min b))
                    * scaled (bracket_rate b) (-3)) mod 10 = 0)
      by (destruct Hb as (_ & _ & _ & _ & _ & _ & H); exact H).
    set (t := Z.min n (coef (bracket_max b)) - coef (bracket_min b)) in *.
    set (r := scaled (bracket_rate b) (-3)) in *.
    destruct (Z.leb_spec n (coef (bracket_min b))) as [Hbreak|Hgo].
    { exists []. split; [constructor|]. split; [cbn; lia|]. split.
      - intros acc He Hs _. rewrite bracket_loop_cons, (price_le_whole _ Hmin0).
        destruct (Z.leb_spec n (coef (bracket_min b))); [|lia].
        cbn [zsum fold_right]. split; [exact He | lia].
      - intros items. exists []. rewrite app_nil_r, breakdown_loop_cons, (price_le_whole _ Hmin0).
        destruct (Z.leb_spec n (coef (bracket_min b))); [|lia]. split; reflexivity. }
    destruct (Z.ltb_spec 0 t) as [Hpos|Hzero].
    + destruct (Hx Hpos) as (Hxe & Hxs & Hxb & Hxq & taxable_q & Htq).
      exists (t * r :: taxes). split; [constructor; [split; assumption | exact Htaxes]|].
      split; [cbn [List.length]; lia|]. split.
      * intros acc He Hs Hbound. rewrite bracket_loop_cons, (price_le_whole _ Hmin0).
        destruct (Z.leb_spec n (coef (bracket_min b))); [lia|].
        cbv zeta. rewrite Htg. destruct (Z.ltb_spec 0 t); [|lia].
        set (tax := dmul (dsub (dmin p (bracket_max b)) (bracket_min b)) (bracket_rate b)) in *.
        cbn [List.length] in Hbound. rewrite Nat2Z.inj_succ in Hbound.
        assert (Hacc : scaled (dadd acc tax) (-6) = scaled acc (-6) + 1000 * (t * r)).
        { rewrite dadd_exact; [rewrite Hxs; reflexivity | exact He | exact Hxe |].
          rewrite Hxs. lia. }
        assert (Hacce : -6 <= expo (dadd acc tax)).
        { pose proof (dadd_expo acc tax). lia. }
        destruct (Hscalar (dadd acc tax) Hacce ltac:(lia) ltac:(lia)) as [H1 H2].
        split; [exact H1|]. rewrite H2, Hacc. cbn [zsum fold_right]. fold (zsum taxes). lia.
      * intros items. rewrite breakdown_loop_cons, (price_le_whole _ Hmin0).
        destruct (Z.leb_spec n (coef (bracket_min b))); [lia|].
        rewrite Htg. destruct (Z.ltb_spec 0 t); [|lia].
        rewrite Htq, Hxq. cbn [bind].
        match goal with
        | |- context [breakdown_loop p rest (items ++ [?it])] =>
            destruct (Hitems (items ++ [it])) as (items' & Hrun & Hmap);
            exists (it :: items')
        end.
        rewrite Hrun, <- app_assoc. split; [reflexivity|].
        cbn [map TransferTaxBreakdownItem.tax]. rewrite Hmap. reflexivity.
    + exists taxes. split; [exact Htaxes|]. split; [cbn [List.length]; lia|]. split.
      * intros acc He Hs Hbound. rewrite bracket_loop_cons, (price_le_whole _ Hmin0).
        destruct (Z.leb_spec n (coef (bracket_min b))); [lia|].
        cbv zeta. rewrite Htg. destruct (Z.ltb_spec 0 t); [lia|].
        cbn [List.length] in Hbound. rewrite Nat2Z.inj_succ in Hbound.
        apply Hscalar; [exact He | exact Hs | lia].
      * intros items. rewrite breakdown_loop_cons, (price_le_whole _ Hmin0).
        destruct (Z.leb_spec n (coef (bracket_min b))); [lia|].
        rewrite Htg. destruct (Z.ltb_spec 0 t); [lia|]. apply Hitems.
Qed.

Lemma additional_exact (adds : list AdditionalRate) :
  Forall (exact_additional n) adds ->
  exists A : Z,
    0 <= A <= 10 ^ 12 * Z.of_nat (List.length adds) /\ A mod 10 = 0 /\
    forall acc, -6 <= expo acc -> 0 <= scaled acc (-6) ->
      scaled acc (-6) + 10 ^ 15 * Z.of_nat (List.length adds) <= 10 ^ 27 ->
      -6 <= expo (additional_loop p adds acc) /\
      scaled (additional_loop p adds acc) (-6) = scaled acc (-6) + 1000 * A.
Proof.
  assert (H9 : 10 ^ 9 = 1000000000) by reflexivity.
  assert (H12 : 10 ^ 12 = 1000000000000) by reflexivity.
  assert (H15 : 10 ^ 15 = 1000000000000000) by reflexivity.
  assert (H27 : 10 ^ 27 = 1000000000000000000000000000) by reflexivity.
  assert (H28 : 10 ^ 28 = 10000000000000000000000000000) by reflexivity.
  induction 1 as [|a rest Ha _ IH].
  - exists 0. split; [cbn; lia|]. split; [reflexivity|].
    intros acc He Hs _. cbn [additional_loop]. split; [exact He | lia].
  - destruct IH as (A & HA & HAdiv & Hloop).
    destruct Ha as (Hthr & Hcthr & Hre & Hr & Hdiv).
    set (r := scaled (additional_rate a) (-3)) in *.
    set (c := coef (threshold a)) in *.
    cbn [List.length]. rewrite Nat2Z.inj_succ.
    destruct (Z.ltb_spec c n) as [Hgt|Hle].
    + set (amount := dsub p (threshold a)).
      assert (Hae : -3 <= expo amount).
      { pose proof (dsub_expo p (threshold a)). unfold amount. lia. }
      assert (Has : scaled amount (-3) = 1000 * (n - c)).
      { unfold amount. rewrite dsub_exact; [|exact Hexpo|lia|].
        - rewrite Hval, (scaled_whole _ Hthr). fold c. lia.
        - rewrite Hval, (scaled_whole _ Hthr). fold c. lia. }
      set (x := dmul amount (additional_rate a)).
      assert (Hxe : -6 <= expo x).
      { pose proof (dmul_expo amount (additional_rate a)). unfold x. lia. }
      assert (Hxs : scaled x (-6) = 1000 * ((n - c) * r)).
      { unfold x. change (-6) with (-3 + -3).
        rewrite dmul_exact; [|exact Hae|exact Hre|]; rewrite Has; fold r; [lia | nia]. }
      assert (Hxb : 0 <= (n - c) * r <= 10 ^ 12) by nia.
      exists ((n - c) * r + A). split; [lia|]. split.
      { rewrite Z.add_mod, Hdiv, HAdiv by lia. reflexivity. }
      intros acc He Hs Hbound. cbn [additional_loop]. cbv zeta.
      rewrite (price_gt_whole _ Hthr). fold c.
      destruct (Z.ltb_spec c n); [|lia]. fold amount. fold x.
      assert (Hacc : scaled (dadd acc x) (-6) = scaled acc (-6) + 1000 * ((n - c) * r)).
      { rewrite dadd_exact; [rewrite Hxs; reflexivity | exact He | exact Hxe |].
        rewrite Hxs. lia. }
      assert (Hacce : -6 <= expo (dadd acc x)).
      { pose proof (dadd_expo acc x). lia. }
      destruct (Hloop (dadd acc x) Hacce ltac:(lia) ltac:(lia)) as [H1 H2].
      split; [exact H1|]. rewrite H2, Hacc. lia.
    + exists A. split; [lia|]. split; [exact HAdiv|].
      intros acc He Hs Hbound. cbn [additional_loop]. cbv zeta.
      rewrite (price_gt_whole _ Hthr). fold c.
      destruct (Z.ltb_spec c n); [lia|]. apply Hloop; [exact He | exact Hs | lia].
Qed.

End ExactPrice.

(** [sum(b.tax for b in brackets)] over line items of whole cents. *)
Lemma sum_tax_exact (taxes : list Z) :
  Forall (fun x => 0 <= x <= 10 ^ 12 /\ x mod 10 = 0) taxes ->
  forall (items : list TransferTaxBreakdownItem.t) (acc : Decimal),
    map TransferTaxBreakdownItem.tax items = map (fun x => mkDecimal (x / 10) (-2)) taxes ->
    -2 <= expo acc -> 0 <= scaled acc (-2) ->
    scaled acc (-2) + 10 ^ 12 * Z.of_nat (List.length taxes) <= 10 ^ 27 ->
    -2 <= expo (fold_left (fun a b => dadd a (TransferTaxBreakdownItem.tax b)) items acc) /\
    10 * scaled (fold_left (fun a b => dadd a (TransferTaxBreakdownItem.tax b)) items acc) (-2)
    = 10 * scaled acc (-2) + zsum taxes.
Proof.
  assert (H12 : 10 ^ 12 = 1000000000000) by reflexivity.
  assert (H27 : 10 ^ 27 = 1000000000000000000000000000) by reflexivity.
  assert (H28 : 10 ^ 28 = 10000000000000000000000000000) by reflexivity.
  induction 1 as [|x rest [Hx Hdiv] _ IH]; intros items acc Hmap He Hs Hbound.
  - destruct items; [|discriminate]. cbn [fold_left zsum fold_right]. split; [exact He | lia].
  - destruct items as [|it items]; [discriminate|].
    cbn [map] in Hmap. injection Hmap as Hit Hmap.
    cbn [fold_left]. cbn [List.length] in Hbound. rewrite Nat2Z.inj_succ in Hbound.
    set (tq := TransferTaxBreakdownItem.tax it) in *.
    assert (Htqs : scaled tq (-2) = x / 10)
      by (rewrite Hit; unfold scaled; cbn [coef expo]; rewrite Z.sub_diag; change (10 ^ 0) with 1; lia).
    assert (Htqe : -2 <= expo tq) by (rewrite Hit; cbn [expo]; lia).
    pose proof (Z.div_mod x 10 ltac:(lia)) as Hdm.
    assert (Hacc : scaled (dadd acc tq) (-2) = scaled acc (-2) + x / 10).
    { rewrite dadd_exact; [rewrite Htqs; reflexivity | exact He | exact Htqe |].
      rewrite Htqs. lia. }
    assert (Hacce : -2 <= expo (dadd acc tq)).
    { pose proof (dadd_expo acc tq). lia. }
    destruct (IH items (dadd acc tq) Hmap Hacce ltac:(lia) ltac:(lia)) as [H1 H2].
    split; [exact H1|]. rewrite H2, Hacc. cbn [zsum fold_right]. fold (zsum rest). lia.
Qed.

Section ExactTotals.
Context {F : PyFloat}.

(** On a grid that taxes the price without rounding, the scalar total and
    the total of the breakdown are the same number of cents. *)
Lemma totals_agree_exact (p : Decimal) (n : Z)
  (bs : list TaxBracket) (adds : list AdditionalRate) :
  -3 <= expo p -> scaled p (-3) = 1000 * n -> 0 <= n <= 10 ^ 9 ->
  Forall (exact_bracket n) bs -> Forall (exact_additional n) adds ->
  (List.length bs <= 1000)%nat -> (List.length adds <= 1000)%nat ->
  exists k items additional_q,
    quantize (additional_loop p adds (bracket_loop p bs (dec 0 0))) PRECISION ROUND_HALF_UP
      = Ok (mkDecimal k (-2)) /\
    breakdown_loop p bs [] = Ok items /\
    quantize_default (additional_loop p adds (dec 0 0)) PRECISION = Ok additional_q /\
    quantize_default (dadd (sum_tax items) (additional_loop p adds (dec 0 0))) PRECISION
      = Ok (mkDecimal k (-2)).
Proof.
  intros Hexpo Hval Hn Hbs Hadds Hlb Hla.
  assert (H12 : 10 ^ 12 = 1000000000000) by reflexivity.
  assert (H15 : 10 ^ 15 = 1000000000000000) by reflexivity.
  assert (H27 : 10 ^ 27 = 1000000000000000000000000000) by reflexivity.
  assert (H28 : 10 ^ 28 = 10000000000000000000000000000) by reflexivity.
  destruct (loops_exact p n Hexpo Hval Hn bs Hbs) as (taxes & Htaxes & Hlen & Hscalar & Hitems).
  destruct (additional_exact p n Hexpo Hval Hn adds Hadds) as (A & HA & HAdiv & Hadd).
  assert (Hsum : 0 <= zsum taxes <= 10 ^ 12 * Z.of_nat (List.length taxes) /\
                 zsum taxes mod 10 = 0).
  { clear Hlen Hscalar Hitems. induction Htaxes as [|x rest [Hx Hd] _ IH].
    - cbn. split; [lia | reflexivity].
    - cbn [zsum fold_right List.length]. fold (zsum rest). rewrite Nat2Z.inj_succ.
      destruct IH as [IH1 IH2]. split; [lia|].
      rewrite Z.add_mod, Hd, IH2 by lia. reflexivity. }
  destruct Hsum as [Hsumb Hsumd].
  assert (Hz0 : scaled (dec 0 0) (-6) = 0) by reflexivity.
  assert (He0 : -6 <= expo (dec 0 0)) by (simpl; lia).
  destruct (Hscalar (dec 0 0) He0 ltac:(lia) ltac:(lia)) as [Hbe Hbv].
  rewrite Hz0, Z.add_0_l in Hbv.
  destruct (Hadd (bracket_loop p bs (dec 0 0)) Hbe ltac:(lia) ltac:(lia)) as [Hte Htv].
  destruct (Hadd (dec 0 0) He0 ltac:(lia) ltac:(lia)) as [Hae Hav].
  rewrite Hz0, Z.add_0_l in Hav. rewrite Hbv in Htv.
  destruct (Hitems []) as (items & Hrun & Hmap). cbn [app] in Hrun.
  pose proof (Z.div_mod (zsum taxes) 10 ltac:(lia)) as Hdm1.
  pose proof (Z.div_mod A 10 ltac:(lia)) as Hdm2.
  set (k := zsum taxes / 10 + A / 10).
  exists k, items, (mkDecimal (A / 10) (-2)).
  split.
  { apply (quantize_exact ROUND_HALF_UP _ (-6)); [lia | exact Hte | | unfold k; lia].
    rewrite Htv. change (10 ^ (-2 - -6)) with 10000. unfold k. lia. }
  split; [exact Hrun|]. split.
  { apply (quantize_default_exact _ (-6)); [lia | exact Hae | | lia].
    rewrite Hav. change (10 ^ (-2 - -6)) with 10000. lia. }
  assert (HD0 : -2 <= expo D0) by (simpl; lia).
  assert (HsD0 : scaled D0 (-2) = 0) by reflexivity.
  destruct (sum_tax_exact taxes Htaxes items D0 Hmap HD0 ltac:(lia) ltac:(lia)) as [Hse Hsv].
  fold (sum_tax items) in Hse, Hsv. rewrite HsD0 in Hsv.
  assert (Hs6 : scaled (sum_tax items) (-6) = 1000 * zsum taxes).
  { rewrite (scaled_shift (sum_tax items) (-2) (-6)) by lia.
    change (10 ^ (-2 - -6)) with 10000. lia. }
  set (add := additional_loop p adds (dec 0 0)) in *.
  assert (Htot : scaled (dadd (sum_tax items) add) (-6) = 1000 * zsum taxes + 1000 * A).
  { rewrite dadd_exact; [rewrite Hs6, Hav; reflexivity | lia | exact Hae |].
    rewrite Hs6, Hav. lia. }
  apply (quantize_default_exact _ (-6)); [lia | | | unfold k; lia].
  - pose proof (dadd_expo (sum_tax items) add). lia.
  - rewrite Htot. change (10 ^ (-2 - -6)) with 10000. unfold k. lia.
Qed.

Lemma tables_exact (m : MunicipalityCode) (cfg : MunicipalityTaxConfig) (n : Z) :
  tables_get TRANSFER_TAX_TABLES m = Some cfg ->
  Z.even n = true -> 0 <= n <= 999999998 ->
  Forall (exact_bracket n) (brackets cfg) /\
  Forall (exact_additional n) (additional_list cfg).
Proof.
  intros Hcfg Heven Hn. apply Z.even_spec in Heven. destruct Heven as [h ->].
  assert (H9 : 10 ^ 9 = 1000000000) by reflexivity.
  destruct m; injection Hcfg as <-;
    cbn [brackets additional_list additional_rates];
    unfold brackets_montreal, brackets_four, brackets_three;
    (split; repeat constructor);
    unfold exact_bracket, exact_additional;
    cbn [bracket_min bracket_max bracket_rate threshold additional_rate];
    repeat match goal with
           | |- context [scaled (dec ?c ?e) (-3)] =>
               let v := eval vm_compute in (scaled (dec c e) (-3)) in
               change (scaled (dec c e) (-3)) with v
           end;
    unfold dec; cbn [coef expo]; repeat split; try lia;
    try match goal with
        | |- context [Z.min ?a ?b] =>
            destruct (Z.min_spec a b) as [[? ->]|[? ->]]
        end;
    first [lia | reflexivity | Z.div_mod_to_equations; lia].
Qed.

(** X24: for a price that is a whole, even number of dollars up to
    999 999 998, written with three decimals at most, both functions return
    and the total of the breakdown is exactly the scalar total: every bracket
    then yields whole cents, so neither the rounding of the line items nor
    the rounding mode of the totals can show. *)
Theorem breakdown_total_agrees_on_even_dollars
  (p : Decimal) (n : Z) (m : MunicipalityCode) :
  -3 <= expo p -> deq p (Decimal_of_int n) = true ->
  Z.even n = true -> 0 <= n <= 999999998 ->
  exists t b,
    calculate_transfer_tax p m = Ok t /\
    get_transfer_tax_breakdown p m = Ok b /\
    TransferTaxBreakdown.total_tax b = t.
Proof.
  intros Hexpo Hdeq Heven Hn.
  assert (Hval : scaled p (-3) = 1000 * n).
  { apply (deq_scaled p (Decimal_of_int n) (-3)) in Hdeq; [|lia | simpl; lia].
    rewrite Hdeq. unfold scaled. cbn [coef expo Decimal_of_int].
    change (10 ^ (0 - -3)) with 1000. lia. }
  destruct (tables_total m) as [cfg Hcfg].
  destruct (tables_exact m cfg n Hcfg Heven Hn) as [Hbs Hadds].
  assert (Hlb : (List.length (brackets cfg) <= 1000)%nat)
    by (destruct m; injection Hcfg as <-; cbn; lia).
  assert (Hla : (List.length (additional_list cfg) <= 1000)%nat)
    by (destruct m; injection Hcfg as <-; cbn; lia).
  assert (Hn9 : 0 <= n <= 10 ^ 9) by (change (10 ^ 9) with 1000000000; lia).
  destruct (totals_agree_exact p n _ _ Hexpo Hval Hn9 Hbs Hadds Hlb Hla)
    as (k & items & additional_q & Hscalar & Hrun & Haq & Htq).
  exists (mkDecimal k (-2)).
  exists (TransferTaxBreakdown.mk (name cfg) p items additional_q (mkDecimal k (-2))).
  unfold calculate_transfer_tax, calculate_transfer_tax_in, get_transfer_tax_breakdown.
  rewrite Hcfg. cbv zeta. rewrite Hscalar, Hrun. cbn [bind]. rewrite Haq. cbn [bind].
  rewrite Htq. cbn [bind]. repeat split.
Qed.

End ExactTotals.

Lemma breakdown_total_agrees_on_even_dollars_witness :
  exists t b,
    calculate_transfer_tax (dec 42500000 (-2)) MONTREAL = Ok t /\
    @get_transfer_tax_breakdown RefFloat (dec 42500000 (-2)) MONTREAL = Ok b /\
    TransferTaxBreakdown.total_tax b = t.
Proof.
  apply (@breakdown_total_agrees_on_even_dollars RefFloat (dec 42500000 (-2)) 425000 MONTREAL).
  - simpl. lia.
  - reflexivity.
  - reflexivity.
  - lia.
Defined.
